(** * Mathesar identity layer: [mathesar/models/base.py]

    A shallow embedding of the Django models of [mathesar.models.base]
    (Database, Schema, Table, Column, Constraint), of the managers that
    read them, of the name cache and of the process-wide engine cache,
    followed by the properties the specification states about them.

    Python code is embedded as state-passing functions in a small state and
    exception monad.  A method of a model instance runs over a pair of the
    instance (its fields and the [__dict__] slots that [cached_property]
    fills) and the world (clock, Django cache, engine cache, the user
    databases' catalogs, the Django tables of the identity records with the
    sequences of their primary keys, and a trace of the externally visible
    actions).  An exception keeps the side
    effects made before it was raised, as in Python. *)

From stdpp Require Import gmap strings list fin_maps pretty.
From Stdlib Require Import Ascii.

Open Scope Z_scope.

(** ** Exceptions and the monad *)

Inductive exn :=
  | TypeError
  | IndexError
  | KeyError
  | AttributeError
  | ValueError
  | DoesNotExist
  | ValidationError (msg : string)
  | IntegrityError (constraint_name : string)
  | OperationalError
  | AssertionError
  | OverflowError
  | DataError.

Global Instance exn_eq_dec : EqDecision exn.
Proof. solve_decision. Defined.

Inductive outcome (A : Type) :=
  | Return (a : A)
  | Raise (e : exn).
Arguments Return {A} a.
Arguments Raise {A} e.

Definition M (S A : Type) : Type := S → outcome A * S.

Global Instance M_ret {S} : MRet (M S) := λ A a s, (Return a, s).
Global Instance M_bind {S} : MBind (M S) := λ A B f m s,
  match m s with
  | (Return a, s') => f a s'
  | (Raise e, s') => (Raise e, s')
  end.

Definition raise {S A} (e : exn) : M S A := λ s, (Raise e, s).
Definition gets {S A} (f : S → A) : M S A := λ s, (Return (f s), s).
Definition modify {S} (f : S → S) : M S unit := λ s, (Return tt, f s).

(** [try: body except catches: handler] *)
Definition try_except {S A} (body : M S A) (catches : exn → bool)
    (handler : M S A) : M S A := λ s,
  match body s with
  | (Return a, s') => (Return a, s')
  | (Raise e, s') => if catches e then handler s' else (Raise e, s')
  end.

(** ** The user databases' catalogs

    The catalog is reached only through the functions of the [db] package,
    which are not among the sources; the state they read is kept to what
    [mathesar.models.base] asks of it: schema names by oid, and per table
    oid the name, the schema, the columns by attribute number and the
    constraints. *)

Inductive ConstraintType := PRIMARY_KEY | FOREIGN_KEY | UNIQUE | CHECK.

Global Instance ConstraintType_eq_dec : EqDecision ConstraintType.
Proof. solve_decision. Defined.

Record CatalogConstraint := {
  conoid : Z;
  conname : string;
  contype : ConstraintType;
  conkey : list Z;
}.

Record CatalogTable := {
  relname : string;
  relnamespace : Z;
  attributes : list (Z * string);      (* (attnum, attname), in table order *)
  relconstraints : list CatalogConstraint;
}.

Record Catalog := {
  pg_namespace : gmap Z string;        (* schema oid -> nspname *)
  pg_class : gmap Z CatalogTable;      (* table oid -> table *)
}.

(** ** The identity records (Django tables) *)

Record DatabaseRow := { db_name : string; db_deleted : bool }.
Record SchemaRow := { sch_oid : Z; sch_database_id : Z }.
Record TableRow := {
  tbl_oid : Z;
  tbl_schema_id : Z;
  tbl_import_verified : option bool;
}.
Record ColumnRow := {
  col_table_id : Z;
  col_attnum : Z;
  col_display_options : option string;
}.
Record ConstraintRow := { con_oid : Z; con_table_id : Z }.

Record Registry := {
  databases : gmap Z DatabaseRow;
  schemas : gmap Z SchemaRow;
  tables : gmap Z TableRow;
  columns : gmap Z ColumnRow;
  constraints : gmap Z ConstraintRow;
}.

(** ** The world *)

(** An engine handle: the database it connects to and the serial number of
    the [create_mathesar_engine] call that built it (two constructions give
    two distinct handles). *)
Record Engine := { engine_database : string; engine_serial : nat }.

Global Instance Engine_eq_dec : EqDecision Engine.
Proof. solve_decision. Defined.

Inductive event :=
  | EvReflect                          (* reflection.reflect_db_objects() *)
  | EvCacheGet (key : string)
  | EvCacheSet (key : string)
  | EvCacheDelete (key : string)
  | EvCatalogRead (database : string)  (* a catalog query through an engine *)
  | EvCatalogDDL (database : string)   (* a DDL statement through an engine *)
  | EvEngineCreate (database : string)
  | EvEngineReady (engine : Engine)
  | EvRowInsert (model : string) (id : Z)
  | EvRowUpdate (model : string) (id : Z)
  | EvRowDelete (model : string) (id : Z).

Global Instance event_eq_dec : EqDecision event.
Proof. solve_decision. Defined.

Record World := {
  clock : Z;                                 (* time.time(), in seconds *)
  cache : gmap string (string * Z);          (* key -> (value, expiry) *)
  _engines : gmap string Engine;             (* the module-level dict *)
  engines_created : nat;
  catalogs : gmap string Catalog;            (* database name -> catalog *)
  registry : Registry;
  sequences : gmap string Z;                 (* Django table -> last key given *)
  trace : list event;
}.

Definition set_cache (f : gmap string (string * Z) → gmap string (string * Z))
    (w : World) : World :=
  {| clock := clock w; cache := f (cache w); _engines := _engines w;
     engines_created := engines_created w; catalogs := catalogs w;
     registry := registry w; sequences := sequences w;
     trace := trace w |}.

Definition set_engines (f : gmap string Engine → gmap string Engine)
    (w : World) : World :=
  {| clock := clock w; cache := cache w; _engines := f (_engines w);
     engines_created := engines_created w; catalogs := catalogs w;
     registry := registry w; sequences := sequences w;
     trace := trace w |}.

Definition set_engines_created (n : nat) (w : World) : World :=
  {| clock := clock w; cache := cache w; _engines := _engines w;
     engines_created := n; catalogs := catalogs w;
     registry := registry w; sequences := sequences w;
     trace := trace w |}.

Definition set_catalogs (f : gmap string Catalog → gmap string Catalog)
    (w : World) : World :=
  {| clock := clock w; cache := cache w; _engines := _engines w;
     engines_created := engines_created w; catalogs := f (catalogs w);
     registry := registry w; sequences := sequences w;
     trace := trace w |}.

Definition set_registry (f : Registry → Registry) (w : World) : World :=
  {| clock := clock w; cache := cache w; _engines := _engines w;
     engines_created := engines_created w; catalogs := catalogs w;
     registry := f (registry w); sequences := sequences w;
     trace := trace w |}.

Definition set_clock (t : Z) (w : World) : World :=
  {| clock := t; cache := cache w; _engines := _engines w;
     engines_created := engines_created w; catalogs := catalogs w;
     registry := registry w; sequences := sequences w;
     trace := trace w |}.

Definition log (e : event) (w : World) : World :=
  {| clock := clock w; cache := cache w; _engines := _engines w;
     engines_created := engines_created w; catalogs := catalogs w;
     registry := registry w; sequences := sequences w;
     trace := trace w ++ [e] |}.

Definition set_sequences (f : gmap string Z → gmap string Z) (w : World)
    : World :=
  {| clock := clock w; cache := cache w; _engines := _engines w;
     engines_created := engines_created w; catalogs := catalogs w;
     registry := registry w; sequences := f (sequences w);
     trace := trace w |}.

(** A method body runs on the instance and the world; world-level actions
    are lifted to it. *)
Definition lift {Self A} (m : M World A) : M (Self * World) A := λ s,
  match m s.2 with
  | (r, w') => (r, (s.1, w'))
  end.

Definition get_self {Self} : M (Self * World) Self := gets fst.
Definition update_self {Self} (f : Self → Self) : M (Self * World) unit :=
  modify (λ s, (f s.1, s.2)).

(** [django.utils.functional.cached_property]: the first read runs the
    function and stores its result in the instance's [__dict__]; later reads
    find the attribute there and never reach the function.  Nothing is
    stored when the function raises. *)
Definition cached_property {Self A} (slot : Self → option A)
    (store : A → Self → Self) (func : M (Self * World) A)
    : M (Self * World) A := λ s,
  match slot s.1 with
  | Some v => (Return v, s)
  | None =>
      match func s with
      | (Return v, s') => (Return v, (store v s'.1, s'.2))
      | (Raise e, s') => (Raise e, s')
      end
  end.

(** ** [django.core.cache]

    [cache.get] answers [None] for an absent or expired key; [cache.set]
    with a timeout makes the entry expire that many seconds later. *)
Definition cache_get (key : string) : M World (option string) := λ w,
  (Return match cache w !! key with
          | Some (v, expiry) => if decide (clock w < expiry) then Some v else None
          | None => None
          end,
   log (EvCacheGet key) w).

Definition cache_set (key value : string) (timeout : Z) : M World unit := λ w,
  (Return tt,
   log (EvCacheSet key) (set_cache (<[key := (value, clock w + timeout)]>) w)).

Definition cache_delete (key : string) : M World unit := λ w,
  (Return tt, log (EvCacheDelete key) (set_cache (delete key) w)).

Definition NAME_CACHE_INTERVAL : Z := 60 * 5.

(** ** The engine cache: [Database._sa_engine] *)

Record DatabaseObj := { database_id : Z; database_name : string }.

Definition create_mathesar_engine (name : string) : M World Engine := λ w,
  let engine := {| engine_database := name;
                   engine_serial := engines_created w |} in
  (Return engine,
   log (EvEngineCreate name) (set_engines_created (S (engines_created w)) w)).

Definition ensure_cached_engine_ready (engine : Engine) : M World unit :=
  modify (log (EvEngineReady engine)).

Definition Database_sa_engine (self : DatabaseObj) : M World Engine :=
  engines ← gets _engines;
  match engines !! database_name self with
  | None =>
      engine ← create_mathesar_engine (database_name self);
      modify (set_engines (<[database_name self := engine]>));;
      mret engine
  | Some engine =>
      ensure_cached_engine_ready engine;;
      mret engine
  end.

(** ** Catalog reads of the [db] package *)

(** Runs a catalog query through an engine.  An engine whose database cannot
    be reached fails with a connection error. *)
Definition catalog_query {A} (engine : Engine) (q : Catalog → outcome A)
    : M World A := λ w,
  match catalogs w !! engine_database engine with
  | Some cat => (q cat, log (EvCatalogRead (engine_database engine)) w)
  | None => (Raise OperationalError, w)
  end.

(** Modelled from the spec: [db.schemas.utils.get_schema_name_from_oid] is
    not among the sources.  It resolves a schema oid to its current name in
    the catalog; for an oid the catalog no longer has, the row it subscripts
    is [None], which is the [TypeError] that [Schema.name] catches. *)
Definition get_schema_name_from_oid (oid : Z) (engine : Engine)
    : M World string :=
  catalog_query engine (λ cat,
    match pg_namespace cat !! oid with
    | Some name => Return name
    | None => Raise TypeError
    end).

(** ** [Schema] *)

Record SchemaObj := {
  schema_id : Z;
  schema_oid : Z;
  schema_database : DatabaseObj;
  schema_dict_name : option string;    (* __dict__['name'] *)
}.

Definition schema_store_name (v : string) (s : SchemaObj) : SchemaObj :=
  {| schema_id := schema_id s; schema_oid := schema_oid s;
     schema_database := schema_database s; schema_dict_name := Some v |}.

Definition Schema_sa_engine (self : SchemaObj) : M World Engine :=
  Database_sa_engine (schema_database self).

(** f"{self.database.name}_schema_name_{self.oid}" *)
Definition schema_cache_key (self : SchemaObj) : string :=
  database_name (schema_database self) +:+ "_schema_name_"
    +:+ pretty (schema_oid self).

Definition is_TypeError (e : exn) : bool := bool_decide (e = TypeError).

(** The function that [Schema.name] wraps. *)
Definition Schema_name_func (self : SchemaObj) : M World string :=
  let cache_key := schema_cache_key self in
  try_except
    (schema_name ← cache_get cache_key;
     match schema_name with
     | None =>
         engine ← Schema_sa_engine self;
         schema_name ← get_schema_name_from_oid (schema_oid self) engine;
         cache_set cache_key schema_name NAME_CACHE_INTERVAL;;
         mret schema_name
     | Some schema_name => mret schema_name
     end)
    is_TypeError
    (mret "MISSING"%string).

Definition Schema_name : M (SchemaObj * World) string :=
  cached_property schema_dict_name schema_store_name
    (s ← get_self; lift (Schema_name_func s)).

Definition Schema_clear_name_cache : M (SchemaObj * World) unit :=
  s ← get_self;
  lift (cache_delete (schema_cache_key s)).

(** ** The [db] package: reads *)

(** A reflected table, as [mathesar.models.base] uses it: its name, the name
    of its schema, its columns and its constraints. *)
Record SATable := {
  sa_name : string;
  sa_schema : option string;
  sa_cols : list (Z * string);
  sa_constraints : list CatalogConstraint;
}.

(** Modelled from the spec: [db.tables.operations.select.reflect_table_from_oid]
    is not among the sources.  It selects the (schema name, table name) row
    of the oid and reflects that table; for an oid the catalog no longer has
    there is no row to take, the [IndexError] that [Table._sa_table]
    catches. *)
Definition reflect_table (oid : Z) (cat : Catalog) : outcome SATable :=
  match pg_class cat !! oid with
  | Some t =>
      match pg_namespace cat !! relnamespace t with
      | Some nspname =>
          Return {| sa_name := relname t; sa_schema := Some nspname;
                    sa_cols := attributes t;
                    sa_constraints := relconstraints t |}
      | None => Raise IndexError
      end
  | None => Raise IndexError
  end.

Definition reflect_table_from_oid (oid : Z) (engine : Engine)
    : M World SATable :=
  catalog_query engine (reflect_table oid).

(** Modelled from the spec: [db.tables.utils.get_empty_table] is not among
    the sources; it builds a table of the given name with no schema, no
    column and no constraint. *)
Definition get_empty_table (name : string) : SATable :=
  {| sa_name := name; sa_schema := None; sa_cols := []; sa_constraints := [] |}.

(** Modelled from the spec: [db.columns.utils.get_enriched_column_table] is
    not among the sources; it rebuilds the table from its columns, each given
    the engine, without a catalog query. *)
Definition get_enriched_column_table (table : SATable) (engine : Engine)
    : SATable :=
  {| sa_name := sa_name table; sa_schema := sa_schema table;
     sa_cols := sa_cols table; sa_constraints := [] |}.

(** Modelled from the spec: [get_columns_attnum_from_names] is not among the
    sources.  With [return_as_name_map=True] it answers the dict from column
    name to attribute number, in table order, of those columns of the table
    whose name is among the given ones. *)
Definition get_columns_attnum_from_names (table_oid : Z)
    (column_names : list string) (engine : Engine)
    : M World (list (string * Z)) :=
  catalog_query engine (λ cat,
    Return match pg_class cat !! table_oid with
           | Some t =>
               (λ a : Z * string, (a.2, a.1)) <$>
                 filter (λ a : Z * string, a.2 ∈ column_names) (attributes t)
           | None => []
           end).

(** Modelled from the spec: [get_constraint_oid_by_name_and_table_oid] is
    not among the sources; it looks the constraint of the table up by name
    and answers its oid. *)
Definition find_constraint_by_name (name : string) (table_oid : Z)
    (cat : Catalog) : option CatalogConstraint :=
  t ← pg_class cat !! table_oid;
  list_find (λ c, conname c = name) (relconstraints t) ≫= λ ic, Some ic.2.

Definition get_constraint_oid_by_name_and_table_oid (name : string)
    (table_oid : Z) (engine : Engine) : M World Z :=
  catalog_query engine (λ cat,
    match find_constraint_by_name name table_oid cat with
    | Some c => Return (conoid c)
    | None => Raise TypeError
    end).

(** Modelled from the spec: [get_constraint_from_oid] is not among the
    sources; it reads the name the catalog has for the constraint oid and
    answers the constraint of that name of the reflected table, or [None]. *)
Definition find_constraint_by_oid (oid : Z) (cat : Catalog)
    : option CatalogConstraint :=
  list_find (λ c, conoid c = oid)
    (concat ((relconstraints ∘ snd) <$> map_to_list (pg_class cat)))
    ≫= λ ic, Some ic.2.

Definition constraint_from_oid (oid : Z) (table : SATable) (cat : Catalog)
    : outcome (option CatalogConstraint) :=
  match find_constraint_by_oid oid cat with
  | Some record =>
      Return (list_find (λ c, conname c = conname record)
                (sa_constraints table) ≫= λ ic, Some ic.2)
  | None => Raise TypeError
  end.

Definition get_constraint_from_oid (oid : Z) (engine : Engine)
    (table : SATable) : M World (option CatalogConstraint) :=
  catalog_query engine (constraint_from_oid oid table).

(** ** The [db] package: DDL, and [mathesar.reflection]

    The statements that change the catalog, the naming scheme of the
    constraints and the reconciliation of the identity records are not among
    the sources.  They are taken as an interface: a DDL operation is any
    function on the catalog that answers or raises. *)
Record ConstraintSpec := {
  spec_name : option string;
  spec_type : ConstraintType;
  spec_columns_attnum : list Z;
  spec_table_oid : Z;                  (* read by the [db] package only *)
}.

Class DbLayer := {
  ColumnData : Type;
  ColumnResult : Type;
  create_column : Z → ColumnData → M Catalog ColumnResult;
  alter_column : Z → Z → ColumnData → M Catalog ColumnResult;
  drop_column : Z → Z → M Catalog unit;
  create_constraint : option string → ConstraintSpec → M Catalog unit;
  drop_constraint : string → option string → string → M Catalog unit;
  get_constraint_name : ConstraintType → Z → Z → Catalog → outcome string;
  reflect_registry : gmap string Catalog → Registry → outcome Registry;
}.

(** Runs a DDL operation through an engine. *)
Definition catalog_ddl {A} (engine : Engine) (op : M Catalog A)
    : M World A := λ w,
  match catalogs w !! engine_database engine with
  | Some cat =>
      match op cat with
      | (r, cat') =>
          (r, log (EvCatalogDDL (engine_database engine))
                (set_catalogs (<[engine_database engine := cat']>) w))
      end
  | None => (Raise OperationalError, w)
  end.

(** ** Django's own database

    The identity records are rows of tables of Django's own database.  What
    the sources leave to its backend is taken as an interface: the values
    that the column of an [IntegerField] holds, the error for a value it
    does not hold, and the primary key that the sequence of a table gives to
    a row inserted without one.  That key is above every key the sequence
    has given: no key is given twice, also after its row was deleted.  What
    becomes of the sequence when a row is inserted under a key that the
    statement names is the backend's as well: one backend moves the sequence
    on to a key above it, another leaves the sequence alone. *)
Class DjangoDb := {
  integer_field_fits : Z → bool;
  range_error : exn;
  next_key : string → Z → Z;
  next_key_above : ∀ table mark, mark < next_key table mark;
  mark_after_named_key : string → Z → Z → Z;
}.

(** The last key that the sequence of a table has given. *)
Definition sequence_mark (table : string) (w : World) : Z :=
  default 0 (sequences w !! table).

(** The sequence of a table moves on to a key that a row was inserted
    under, and never back. *)
Definition sequence_reaches (table : string) (id : Z) (w : World) : World :=
  set_sequences (<[table := Z.max id (sequence_mark table w)]>) w.

(** The sequence of a table after a row was inserted under a key that the
    statement named. *)
Definition sequence_sees `{DjangoDb} (table : string) (id : Z) (w : World)
    : World :=
  set_sequences
    (<[table := mark_after_named_key table id (sequence_mark table w)]>) w.

Section Models.
Context `{db : DbLayer}.
Context `{dj : DjangoDb}.

(** ** Managers *)

Inductive Model := MDatabase | MSchema | MTable | MColumn | MConstraint.

(** [models.Manager] and its subclass [DatabaseObjectManager]. *)
Inductive Manager := PlainManager | DatabaseObjectManager.

(** A queryset is lazy: it names the model it will read. *)
Record QuerySet := { qs_model : Model }.

(** [reflection.reflect_db_objects()] *)
Definition reflect_db_objects : M World unit := λ w,
  match reflect_registry (catalogs w) (registry w) with
  | Return r => (Return tt, set_registry (λ _, r) (log EvReflect w))
  | Raise e => (Raise e, log EvReflect w)
  end.

Definition Manager_get_queryset (model : Model) : M World QuerySet :=
  mret {| qs_model := model |}.

Definition DatabaseObjectManager_get_queryset (model : Model)
    : M World QuerySet :=
  reflect_db_objects;;
  Manager_get_queryset model.

Definition get_queryset (manager : Manager) (model : Model)
    : M World QuerySet :=
  match manager with
  | PlainManager => Manager_get_queryset model
  | DatabaseObjectManager => DatabaseObjectManager_get_queryset model
  end.

(** The two managers every identity model declares. *)
Definition current_objects : Manager := PlainManager.
Definition objects : Manager := DatabaseObjectManager.

(** ** [Table] *)

Record TableObj := {
  table_id : option Z;                  (* the primary key, once saved *)
  table_oid : Z;
  table_schema : SchemaObj;
  table_import_verified : option bool;
  table_state_adding : bool;            (* self._state.adding *)
  table_dict_sa_engine : option Engine;
  table_dict_sa_table : option SATable;
  table_dict_enriched_column_sa_table : option SATable;
  table_dict_name : option string;
  table_dict_sa_columns : option (list (Z * string));
}.

Definition table_store_sa_engine (slot : option Engine) (t : TableObj) :=
  {| table_id := table_id t; table_oid := table_oid t;
     table_schema := table_schema t;
     table_import_verified := table_import_verified t;
     table_state_adding := table_state_adding t;
     table_dict_sa_engine := slot;
     table_dict_sa_table := table_dict_sa_table t;
     table_dict_enriched_column_sa_table :=
       table_dict_enriched_column_sa_table t;
     table_dict_name := table_dict_name t;
     table_dict_sa_columns := table_dict_sa_columns t |}.

Definition table_store_sa_table (slot : option SATable) (t : TableObj) :=
  {| table_id := table_id t; table_oid := table_oid t;
     table_schema := table_schema t;
     table_import_verified := table_import_verified t;
     table_state_adding := table_state_adding t;
     table_dict_sa_engine := table_dict_sa_engine t;
     table_dict_sa_table := slot;
     table_dict_enriched_column_sa_table :=
       table_dict_enriched_column_sa_table t;
     table_dict_name := table_dict_name t;
     table_dict_sa_columns := table_dict_sa_columns t |}.

Definition table_store_enriched (slot : option SATable) (t : TableObj) :=
  {| table_id := table_id t; table_oid := table_oid t;
     table_schema := table_schema t;
     table_import_verified := table_import_verified t;
     table_state_adding := table_state_adding t;
     table_dict_sa_engine := table_dict_sa_engine t;
     table_dict_sa_table := table_dict_sa_table t;
     table_dict_enriched_column_sa_table := slot;
     table_dict_name := table_dict_name t;
     table_dict_sa_columns := table_dict_sa_columns t |}.

Definition table_store_name (slot : option string) (t : TableObj) :=
  {| table_id := table_id t; table_oid := table_oid t;
     table_schema := table_schema t;
     table_import_verified := table_import_verified t;
     table_state_adding := table_state_adding t;
     table_dict_sa_engine := table_dict_sa_engine t;
     table_dict_sa_table := table_dict_sa_table t;
     table_dict_enriched_column_sa_table :=
       table_dict_enriched_column_sa_table t;
     table_dict_name := slot;
     table_dict_sa_columns := table_dict_sa_columns t |}.

Definition table_store_sa_columns (slot : option (list (Z * string)))
    (t : TableObj) :=
  {| table_id := table_id t; table_oid := table_oid t;
     table_schema := table_schema t;
     table_import_verified := table_import_verified t;
     table_state_adding := table_state_adding t;
     table_dict_sa_engine := table_dict_sa_engine t;
     table_dict_sa_table := table_dict_sa_table t;
     table_dict_enriched_column_sa_table :=
       table_dict_enriched_column_sa_table t;
     table_dict_name := table_dict_name t;
     table_dict_sa_columns := slot |}.

Definition table_set_saved (id : Z) (t : TableObj) :=
  {| table_id := Some id; table_oid := table_oid t;
     table_schema := table_schema t;
     table_import_verified := table_import_verified t;
     table_state_adding := false;
     table_dict_sa_engine := table_dict_sa_engine t;
     table_dict_sa_table := table_dict_sa_table t;
     table_dict_enriched_column_sa_table :=
       table_dict_enriched_column_sa_table t;
     table_dict_name := table_dict_name t;
     table_dict_sa_columns := table_dict_sa_columns t |}.

Definition is_TypeError_or_IndexError (e : exn) : bool :=
  bool_decide (e = TypeError) || bool_decide (e = IndexError).

Definition is_AttributeError (e : exn) : bool :=
  bool_decide (e = AttributeError).

Definition Table_sa_engine : M (TableObj * World) Engine :=
  cached_property table_dict_sa_engine (table_store_sa_engine ∘ Some)
    (t ← get_self; lift (Schema_sa_engine (table_schema t))).

Definition Table_sa_table : M (TableObj * World) SATable :=
  cached_property table_dict_sa_table (table_store_sa_table ∘ Some)
    (t ← get_self;
     try_except
       (engine ← lift (Schema_sa_engine (table_schema t));
        lift (reflect_table_from_oid (table_oid t) engine))
       is_TypeError_or_IndexError
       (mret (get_empty_table "MISSING"))).

Definition Table_enriched_column_sa_table : M (TableObj * World) SATable :=
  cached_property table_dict_enriched_column_sa_table
    (table_store_enriched ∘ Some)
    (table ← Table_sa_table;
     engine ← Table_sa_engine;
     mret (get_enriched_column_table table engine)).

Definition Table_name : M (TableObj * World) string :=
  cached_property table_dict_name (table_store_name ∘ Some)
    (table ← Table_sa_table; mret (sa_name table)).

Definition Table_sa_columns : M (TableObj * World) (list (Z * string)) :=
  cached_property table_dict_sa_columns (table_store_sa_columns ∘ Some)
    (table ← Table_enriched_column_sa_table; mret (sa_cols table)).

Definition Table_sa_constraints
    : M (TableObj * World) (list CatalogConstraint) :=
  table ← Table_sa_table; mret (sa_constraints table).

Definition Table_sa_column_names : M (TableObj * World) (list string) :=
  cols ← Table_sa_columns; mret (snd <$> cols).

(** [del self.attr] for a [cached_property]: removes the [__dict__] slot,
    and raises [AttributeError] when the slot is empty. *)
Definition delattr {Self A} (slot : Self → option A)
    (store : option A → Self → Self) : M (Self * World) unit := λ s,
  match slot s.1 with
  | Some _ => (Return tt, (store None s.1, s.2))
  | None => (Raise AttributeError, s)
  end.

Definition Table_add_column (column_data : ColumnData)
    : M (TableObj * World) ColumnResult :=
  t ← get_self;
  engine ← lift (Schema_sa_engine (table_schema t));
  lift (catalog_ddl engine (create_column (table_oid t) column_data)).

Definition Table_alter_column (column_attnum : Z) (column_data : ColumnData)
    : M (TableObj * World) ColumnResult :=
  t ← get_self;
  engine ← lift (Schema_sa_engine (table_schema t));
  lift (catalog_ddl engine
          (alter_column (table_oid t) column_attnum column_data)).

Definition Table_drop_column (column_attnum : Z)
    : M (TableObj * World) unit :=
  t ← get_self;
  engine ← lift (Schema_sa_engine (table_schema t));
  lift (catalog_ddl engine (drop_column (table_oid t) column_attnum)).

(** ** Rows of the identity records *)

Definition set_tables (f : gmap Z TableRow → gmap Z TableRow)
    (r : Registry) : Registry :=
  {| databases := databases r; schemas := schemas r; tables := f (tables r);
     columns := columns r; constraints := constraints r |}.

Definition set_columns (f : gmap Z ColumnRow → gmap Z ColumnRow)
    (r : Registry) : Registry :=
  {| databases := databases r; schemas := schemas r; tables := tables r;
     columns := f (columns r); constraints := constraints r |}.

Definition set_constraints (f : gmap Z ConstraintRow → gmap Z ConstraintRow)
    (r : Registry) : Registry :=
  {| databases := databases r; schemas := schemas r; tables := tables r;
     columns := columns r; constraints := f (constraints r) |}.

Fixpoint mapM {S A B} (f : A → M S B) (l : list A) : M S (list B) :=
  match l with
  | [] => mret []
  | x :: l => y ← f x; ys ← mapM f l; mret (y :: ys)
  end.

(** ** [Column] *)

Record ColumnObj := {
  column_id : option Z;
  column_table_id : option Z;
  column_attnum : Z;
  column_display_options : option string;
}.

Definition column_of_row (id : Z) (row : ColumnRow) : ColumnObj :=
  {| column_id := Some id; column_table_id := Some (col_table_id row);
     column_attnum := col_attnum row;
     column_display_options := col_display_options row |}.

(** [Column.<manager>.get(id=column_id)] *)
Definition Column_get (manager : Manager) (id : Z) : M World ColumnObj :=
  get_queryset manager MColumn;;
  reg ← gets registry;
  match columns reg !! id with
  | Some row => mret (column_of_row id row)
  | None => raise DoesNotExist
  end.

(** [Column.<manager>.bulk_update(objs, fields=['table_id', 'attnum'])]:
    one UPDATE whose CASE on the primary key takes, for each row, the values
    of the first object of that key. *)
Definition bulk_update_row (obj : ColumnObj) (cols : gmap Z ColumnRow)
    : gmap Z ColumnRow :=
  match column_id obj, column_table_id obj with
  | Some id, Some table_id =>
      alter (λ row, {| col_table_id := table_id;
                       col_attnum := column_attnum obj;
                       col_display_options := col_display_options row |})
            id cols
  | _, _ => cols
  end.

Definition Column_bulk_update_table_id_attnum (manager : Manager)
    (objs : list ColumnObj) : M World unit :=
  get_queryset manager MColumn;;
  if bool_decide (Exists (λ obj, column_id obj = None) objs)
  then raise ValueError
  else if bool_decide (Exists (λ obj, column_table_id obj = None) objs)
  then raise (IntegrityError "table_id")
  else
    modify (set_registry (set_columns (λ cols, foldr bulk_update_row cols objs)));;
    mapM (λ obj, modify (log (EvRowUpdate "Column"
                                (default 0 (column_id obj))))) objs;;
    mret tt.

(** [Model.save] as [Column] inherits it: the row of the primary key is
    updated through the base manager, or inserted when there is none.  A row
    without primary key is inserted under the next key of the sequence.  An
    [attnum] that the column does not hold is refused before the statement
    reaches a row. *)
Definition Column_save : M (ColumnObj * World) unit :=
  c ← get_self;
  if integer_field_fits (column_attnum c)
  then
    match column_table_id c with
    | None => raise (IntegrityError "table_id")
    | Some table_id =>
        let row := {| col_table_id := table_id; col_attnum := column_attnum c;
                      col_display_options := column_display_options c |} in
        cols ← lift (gets (columns ∘ registry));
        match column_id c with
        | Some id =>
            lift (modify (set_registry (set_columns (<[id := row]>))));;
            if bool_decide (is_Some (cols !! id))
            then lift (modify (log (EvRowUpdate "Column" id)))
            else
              lift (modify (sequence_sees "Column" id));;
              lift (modify (log (EvRowInsert "Column" id)))
        | None =>
            mark ← lift (gets (sequence_mark "Column"));
            let id := next_key "Column" mark in
            if bool_decide (is_Some (cols !! id))
            then raise (IntegrityError "Column_pkey")
            else
              lift (modify (set_registry (set_columns (<[id := row]>))));;
              lift (modify (sequence_reaches "Column" id));;
              lift (modify (log (EvRowInsert "Column" id)));;
              update_self (λ c, {| column_id := Some id;
                                   column_table_id := column_table_id c;
                                   column_attnum := column_attnum c;
                                   column_display_options :=
                                     column_display_options c |})
        end
    end
  else raise range_error.

(** ** [Constraint] *)

Record ConstraintObj := {
  constraint_id : option Z;
  constraint_oid : Z;
  constraint_table : TableObj;
  constraint_dict_sa_constraint : option (option CatalogConstraint);
}.

Definition constraint_with_table (t : TableObj) (c : ConstraintObj) :=
  {| constraint_id := constraint_id c; constraint_oid := constraint_oid c;
     constraint_table := t;
     constraint_dict_sa_constraint := constraint_dict_sa_constraint c |}.

Definition constraint_store_sa_constraint (v : option CatalogConstraint)
    (c : ConstraintObj) :=
  {| constraint_id := constraint_id c; constraint_oid := constraint_oid c;
     constraint_table := constraint_table c;
     constraint_dict_sa_constraint := Some v |}.

Definition constraint_with_id (id : option Z) (c : ConstraintObj) :=
  {| constraint_id := id; constraint_oid := constraint_oid c;
     constraint_table := constraint_table c;
     constraint_dict_sa_constraint := constraint_dict_sa_constraint c |}.

(** Runs a method of [self.table] on the table instance the constraint
    holds. *)
Definition on_table {A} (m : M (TableObj * World) A)
    : M (ConstraintObj * World) A := λ s,
  match m (constraint_table s.1, s.2) with
  | (r, (t', w')) => (r, (constraint_with_table t' s.1, w'))
  end.

(** [Constraint.<manager>.create(oid=constraint_oid, table=table)]: a table
    that was not saved is refused first, then an oid that the column does
    not hold; the row is inserted under the next key of the sequence.  The
    constraint that is answered holds the table instance it was given.
    Instances are values here: the constraint holds that instance as it is
    at the call, and what the caller's instance caches afterwards does not
    show in it. *)
Definition Constraint_create (manager : Manager) (oid : Z) (table : TableObj)
    : M World ConstraintObj :=
  get_queryset manager MConstraint;;
  match table_id table with
  | None => raise ValueError
  | Some table_pk =>
      if integer_field_fits oid
      then
        rows ← gets (constraints ∘ registry);
        mark ← gets (sequence_mark "Constraint");
        let id := next_key "Constraint" mark in
        if bool_decide (is_Some (rows !! id))
        then raise (IntegrityError "Constraint_pkey")
        else
          modify (set_registry (set_constraints
                    (<[id := {| con_oid := oid; con_table_id := table_pk |}]>)));;
          modify (sequence_reaches "Constraint" id);;
          modify (log (EvRowInsert "Constraint" id));;
          mret {| constraint_id := Some id; constraint_oid := oid;
                  constraint_table := table;
                  constraint_dict_sa_constraint := None |}
      else raise range_error
  end.

(** [Constraint.<manager>.filter(table=table)]: the listing of the
    constraints of a table. *)
Definition Constraint_filter_table (manager : Manager) (table_pk : Z)
    : M World (list (Z * ConstraintRow)) :=
  get_queryset manager MConstraint;;
  rows ← gets (constraints ∘ registry);
  mret (map_to_list (filter (λ kv, con_table_id kv.2 = table_pk) rows)).

Definition Constraint_sa_constraint
    : M (ConstraintObj * World) (option CatalogConstraint) :=
  cached_property constraint_dict_sa_constraint constraint_store_sa_constraint
    (c ← get_self;
     engine ← lift (Database_sa_engine
                      (schema_database (table_schema (constraint_table c))));
     table ← on_table Table_sa_table;
     lift (get_constraint_from_oid (constraint_oid c) engine table)).

(** [self._sa_constraint.name]; the attribute of [None] is an
    [AttributeError]. *)
Definition Constraint_name : M (ConstraintObj * World) string :=
  sa_constraint ← Constraint_sa_constraint;
  match sa_constraint with
  | Some sa_constraint => mret (conname sa_constraint)
  | None => raise AttributeError
  end.

(** [Model.delete] as [Constraint] inherits it: the row of the primary key
    is deleted through the base manager; no model refers to a constraint, so
    nothing cascades.  It asserts that the instance has a primary key. *)
Definition Constraint_delete : M (ConstraintObj * World) unit :=
  c ← get_self;
  match constraint_id c with
  | None => raise AssertionError
  | Some id =>
      lift (modify (set_registry (set_constraints (delete id))));;
      lift (modify (log (EvRowDelete "Constraint" id)));;
      update_self (constraint_with_id None)
  end.

Definition Constraint_drop : M (ConstraintObj * World) unit :=
  table ← on_table Table_sa_table;
  let table_name := sa_name table in
  table ← on_table Table_sa_table;
  let schema_name := sa_schema table in
  c ← get_self;
  engine ← lift (Schema_sa_engine (table_schema (constraint_table c)));
  name ← Constraint_name;
  lift (catalog_ddl engine (drop_constraint table_name schema_name name));;
  Constraint_delete.

(** ** [Table]: constraints, split, uniqueness *)

(** [not name] *)
Definition falsy (name : option string) : bool :=
  match name with
  | None => true
  | Some s => bool_decide (s = "")
  end.

Definition Table_add_constraint (constraint_obj : ConstraintSpec)
    : M (TableObj * World) ConstraintObj :=
  table ← Table_sa_table;
  t ← get_self;
  engine ← lift (Schema_sa_engine (table_schema t));
  lift (catalog_ddl engine
          (create_constraint (sa_schema table) constraint_obj));;
  try_except
    (delattr table_dict_sa_table table_store_sa_table)
    is_AttributeError
    (mret tt);;
  engine ← lift (Database_sa_engine (schema_database (table_schema t)));
  name ←
    (if falsy (spec_name constraint_obj)
     then
       match spec_columns_attnum constraint_obj with
       | [] => raise IndexError
       | attnum :: _ =>
           lift (catalog_query engine
                   (get_constraint_name (spec_type constraint_obj)
                      (table_oid t) attnum))
       end
     else mret (default "" (spec_name constraint_obj)));
  constraint_oid ←
    lift (get_constraint_oid_by_name_and_table_oid name (table_oid t) engine);
  t ← get_self;
  lift (Constraint_create current_objects constraint_oid t).

Definition Table_update_column_reference (columns_name : list string)
    (column_name_id_map : gmap string Z) : M (TableObj * World) unit :=
  t ← get_self;
  engine ← Table_sa_engine;
  columns_name_attnum_map ←
    lift (get_columns_attnum_from_names (table_oid t) columns_name engine);
  column_objs ←
    mapM (λ item : string * Z,
            let '(column_name, column_attnum) := item in
            match column_name_id_map !! column_name with
            | None => raise KeyError
            | Some id =>
                column ← lift (Column_get current_objects id);
                mret {| column_id := column_id column;
                        column_table_id := table_id t;
                        column_attnum := column_attnum;
                        column_display_options :=
                          column_display_options column |}
            end)
         columns_name_attnum_map;
  lift (Column_bulk_update_table_id_attnum current_objects column_objs).

(** The rows that [filter(oid=oid, schema__database=database)] selects. *)
Definition oid_in_database (reg : Registry) (oid database_pk : Z)
    (row : TableRow) : Prop :=
  tbl_oid row = oid ∧
  sch_database_id <$> schemas reg !! tbl_schema_id row = Some database_pk.

Global Instance oid_in_database_dec reg oid database_pk row :
  Decision (oid_in_database reg oid database_pk row).
Proof. unfold oid_in_database. apply _. Defined.

(** The rows that break [unique_table] for a row of the given primary key
    (if any), oid and schema. *)
Definition same_oid_and_schema (pk : option Z) (oid schema_pk : Z)
    (id : Z) (row : TableRow) : Prop :=
  Some id ≠ pk ∧ tbl_oid row = oid ∧ tbl_schema_id row = schema_pk.

Global Instance same_oid_and_schema_dec pk oid schema_pk id row :
  Decision (same_oid_and_schema pk oid schema_pk id row).
Proof. unfold same_oid_and_schema. apply _. Defined.

(** [Model.validate_unique] as [Table] inherits it: the unique constraint
    of [Meta] and the primary key.  Each check excludes the row itself when
    the instance is not being added, and the check of the key is skipped for
    an instance that has none.  The checks that fail are raised together. *)
Definition Model_validate_unique_Table : M (TableObj * World) unit :=
  t ← get_self;
  rows ← lift (gets (tables ∘ registry));
  let pk := if table_state_adding t then None else table_id t in
  let id_taken :=
    match table_id t with
    | Some id => table_state_adding t && bool_decide (is_Some (rows !! id))
    | None => false
    end in
  if decide (map_Exists
               (same_oid_and_schema pk (table_oid t)
                  (schema_id (table_schema t))) rows)
  then
    raise (ValidationError
             (if id_taken
              then "Table with this Oid and Schema already exists. Table with this ID already exists."
              else "Table with this Oid and Schema already exists."))
  else if id_taken
  then raise (ValidationError "Table with this ID already exists.")
  else mret tt.

Definition Table_validate_unique : M (TableObj * World) unit :=
  t ← get_self;
  lift (get_queryset current_objects MTable);;
  reg ← lift (gets registry);
  if decide (map_Exists
               (λ _, oid_in_database reg (table_oid t)
                       (database_id (schema_database (table_schema t))))
               (tables reg))
  then raise (ValidationError "Table OID is not unique")
  else Model_validate_unique_Table.

(** [Model.save] as [Table] inherits it.  A set primary key whose row exists
    is updated, otherwise the row is inserted: under the set key, or under
    the next key of the sequence for an instance that has none.  An oid that
    the column does not hold is refused before the statement reaches a row;
    the index [unique_table] of the Django table rejects a second row of the
    same (oid, schema). *)
Definition Model_save_Table : M (TableObj * World) unit :=
  t ← get_self;
  rows ← lift (gets (tables ∘ registry));
  let row := {| tbl_oid := table_oid t;
                tbl_schema_id := schema_id (table_schema t);
                tbl_import_verified := table_import_verified t |} in
  if integer_field_fits (table_oid t)
  then
    mark ← lift (gets (sequence_mark "Table"));
    let id := default (next_key "Table" mark) (table_id t) in
    if bool_decide (table_id t = None ∧ is_Some (rows !! id))
    then raise (IntegrityError "Table_pkey")
    else if decide (map_Exists
                      (same_oid_and_schema (Some id) (table_oid t)
                         (schema_id (table_schema t))) rows)
    then raise (IntegrityError "unique_table")
    else
      lift (modify (set_registry (set_tables (<[id := row]>))));;
      if bool_decide (is_Some (rows !! id))
      then
        lift (modify (log (EvRowUpdate "Table" id)));;
        update_self (table_set_saved id)
      else
        lift (modify (match table_id t with
                      | Some _ => sequence_sees "Table" id
                      | None => sequence_reaches "Table" id
                      end));;
        lift (modify (log (EvRowInsert "Table" id)));;
        update_self (table_set_saved id)
  else raise range_error.

Definition Table_save : M (TableObj * World) unit :=
  t ← get_self;
  (if table_state_adding t then Table_validate_unique else mret tt);;
  Model_save_Table.

End Models.

(** ** Dropping a table or a schema

    [db.tables.operations.drop.drop_table] and
    [db.schemas.operations.drop.drop_schema] are not among the sources: they
    are taken as parameters, statements on the catalog that are given the
    names and the [cascade] flag. *)
Section Drop.
Context `{db : DbLayer}.
Context `{dj : DjangoDb}.
Context {DropResult : Type}.
Variable drop_table : string → string → bool → M Catalog DropResult.
Variable drop_schema : string → bool → M Catalog DropResult.

Definition table_with_schema (s : SchemaObj) (t : TableObj) : TableObj :=
  {| table_id := table_id t; table_oid := table_oid t;
     table_schema := s;
     table_import_verified := table_import_verified t;
     table_state_adding := table_state_adding t;
     table_dict_sa_engine := table_dict_sa_engine t;
     table_dict_sa_table := table_dict_sa_table t;
     table_dict_enriched_column_sa_table :=
       table_dict_enriched_column_sa_table t;
     table_dict_name := table_dict_name t;
     table_dict_sa_columns := table_dict_sa_columns t |}.

(** Runs a method of [self.schema] on the schema instance the table
    holds. *)
Definition on_schema {A} (m : M (SchemaObj * World) A)
    : M (TableObj * World) A := λ s,
  match m (table_schema s.1, s.2) with
  | (r, (schema', w')) => (r, (table_with_schema schema' s.1, w'))
  end.

Definition Schema_delete_sa_schema : M (SchemaObj * World) DropResult :=
  name ← Schema_name;
  s ← get_self;
  engine ← lift (Schema_sa_engine s);
  lift (catalog_ddl engine (drop_schema name true)).

Definition Table_delete_sa_table : M (TableObj * World) DropResult :=
  name ← Table_name;
  schema_name ← on_schema Schema_name;
  t ← get_self;
  engine ← lift (Schema_sa_engine (table_schema t));
  lift (catalog_ddl engine (drop_table name schema_name true)).

End Drop.


(** ** Threads reading [Database._sa_engine]

    The property takes no lock, so a thread can be preempted between any two
    of its statements.  A thread is at one of the statements of the body, or
    has returned; a schedule names the thread that runs the next statement. *)
Inductive pc :=
  | AtTest                       (* if self.name not in _engines: *)
  | AtCreate                     (* engine = create_mathesar_engine(self.name) *)
  | AtStore (engine : Engine)    (* _engines[self.name] = engine *)
  | AtFetch                      (* engine = _engines[self.name] *)
  | AtReady (engine : Engine)    (* ensure_cached_engine_ready(engine) *)
  | Returned (r : outcome Engine).

Definition thread_step (self : DatabaseObj) (at_ : pc) : World → pc * World :=
  λ w,
  match at_ with
  | AtTest =>
      (match _engines w !! database_name self with
       | None => AtCreate
       | Some _ => AtFetch
       end, w)
  | AtCreate =>
      match create_mathesar_engine (database_name self) w with
      | (Return engine, w') => (AtStore engine, w')
      | (Raise e, w') => (Returned (Raise e), w')
      end
  | AtStore engine =>
      (Returned (Return engine),
       set_engines (<[database_name self := engine]>) w)
  | AtFetch =>
      (match _engines w !! database_name self with
       | Some engine => AtReady engine
       | None => Returned (Raise KeyError)
       end, w)
  | AtReady engine =>
      match ensure_cached_engine_ready engine w with
      | (Return _, w') => (Returned (Return engine), w')
      | (Raise e, w') => (Returned (Raise e), w')
      end
  | Returned r => (Returned r, w)
  end.

(** The threads' program counters and the shared world. *)
Definition Config : Type := list pc * World.

Definition sched_step (self : DatabaseObj) (i : nat) (c : Config) : Config :=
  match c.1 !! i with
  | Some at_ =>
      match thread_step self at_ c.2 with
      | (at', w') => (<[i := at']> c.1, w')
      end
  | None => c
  end.

Definition run_schedule (self : DatabaseObj) (schedule : list nat)
    (c : Config) : Config :=
  foldl (λ c i, sched_step self i c) c schedule.

(** [n] threads that all enter the property. *)
Definition first_accesses (n : nat) (w : World) : Config :=
  (replicate n AtTest, w).

Definition all_returned (c : Config) : Prop :=
  Forall (λ at_, ∃ r, at_ = Returned r) c.1.

(** Exactly one construction since [w], and one handle for every thread. *)
Definition single_flight (w : World) (c : Config) : Prop :=
  engines_created c.2 = S (engines_created w) ∧
  ∃ engine, Forall (λ at_, at_ = Returned (Return engine)) c.1.

(** ** A DDL layer to run the models on

    Modelled from the spec: the DDL of the [db] package is not among the
    sources.  This layer does what the specification says of each statement
    on the catalog above; it serves to run the models on concrete inputs,
    and no general property depends on it. *)
Module Demo.

Definition next_attnum (t : CatalogTable) : Z :=
  1 + foldr Z.max 0 (fst <$> attributes t).

Definition next_oid (cat : Catalog) : Z :=
  1 + foldr Z.max 0
        ((fst <$> map_to_list (pg_class cat)) ++
         (conoid <$> concat ((relconstraints ∘ snd) <$>
                               map_to_list (pg_class cat)))).

Definition with_attributes (f : list (Z * string) → list (Z * string))
    (t : CatalogTable) : CatalogTable :=
  {| relname := relname t; relnamespace := relnamespace t;
     attributes := f (attributes t); relconstraints := relconstraints t |}.

Definition with_constraints
    (f : list CatalogConstraint → list CatalogConstraint)
    (t : CatalogTable) : CatalogTable :=
  {| relname := relname t; relnamespace := relnamespace t;
     attributes := attributes t; relconstraints := f (relconstraints t) |}.

Definition on_class (oid : Z) (f : CatalogTable → CatalogTable)
    : M Catalog unit := λ cat,
  match pg_class cat !! oid with
  | Some t =>
      (Return tt, {| pg_namespace := pg_namespace cat;
                     pg_class := <[oid := f t]> (pg_class cat) |})
  | None => (Raise IndexError, cat)
  end.

Definition constraint_suffix (ty : ConstraintType) : string :=
  match ty with
  | PRIMARY_KEY => "_pkey"
  | FOREIGN_KEY => "_fkey"
  | UNIQUE => "_key"
  | CHECK => "_check"
  end.

Definition constraint_name (ty : ConstraintType) (table_oid attnum : Z)
    (cat : Catalog) : outcome string :=
  match pg_class cat !! table_oid with
  | Some t =>
      match list_find (λ a : Z * string, a.1 = attnum) (attributes t) with
      | Some (_, (_, attname)) =>
          Return (relname t +:+ "_" +:+ attname +:+ constraint_suffix ty)
      | None => Raise IndexError
      end
  | None => Raise IndexError
  end.

Definition add_constraint (schema : option string) (spec : ConstraintSpec)
    : M Catalog unit := λ cat,
  let named (name : string) :=
    on_class (spec_table_oid spec)
      (with_constraints (λ cs, cs ++ [{| conoid := next_oid cat;
                                         conname := name;
                                         contype := spec_type spec;
                                         conkey := spec_columns_attnum spec |}]))
      cat in
  match spec_name spec with
  | Some name => named name
  | None =>
      match constraint_name (spec_type spec) (spec_table_oid spec)
              (default 0 (head (spec_columns_attnum spec))) cat with
      | Return name => named name
      | Raise e => (Raise e, cat)
      end
  end.

Definition remove_constraint (table_name : string) (schema : option string)
    (name : string) : M Catalog unit := λ cat,
  (Return tt,
   {| pg_namespace := pg_namespace cat;
      pg_class :=
        (λ t, if decide (relname t = table_name)
              then with_constraints (filter (λ c, conname c ≠ name)) t
              else t) <$> pg_class cat |}).

(** A backend whose integer columns hold 64 bits and whose sequences count
    up by one. *)
Global Instance django : DjangoDb := {|
  integer_field_fits z := bool_decide (- 2 ^ 63 ≤ z < 2 ^ 63);
  range_error := OverflowError;
  next_key _ mark := mark + 1;
  next_key_above _ mark := Z.lt_succ_diag_r mark;
  mark_after_named_key _ id mark := Z.max id mark;
|}.

Global Instance layer : DbLayer := {|
  ColumnData := string;
  ColumnResult := unit;
  create_column oid name :=
    on_class oid (λ t, with_attributes (λ l, l ++ [(next_attnum t, name)]) t);
  alter_column oid attnum name :=
    on_class oid
      (with_attributes
         (fmap (λ a : Z * string, if decide (a.1 = attnum) then (a.1, name) else a)));
  drop_column oid attnum :=
    on_class oid (with_attributes (filter (λ a : Z * string, a.1 ≠ attnum)));
  create_constraint := add_constraint;
  drop_constraint := remove_constraint;
  get_constraint_name := constraint_name;
  reflect_registry _ reg := Return reg;
|}.

(** A database "mathesar" with the schema "public" and the table "patents",
    and the identity records that reflect them. *)
Definition d0 : DatabaseObj := {| database_id := 1; database_name := "mathesar" |}.

Definition s0 : SchemaObj :=
  {| schema_id := 1; schema_oid := 2200; schema_database := d0;
     schema_dict_name := None |}.

Definition patents_pkey : CatalogConstraint :=
  {| conoid := 500; conname := "patents_pkey"; contype := PRIMARY_KEY;
     conkey := [1] |}.

Definition cat0 : Catalog :=
  {| pg_namespace := {[ 2200 := "public"%string ]};
     pg_class :=
       {[ 16384 := {| relname := "patents"; relnamespace := 2200;
                      attributes := [(1, "id"); (2, "title")]%string;
                      relconstraints := [patents_pkey] |} ]} |}.

Definition reg0 : Registry :=
  {| databases := {[ 1 := {| db_name := "mathesar"; db_deleted := false |} ]};
     schemas := {[ 1 := {| sch_oid := 2200; sch_database_id := 1 |} ]};
     tables := {[ 1 := {| tbl_oid := 16384; tbl_schema_id := 1;
                          tbl_import_verified := None |} ]};
     columns :=
       {[ 10 := {| col_table_id := 1; col_attnum := 1;
                   col_display_options := None |};
          11 := {| col_table_id := 1; col_attnum := 2;
                   col_display_options := None |} ]};
     constraints := {[ 7 := {| con_oid := 500; con_table_id := 1 |} ]} |}.

Definition w0 : World :=
  {| clock := 1000; cache := ∅; _engines := ∅; engines_created := 0;
     catalogs := {[ "mathesar"%string := cat0 ]}; registry := reg0;
     sequences := {[ "Table"%string := 1; "Column"%string := 11;
                     "Constraint"%string := 7 ]};
     trace := [] |}.

Definition table_obj (id : option Z) (oid : Z) (adding : bool) : TableObj :=
  {| table_id := id; table_oid := oid; table_schema := s0;
     table_import_verified := None; table_state_adding := adding;
     table_dict_sa_engine := None; table_dict_sa_table := None;
     table_dict_enriched_column_sa_table := None; table_dict_name := None;
     table_dict_sa_columns := None |}.

Definition t0 : TableObj := table_obj (Some 1) 16384 false.

Definition c0 : ConstraintObj :=
  {| constraint_id := Some 7; constraint_oid := 500; constraint_table := t0;
     constraint_dict_sa_constraint := None |}.

Definition unique_title : ConstraintSpec :=
  {| spec_name := None; spec_type := UNIQUE; spec_columns_attnum := [2];
     spec_table_oid := 16384 |}.

(** The table after a split: columns a, b, c (attnums 1, 2, 3) of the table
    16384, of which b went to the new table 16400 as its second column, and
    a and c stayed, followed by the reference to the new table. *)
Definition cat_split : Catalog :=
  {| pg_namespace := {[ 2200 := "public"%string ]};
     pg_class :=
       {[ 16384 := {| relname := "remainder"; relnamespace := 2200;
                      attributes :=
                        [(1, "a"); (3, "c"); (4, "extracted_id")]%string;
                      relconstraints := [] |};
          16400 := {| relname := "extracted"; relnamespace := 2200;
                      attributes := [(1, "id"); (2, "b")]%string;
                      relconstraints := [] |} ]} |}.

Definition reg_split : Registry :=
  {| databases := {[ 1 := {| db_name := "mathesar"; db_deleted := false |} ]};
     schemas := {[ 1 := {| sch_oid := 2200; sch_database_id := 1 |} ]};
     tables :=
       {[ 1 := {| tbl_oid := 16384; tbl_schema_id := 1;
                  tbl_import_verified := None |};
          2 := {| tbl_oid := 16400; tbl_schema_id := 1;
                  tbl_import_verified := None |} ]};
     columns :=
       {[ 10 := {| col_table_id := 1; col_attnum := 1;
                   col_display_options := None |};
          11 := {| col_table_id := 1; col_attnum := 2;
                   col_display_options := Some "{}"%string |};
          12 := {| col_table_id := 1; col_attnum := 3;
                   col_display_options := None |} ]};
     constraints := ∅ |}.

Definition w_split : World :=
  {| clock := 1000; cache := ∅; _engines := ∅; engines_created := 0;
     catalogs := {[ "mathesar"%string := cat_split ]}; registry := reg_split;
     sequences := {[ "Table"%string := 2; "Column"%string := 12 ]};
     trace := [] |}.

Definition column_name_id_map : gmap string Z :=
  {[ "a"%string := 10; "b"%string := 11; "c"%string := 12 ]}.

Definition remainder : TableObj := table_obj (Some 1) 16384 false.
Definition extracted : TableObj := table_obj (Some 2) 16400 false.

End Demo.

(** ** Further inputs to run the models on

    Modelled from the spec: the statements that drop a table or a schema are
    not among the sources.  These do what their names say on the catalog
    above; they serve to run the models on concrete inputs, and no general
    property depends on them. *)
Module Cases.

Definition drop_table (name schema : string) (cascade : bool)
    : M Catalog unit := λ cat,
  (Return tt,
   {| pg_namespace := pg_namespace cat;
      pg_class :=
        filter (λ kv : Z * CatalogTable,
                  ¬ (relname kv.2 = name ∧
                     pg_namespace cat !! relnamespace kv.2 = Some schema))
               (pg_class cat) |}).

Definition drop_schema (name : string) (cascade : bool)
    : M Catalog unit := λ cat,
  (Return tt,
   {| pg_namespace := filter (λ kv : Z * string, kv.2 ≠ name)
                        (pg_namespace cat);
      pg_class :=
        filter (λ kv : Z * CatalogTable,
                  pg_namespace cat !! relnamespace kv.2 ≠ Some name)
               (pg_class cat) |}).

(** A database whose schema "public" holds a table that is itself named
    "MISSING", beside a schema that is named "MISSING". *)
Definition cat_missing : Catalog :=
  {| pg_namespace := {[ 2200 := "public"%string; 2300 := "MISSING"%string ]};
     pg_class :=
       {[ 17000 := {| relname := "MISSING"; relnamespace := 2200;
                      attributes := [(1, "id")]%string;
                      relconstraints := [] |};
          17001 := {| relname := "notes"; relnamespace := 2300;
                      attributes := [(1, "id")]%string;
                      relconstraints := [] |} ]} |}.

Definition w_missing : World :=
  {| clock := 1000; cache := ∅; _engines := ∅; engines_created := 0;
     catalogs := {[ "mathesar"%string := cat_missing ]};
     registry := Demo.reg0; sequences := sequences Demo.w0; trace := [] |}.

(** The schema "public" after it was renamed. *)
Definition cat_renamed : Catalog :=
  {| pg_namespace := {[ 2200 := "archive"%string ]};
     pg_class := pg_class Demo.cat0 |}.

(** A world in which no database can be reached. *)
Definition w_unreachable : World :=
  {| clock := 1000; cache := ∅; _engines := ∅; engines_created := 0;
     catalogs := ∅; registry := Demo.reg0; sequences := sequences Demo.w0;
     trace := [] |}.

(** A schema and a table whose oids the catalog does not have. *)
Definition s_gone : SchemaObj :=
  {| schema_id := 2; schema_oid := 9999; schema_database := Demo.d0;
     schema_dict_name := None |}.

Definition t_gone : TableObj := Demo.table_obj (Some 3) 9999 false.

End Cases.


(** ** Vocabulary of the properties *)

(** Every cached engine connects to the database it is cached under. *)
Definition engines_wf (w : World) : Prop :=
  map_Forall (λ name engine, engine_database engine = name) (_engines w).

(** The clock, the cache, the catalogs, the identity records and the
    sequences of their tables agree. *)
Definition same_data (w w' : World) : Prop :=
  clock w' = clock w ∧ cache w' = cache w ∧ catalogs w' = catalogs w ∧
  registry w' = registry w ∧ sequences w' = sequences w.

(** The events of reading: they change neither a catalog nor a row, and
    are not a reconciliation. *)
Definition read_event (e : event) : Prop :=
  match e with
  | EvEngineCreate _ | EvEngineReady _ | EvCatalogRead _ | EvCacheGet _ => True
  | _ => False
  end.

(** From [w] to [w'] only reads happened. *)
Definition quiet (w w' : World) : Prop :=
  same_data w w' ∧ ∃ evs, trace w' = trace w ++ evs ∧ Forall read_event evs.

(** What [cache.get] finds at the present time. *)
Definition cache_lookup (key : string) (w : World) : option string :=
  match cache w !! key with
  | Some (v, expiry) => if decide (clock w < expiry) then Some v else None
  | None => None
  end.

(** The number of reconciliations so far. *)
Definition reflections (w : World) : nat :=
  length (filter (λ e, e = EvReflect) (trace w)).
Global Arguments reflections : simpl never.

(** The reflected table an instance works with: the one it holds, or the
    one the catalog gives, or the empty table "MISSING". *)
Definition current_sa_table (t : TableObj) (cat : Catalog) : SATable :=
  match table_dict_sa_table t with
  | Some table => table
  | None =>
      match reflect_table (table_oid t) cat with
      | Return table => table
      | Raise _ => get_empty_table "MISSING"
      end
  end.

Definition table_database (t : TableObj) : string :=
  database_name (schema_database (table_schema t)).

(** The reflected constraint an instance works with: the one it holds, or
    the one the catalog gives for its oid. *)
Definition current_sa_constraint (c : ConstraintObj) (cat : Catalog)
    : outcome (option CatalogConstraint) :=
  match constraint_dict_sa_constraint c with
  | Some sa_constraint => Return sa_constraint
  | None =>
      constraint_from_oid (constraint_oid c)
        (current_sa_table (constraint_table c) cat) cat
  end.

(** The sequence of a table is not behind the keys of its rows. *)
Definition sequence_ahead {A} (table : string) (rows : gmap Z A) (w : World)
    : Prop :=
  ∀ id, is_Some (rows !! id) → id ≤ sequence_mark table w.

(** No two Table rows of the same (oid, schema): the constraint
    [unique_table]. *)
Definition unique_table (r : Registry) : Prop :=
  ∀ i j ri rj,
    tables r !! i = Some ri → tables r !! j = Some rj →
    tbl_oid ri = tbl_oid rj → tbl_schema_id ri = tbl_schema_id rj → i = j.

(** The columns, among those named, that the catalog has in the table of
    the oid, as (attnum, name). *)
Definition owned_columns (oid : Z) (names : list string) (cat : Catalog)
    : list (Z * string) :=
  match pg_class cat !! oid with
  | Some t => filter (λ a : Z * string, a.2 ∈ names) (attributes t)
  | None => []
  end.

(** A Column row moved to the table [pk] at the attribute number [attnum]. *)
Definition remapped (pk attnum : Z) (row : ColumnRow) : ColumnRow :=
  {| col_table_id := pk; col_attnum := attnum;
     col_display_options := col_display_options row |}.

Section Vocabulary.
Context `{db : DbLayer}.
Context `{dj : DjangoDb}.

(** The name [add_constraint] looks the new constraint up by: the explicit
    one, or the one synthesized from the kind, the table and the first
    constrained attribute number. *)
Definition constraint_name_of (spec : ConstraintSpec) (table_oid : Z)
    (cat : Catalog) : outcome string :=
  match spec_name spec with
  | Some name =>
      if bool_decide (name = ""%string)
      then match spec_columns_attnum spec with
           | [] => Raise IndexError
           | attnum :: _ =>
               get_constraint_name (spec_type spec) table_oid attnum cat
           end
      else Return name
  | None =>
      match spec_columns_attnum spec with
      | [] => Raise IndexError
      | attnum :: _ =>
          get_constraint_name (spec_type spec) table_oid attnum cat
      end
  end.

End Vocabulary.

(** ** Vocabulary of the further properties *)

(** Accesses to the engines of the given databases, one after the other. *)
Definition engine_accesses (selves : list DatabaseObj)
    : M World (list Engine) :=
  mapM Database_sa_engine selves.

(** The names, among those of the given databases, that the engine cache
    does not have. *)
Definition uncached_names (selves : list DatabaseObj) (w : World)
    : gset string :=
  list_to_set (database_name <$> selves) ∖ dom (_engines w).

(** A thread that has not yet passed [create_mathesar_engine]. *)
Definition before_create (at_ : pc) : nat :=
  match at_ with
  | AtTest | AtCreate => 1
  | _ => 0
  end.

(** The threads that have not yet passed [create_mathesar_engine]. *)
Fixpoint pending (pcs : list pc) : nat :=
  match pcs with
  | [] => 0
  | at_ :: pcs => before_create at_ + pending pcs
  end.

(** The statements a thread has yet to run, at most. *)
Definition steps_left (at_ : pc) : nat :=
  match at_ with
  | AtTest => 3
  | AtCreate | AtFetch => 2
  | AtStore _ | AtReady _ => 1
  | Returned _ => 0
  end.

(** A thread that has found no handle and has yet to build one. *)
Definition about_to_create (at_ : pc) : nat :=
  match at_ with
  | AtCreate => 1
  | _ => 0
  end.

(** The threads that have found no handle and have yet to build one. *)
Fixpoint creating (pcs : list pc) : nat :=
  match pcs with
  | [] => 0
  | at_ :: pcs => about_to_create at_ + creating pcs
  end.

(** The threads of the schedule that are among the first [n]. *)
Definition scheduled_among (n : nat) (schedule : list nat) : list nat :=
  filter (λ j, (j < n)%nat) schedule.

(** How often the schedule runs the thread [i]. *)
Definition times_scheduled (i : nat) (schedule : list nat) : nat :=
  length (filter (λ j, j = i) schedule).

(** A thread is where the body can be, given the shared dict: it fetches
    only a name the dict has, and has not raised. *)
Definition pc_safe (self : DatabaseObj) (w : World) (at_ : pc) : Prop :=
  match at_ with
  | AtFetch => is_Some (_engines w !! database_name self)
  | Returned (Raise _) => False
  | _ => True
  end.

(** A thread is on the path that reuses the cached handle [engine]. *)
Definition pc_reuses (engine : Engine) (at_ : pc) : Prop :=
  match at_ with
  | AtTest | AtFetch => True
  | AtReady e | Returned (Return e) => e = engine
  | _ => False
  end.

(** The string has no underscore. *)
Fixpoint underscore_free (s : string) : Prop :=
  match s with
  | EmptyString => True
  | String a s => a ≠ "_"%char ∧ underscore_free s
  end.

(** The cache but for the entry of [key]. *)
Definition cache_but (key : string) (w : World) : gmap string (string * Z) :=
  delete key (cache w).

(** No two Table rows of one oid in the schemas of one database. *)
Definition unique_oid_per_database (r : Registry) : Prop :=
  ∀ i j ri rj d,
    tables r !! i = Some ri → tables r !! j = Some rj →
    tbl_oid ri = tbl_oid rj →
    sch_database_id <$> schemas r !! tbl_schema_id ri = Some d →
    sch_database_id <$> schemas r !! tbl_schema_id rj = Some d →
    i = j.

(** The row a Table instance is saved as. *)
Definition row_of_table (t : TableObj) : TableRow :=
  {| tbl_oid := table_oid t; tbl_schema_id := schema_id (table_schema t);
     tbl_import_verified := table_import_verified t |}.

(** The instance's schema belongs, in the registry, to the database the
    instance says. *)
Definition schema_as_registered (t : TableObj) (r : Registry) : Prop :=
  sch_database_id <$> schemas r !! schema_id (table_schema t)
    = Some (database_id (schema_database (table_schema t))).

(** ** Frames: what a computation leaves as it was *)

(** Every run of [m] takes a state to one that [R] relates it to, whatever
    it answers. *)
Definition stays {S A} (R : relation S) (m : M S A) : Prop :=
  ∀ s, R s (m s).2.

(** The part [f] of the state is as it was. *)
Definition kept {S X} (f : S → X) : relation S := λ s s', f s' = f s.

(** [m] leaves the part [f] of the state as it was, whatever it answers. *)
Definition keeps {S A X} (f : S → X) (m : M S A) : Prop := stays (kept f) m.

(** [m] ends in [P x r s'], where [x] is the part [f] of the state it
    started in, [r] its outcome and [s'] the state it ends in. *)
Definition ensures {S A X} (f : S → X) (P : X → outcome A → S → Prop)
    (m : M S A) : Prop :=
  ∀ s, P (f s) (m s).1 (m s).2.

(** The state of a method: a relation on its world, a part of its world, a
    part of its instance. *)
Definition in_world {Self} (R : relation World) : relation (Self * World) :=
  λ s s', R s.2 s'.2.
Definition of_world {Self X} (g : World → X) : Self * World → X :=
  λ s, g s.2.
Definition of_self {Self X} (h : Self → X) : Self * World → X :=
  λ s, h s.1.

(** A part of the world that the trace, the engine cache and the count of
    the engines built are no part of. *)
Class Frame {X} (g : World → X) := {
  frame_log e w : g (log e w) = g w;
  frame_engines u w : g (set_engines u w) = g w;
  frame_engines_created n w : g (set_engines_created n w) = g w;
}.

Global Instance registry_frame : Frame registry.
Proof. by split. Qed.
Global Instance catalogs_frame : Frame catalogs.
Proof. by split. Qed.
Global Instance cache_frame : Frame cache.
Proof. by split. Qed.
Global Instance cache_but_frame key : Frame (cache_but key).
Proof. by split. Qed.

(** What [Table.add_constraint] does to the identity records [reg]: nothing
    when it raises, and one new Constraint row, of the constraint it
    answers, when it returns. *)
Definition one_row_or_none {Self} (reg : Registry) (r : outcome ConstraintObj)
    (s' : Self * World) : Prop :=
  match r with
  | Raise _ => registry s'.2 = reg
  | Return c =>
      ∃ id pk,
        constraint_id c = Some id ∧ constraints reg !! id = None ∧
        registry s'.2 =
          set_constraints
            (<[id := {| con_oid := constraint_oid c; con_table_id := pk |}]>)
            reg
  end.

(** What [Constraint.drop] does to the identity records [x.2] for a
    constraint of the primary key [x.1]: nothing when it raises, and the row
    of the constraint deleted when it returns. *)
Definition row_deleted_or_kept {Self} (x : option Z * Registry)
    (r : outcome unit) (s' : Self * World) : Prop :=
  match r with
  | Raise _ => registry s'.2 = x.2
  | Return _ =>
      ∃ id, x.1 = Some id ∧ registry s'.2 = set_constraints (delete id) x.2
  end.

(** From [reg] to [reg'] Column rows were only moved: the same Column rows
    exist, each with its display options, and every other identity record
    is as it was. *)
Definition columns_moved_only (reg reg' : Registry) : Prop :=
  databases reg' = databases reg ∧ schemas reg' = schemas reg ∧
  tables reg' = tables reg ∧ constraints reg' = constraints reg ∧
  ∀ id,
    col_display_options <$> columns reg' !! id
      = col_display_options <$> columns reg !! id.

(** What [Table.update_column_reference] does to the identity records
    [reg]: nothing when it raises, and a move of Column rows when it
    returns. *)
Definition moved_or_kept {Self} (reg : Registry) (r : outcome unit)
    (s' : Self * World) : Prop :=
  match r with
  | Raise _ => registry s'.2 = reg
  | Return _ => columns_moved_only reg (registry s'.2)
  end.

(** * Properties *)

Ltac run :=
  repeat (cbn [fst snd] in * ||
          unfold mbind, M_bind, mret, M_ret, lift, get_self, update_self,
            gets, modify, raise, try_except in * ).

Lemma quiet_refl w : quiet w w.
Proof.
  split; [done|]. exists []. by rewrite app_nil_r.
Qed.

Lemma quiet_trans w1 w2 w3 : quiet w1 w2 → quiet w2 w3 → quiet w1 w3.
Proof.
  intros [(?&?&?&?&?) (evs1&Ht1&?)] [(?&?&?&?&?) (evs2&Ht2&?)].
  split; [unfold same_data; split_and!; congruence|].
  exists (evs1 ++ evs2). split.
  - by rewrite Ht2, Ht1, app_assoc.
  - by apply Forall_app.
Qed.

Lemma quiet_log e w : read_event e → quiet w (log e w).
Proof.
  intros He. split; [done|]. exists [e]. split; [done|]. by constructor.
Qed.

Lemma quiet_reflections w w' : quiet w w' → reflections w' = reflections w.
Proof.
  intros [_ (evs & Ht & Hevs)]. unfold reflections. rewrite Ht, filter_app.
  rewrite length_app.
  assert (filter (λ e, e = EvReflect) evs = []) as ->; [|cbn; lia].
  clear Ht. induction Hevs as [|e evs He _ IH]; [done|].
  rewrite filter_cons. case_decide; [subst; destruct He | done].
Qed.

Lemma Database_sa_engine_run self w :
  engines_wf w →
  ∃ engine w',
    Database_sa_engine self w = (Return engine, w') ∧
    engine_database engine = database_name self ∧
    _engines w' !! database_name self = Some engine ∧
    engines_wf w' ∧ quiet w w'.
Proof.
  intros Hwf. unfold Database_sa_engine. run.
  destruct (_engines w !! database_name self) as [engine|] eqn:He.
  - exists engine, (log (EvEngineReady engine) w).
    unfold ensure_cached_engine_ready. run.
    split_and!; try done.
    + by apply Hwf in He.
    + by apply quiet_log.
  - eexists _, _.
    unfold create_mathesar_engine. run. split_and!; try done.
    + cbn. by rewrite lookup_insert_eq.
    + cbn. unfold engines_wf. cbn. by apply map_Forall_insert_2.
    + split; [done|]. exists [EvEngineCreate (database_name self)].
      split; [done|]. by constructor.
Qed.

Lemma cache_get_run key w :
  cache_get key w = (Return (cache_lookup key w), log (EvCacheGet key) w).
Proof. reflexivity. Qed.

Lemma Schema_name_func_hit self w v :
  cache_lookup (schema_cache_key self) w = Some v →
  Schema_name_func self w =
    (Return v, log (EvCacheGet (schema_cache_key self)) w).
Proof.
  intros Hhit. unfold Schema_name_func. run.
  rewrite cache_get_run, Hhit. reflexivity.
Qed.

Lemma Schema_name_func_miss self w :
  engines_wf w →
  cache_lookup (schema_cache_key self) w = None →
  ∃ w1,
    engines_wf w1 ∧ quiet w w1 ∧
    Schema_name_func self w =
      match catalogs w !! database_name (schema_database self) with
      | Some cat =>
          let w2 :=
            log (EvCatalogRead (database_name (schema_database self))) w1 in
          match pg_namespace cat !! schema_oid self with
          | Some name =>
              (Return name,
               log (EvCacheSet (schema_cache_key self))
                 (set_cache (<[schema_cache_key self :=
                                 (name, clock w + NAME_CACHE_INTERVAL)]>) w2))
          | None => (Return "MISSING"%string, w2)
          end
      | None => (Raise OperationalError, w1)
      end.
Proof.
  intros Hwf Hmiss.
  destruct (Database_sa_engine_run (schema_database self)
              (log (EvCacheGet (schema_cache_key self)) w))
    as (engine & w1 & Hrun & Hdb & _ & Hwf1 & Hq); [done|].
  exists w1.
  assert (quiet w w1) as Hq'.
  { eapply quiet_trans; [|done]. by apply quiet_log. }
  destruct Hq' as [(Hclock & Hcache & Hcat & Hreg & Hseq) Htr].
  split_and!; try done.
  unfold Schema_name_func, Schema_sa_engine. run.
  rewrite cache_get_run, Hmiss. cbn. rewrite Hrun.
  unfold get_schema_name_from_oid, catalog_query. rewrite Hdb, Hcat.
  destruct (catalogs w !! _) as [cat|]; [|done].
  destruct (pg_namespace cat !! _) as [name|]; [|done].
  unfold cache_set. cbn. by rewrite Hclock.
Qed.

Lemma Schema_name_fresh s w :
  schema_dict_name s = None →
  Schema_name (s, w) =
    match Schema_name_func s w with
    | (Return v, w') => (Return v, (schema_store_name v s, w'))
    | (Raise e, w') => (Raise e, (s, w'))
    end.
Proof.
  intros Hs. unfold Schema_name, cached_property. cbn. rewrite Hs. run.
  by destruct (Schema_name_func s w) as [[v|e] w'].
Qed.

Lemma Schema_name_stored s w v s1 w1 :
  Schema_name (s, w) = (Return v, (s1, w1)) → schema_dict_name s1 = Some v.
Proof.
  unfold Schema_name, cached_property. cbn.
  destruct (schema_dict_name s) as [v'|] eqn:Hs.
  - intros [= <- <- <-]. done.
  - run. destruct (Schema_name_func s w) as [[v'|e] w']; [|done].
    by intros [= <- <- <-].
Qed.

Lemma Schema_name_memo s w v :
  schema_dict_name s = Some v → Schema_name (s, w) = (Return v, (s, w)).
Proof. intros Hs. unfold Schema_name, cached_property. cbn. by rewrite Hs. Qed.

(** C6 (Schema.name through the cache).  On a miss the name is fetched from
    the catalog and stored under the schema's key to expire 300 seconds
    later.  While the entry is live (up to 299 seconds after it was stored)
    a resolution returns the stored name, whatever the catalog then says,
    and does nothing but read the cache: no engine is touched and no catalog
    query is made.  From 300 seconds on, a resolution returns the name the
    catalog then has and stores it anew.  Each resolution is made through an
    instance that has not yet read its name. *)
Theorem schema_name_cache_ttl (s : SchemaObj) (w : World) (cat : Catalog)
    (name : string) :
  engines_wf w →
  schema_dict_name s = None →
  cache_lookup (schema_cache_key s) w = None →
  catalogs w !! database_name (schema_database s) = Some cat →
  pg_namespace cat !! schema_oid s = Some name →
  ∃ w1,
    Schema_name (s, w) = (Return name, (schema_store_name name s, w1)) ∧
    cache w1 !! schema_cache_key s = Some (name, clock w + 300) ∧
    EvCatalogRead (database_name (schema_database s)) ∈ trace w1 ∧
    ∀ w2 : World,
      cache w2 !! schema_cache_key s = cache w1 !! schema_cache_key s →
      (clock w2 ≤ clock w + 299 →
         Schema_name (s, w2) =
           (Return name,
            (schema_store_name name s,
             log (EvCacheGet (schema_cache_key s)) w2))) ∧
      (clock w + 300 ≤ clock w2 → engines_wf w2 →
         ∀ cat2 name2,
           catalogs w2 !! database_name (schema_database s) = Some cat2 →
           pg_namespace cat2 !! schema_oid s = Some name2 →
           ∃ w3,
             Schema_name (s, w2) =
               (Return name2, (schema_store_name name2 s, w3)) ∧
             cache w3 !! schema_cache_key s = Some (name2, clock w2 + 300)).
Proof.
  intros Hwf Hs Hmiss Hcat Hname.
  destruct (Schema_name_func_miss s w Hwf Hmiss) as (w0 & _ & Hq & Hrun).
  rewrite Hcat in Hrun. cbn in Hrun. rewrite Hname in Hrun.
  eexists. split; [by rewrite Schema_name_fresh, Hrun|].
  split; [cbn; by rewrite lookup_insert_eq|].
  split.
  { cbn. rewrite !elem_of_app, !list_elem_of_singleton. by left; right. }
  intros w2 Hw2. cbn in Hw2. rewrite lookup_insert_eq in Hw2. split.
  - intros Hclock. rewrite Schema_name_fresh by done.
    rewrite (Schema_name_func_hit s w2 name); [done|].
    unfold cache_lookup. rewrite Hw2. unfold NAME_CACHE_INTERVAL.
    rewrite decide_True by lia. done.
  - intros Hclock Hwf2 cat2 name2 Hcat2 Hname2.
    assert (cache_lookup (schema_cache_key s) w2 = None) as Hmiss2.
    { unfold cache_lookup. rewrite Hw2. unfold NAME_CACHE_INTERVAL.
      rewrite decide_False by lia. done. }
    destruct (Schema_name_func_miss s w2 Hwf2 Hmiss2) as (w0' & _ & _ & Hrun2).
    rewrite Hcat2 in Hrun2. cbn in Hrun2. rewrite Hname2 in Hrun2.
    eexists. split; [by rewrite Schema_name_fresh, Hrun2|].
    cbn. by rewrite lookup_insert_eq.
Qed.

(** C10 (Schema.name is a cached property).  Once a read of the name has
    returned a value on an instance, every later read on that instance
    returns that value and leaves the world as it is (no cache read, no
    catalog query), at any time, with any cache content and any catalog;
    this still holds after [clear_name_cache] has deleted the entry of the
    shared cache. *)
Theorem schema_name_read_once (s s1 : SchemaObj) (w w1 : World) (v : string) :
  Schema_name (s, w) = (Return v, (s1, w1)) →
  ∀ w2 : World,
    Schema_name (s1, w2) = (Return v, (s1, w2)) ∧
    ∃ w3,
      Schema_clear_name_cache (s1, w2) = (Return tt, (s1, w3)) ∧
      cache w3 !! schema_cache_key s1 = None ∧
      Schema_name (s1, w3) = (Return v, (s1, w3)).
Proof.
  intros Hread w2. apply Schema_name_stored in Hread.
  split; [by apply Schema_name_memo|].
  eexists. split; [reflexivity|]. split.
  - cbn. by rewrite lookup_delete_eq.
  - by apply Schema_name_memo.
Qed.

Section Properties.
Context `{db : DbLayer}.
Context `{dj : DjangoDb}.

Lemma reflect_table_raises oid cat e :
  reflect_table oid cat = Raise e → e = IndexError.
Proof.
  unfold reflect_table. destruct (pg_class cat !! oid) as [t|]; [|congruence].
  destruct (pg_namespace cat !! relnamespace t); congruence.
Qed.

Lemma table_store_sa_table_id t table :
  table_dict_sa_table t = Some table →
  table_store_sa_table (Some table) t = t.
Proof. destruct t. cbn. by intros ->. Qed.

Lemma catalog_query_run {A} engine (q : Catalog → outcome A) w cat :
  catalogs w !! engine_database engine = Some cat →
  catalog_query engine q w =
    (q cat, log (EvCatalogRead (engine_database engine)) w).
Proof. intros Hcat. unfold catalog_query. by rewrite Hcat. Qed.

Lemma Table_sa_table_run t w cat :
  engines_wf w →
  catalogs w !! table_database t = Some cat →
  ∃ w',
    Table_sa_table (t, w) =
      (Return (current_sa_table t cat),
       (table_store_sa_table (Some (current_sa_table t cat)) t, w')) ∧
    engines_wf w' ∧ quiet w w'.
Proof.
  intros Hwf Hcat. unfold Table_sa_table, cached_property, current_sa_table.
  cbn. destruct (table_dict_sa_table t) as [table|] eqn:Ht.
  - exists w. rewrite table_store_sa_table_id by done.
    split_and!; [done..|apply quiet_refl].
  - run. unfold Schema_sa_engine.
    destruct (Database_sa_engine_run (schema_database (table_schema t)) w)
      as (engine & w1 & Hrun & Hdb & _ & Hwf1 & Hq); [done|].
    rewrite Hrun. cbn. unfold reflect_table_from_oid.
    destruct Hq as [Hsame Htr].
    assert (catalogs w1 !! engine_database engine = Some cat) as Hcat1.
    { rewrite Hdb. destruct Hsame as (_ & _ & -> & _). done. }
    rewrite (catalog_query_run _ _ _ _ Hcat1).
    exists (log (EvCatalogRead (engine_database engine)) w1).
    assert (quiet w (log (EvCatalogRead (engine_database engine)) w1)).
    { eapply quiet_trans; [by split|]. by apply quiet_log. }
    destruct (reflect_table (table_oid t) cat) as [table|e] eqn:Hr; cbn.
    + done.
    + apply reflect_table_raises in Hr as ->. done.
Qed.

(** C7 (the sentinel for a missing object).  When the catalog no longer has
    the oid, the resolution of a schema name that reaches the catalog
    returns "MISSING", and the resolution of a table's shape returns the
    empty table "MISSING", whose name is then the table's name; neither
    raises. *)
Theorem missing_object_sentinel (s : SchemaObj) (t : TableObj) (w : World)
    (cat_s cat_t : Catalog) :
  engines_wf w →
  schema_dict_name s = None →
  cache_lookup (schema_cache_key s) w = None →
  catalogs w !! database_name (schema_database s) = Some cat_s →
  pg_namespace cat_s !! schema_oid s = None →
  table_dict_sa_table t = None →
  table_dict_name t = None →
  catalogs w !! table_database t = Some cat_t →
  pg_class cat_t !! table_oid t = None →
  (∃ s' w', Schema_name (s, w) = (Return "MISSING"%string, (s', w'))) ∧
  (∃ t' w',
     Table_sa_table (t, w) = (Return (get_empty_table "MISSING"), (t', w'))) ∧
  (∃ t' w', Table_name (t, w) = (Return "MISSING"%string, (t', w'))).
Proof.
  intros Hwf Hs Hmiss Hcat_s Hgone_s Ht Hn Hcat_t Hgone_t.
  assert (current_sa_table t cat_t = get_empty_table "MISSING") as Hcur.
  { unfold current_sa_table, reflect_table. by rewrite Ht, Hgone_t. }
  destruct (Table_sa_table_run t w cat_t Hwf Hcat_t) as (w1 & Hrun & _).
  rewrite Hcur in Hrun.
  split_and!.
  - destruct (Schema_name_func_miss s w Hwf Hmiss) as (w0 & _ & _ & Hf).
    rewrite Hcat_s in Hf. cbn in Hf. rewrite Hgone_s in Hf.
    eexists _, _. by rewrite Schema_name_fresh, Hf.
  - eauto.
  - unfold Table_name, cached_property. cbn. rewrite Hn. run.
    rewrite Hrun. eauto.
Qed.

(** [add_column], [alter_column] and [drop_column] leave the instance, with
    what it has cached, as it was, whatever the DDL does. *)
Lemma Table_add_column_keeps_instance column_data t w r t' w' :
  Table_add_column column_data (t, w) = (r, (t', w')) → t' = t.
Proof.
  unfold Table_add_column. run.
  destruct (Schema_sa_engine (table_schema t) w) as [[engine|e] w1];
    [|by intros [= _ <- _]].
  cbn. destruct (catalog_ddl _ _ _) as [r' w2]. by intros [= _ <- _].
Qed.

Lemma Table_alter_column_keeps_instance attnum column_data t w r t' w' :
  Table_alter_column attnum column_data (t, w) = (r, (t', w')) → t' = t.
Proof.
  unfold Table_alter_column. run.
  destruct (Schema_sa_engine (table_schema t) w) as [[engine|e] w1];
    [|by intros [= _ <- _]].
  cbn. destruct (catalog_ddl _ _ _) as [r' w2]. by intros [= _ <- _].
Qed.

Lemma Table_drop_column_keeps_instance attnum t w r t' w' :
  Table_drop_column attnum (t, w) = (r, (t', w')) → t' = t.
Proof.
  unfold Table_drop_column. run.
  destruct (Schema_sa_engine (table_schema t) w) as [[engine|e] w1];
    [|by intros [= _ <- _]].
  cbn. destruct (catalog_ddl _ _ _) as [r' w2]. by intros [= _ <- _].
Qed.

Lemma catalog_ddl_run {A} engine (op : M Catalog A) w cat :
  catalogs w !! engine_database engine = Some cat →
  catalog_ddl engine op w =
    ((op cat).1,
     log (EvCatalogDDL (engine_database engine))
       (set_catalogs (<[engine_database engine := (op cat).2]>) w)).
Proof.
  intros Hcat. unfold catalog_ddl. rewrite Hcat. by destruct (op cat).
Qed.

Lemma quiet_catalogs w w' : quiet w w' → catalogs w' = catalogs w.
Proof. by intros [(_ & _ & ? & _) _]. Qed.

Lemma quiet_registry w w' : quiet w w' → registry w' = registry w.
Proof. by intros [(_ & _ & _ & ? & _) _]. Qed.

Lemma quiet_sequences w w' : quiet w w' → sequences w' = sequences w.
Proof. by intros [(_ & _ & _ & _ & ?) _]. Qed.

(** C3 (Table.add_constraint).  When the DDL succeeds, the name is the
    explicit one or, without one, the name synthesized from the kind, the
    table's oid and the first constrained attribute number; the oid of the
    constraint is the one the catalog has under that name for the table;
    exactly one Constraint row, of that oid and of this table, is inserted;
    and the instance's cached [_sa_table] is dropped.  The row is inserted
    under the key that the sequence of the Constraint table gives next: a
    key above every key of the table and above every key the sequence has
    given, so the key of a constraint that was dropped is not given again.
    The oid is one that an integer column holds, and the sequence is not
    behind the keys of the table. *)
Theorem add_constraint_creates_one_row (t : TableObj) (w : World)
    (spec : ConstraintSpec) (pk : Z) (cat cat' : Catalog) (name : string)
    (c : CatalogConstraint) :
  engines_wf w →
  table_id t = Some pk →
  catalogs w !! table_database t = Some cat →
  create_constraint (sa_schema (current_sa_table t cat)) spec cat
    = (Return tt, cat') →
  constraint_name_of spec (table_oid t) cat' = Return name →
  find_constraint_by_name name (table_oid t) cat' = Some c →
  integer_field_fits (conoid c) = true →
  sequence_ahead "Constraint" (constraints (registry w)) w →
  let id := next_key "Constraint" (sequence_mark "Constraint" w) in
  let t' := table_store_sa_table None t in
  ∃ w',
    Table_add_constraint spec (t, w) =
      (Return {| constraint_id := Some id; constraint_oid := conoid c;
                 constraint_table := t';
                 constraint_dict_sa_constraint := None |}, (t', w')) ∧
    table_dict_sa_table t' = None ∧
    constraints (registry w) !! id = None ∧
    sequence_mark "Constraint" w < id ∧
    (∀ k, is_Some (constraints (registry w) !! k) → k < id) ∧
    registry w' =
      set_constraints (<[id := {| con_oid := conoid c; con_table_id := pk |}]>)
        (registry w) ∧
    size (constraints (registry w')) = S (size (constraints (registry w))) ∧
    catalogs w' = <[table_database t := cat']> (catalogs w) ∧
    sequence_mark "Constraint" w' = id ∧
    sequence_ahead "Constraint" (constraints (registry w')) w'.
Proof.
  intros Hwf Hpk Hcat Hddl Hname Hfind Hfits Hahead id t'.
  assert (sequence_mark "Constraint" w < id) as Habove
    by apply next_key_above.
  assert (∀ k, is_Some (constraints (registry w) !! k) → k < id) as Hkeys.
  { intros k Hk. specialize (Hahead k Hk). lia. }
  assert (constraints (registry w) !! id = None) as Hfresh.
  { apply eq_None_not_Some. intros Hid. specialize (Hkeys id Hid). lia. }
  unfold Table_add_constraint.
  destruct (Table_sa_table_run t w cat Hwf Hcat) as (w1 & Hrun1 & Hwf1 & Hq1).
  unfold mbind at 1. unfold M_bind at 1. rewrite Hrun1.
  run. unfold Schema_sa_engine.
  assert (∀ x, table_schema (table_store_sa_table x t) = table_schema t)
    as Hts by done.
  assert (∀ x, table_oid (table_store_sa_table x t) = table_oid t)
    as Hto by done.
  rewrite !Hts, ?Hto.
  set (d := schema_database (table_schema t)).
  destruct (Database_sa_engine_run d w1 Hwf1)
    as (e2 & w2 & Hrun2 & Hdb2 & _ & Hwf2 & Hq2).
  rewrite Hrun2. cbn.
  assert (catalogs w2 !! engine_database e2 = Some cat) as Hcat2.
  { rewrite Hdb2, (quiet_catalogs _ _ Hq2), (quiet_catalogs _ _ Hq1). done. }
  rewrite (catalog_ddl_run _ _ _ _ Hcat2), Hddl. cbn.
  unfold delattr. cbn.
  set (w3 := log _ (set_catalogs _ w2)).
  assert (engines_wf w3) as Hwf3 by done.
  destruct (Database_sa_engine_run d w3 Hwf3)
    as (e4 & w4 & Hrun4 & Hdb4 & _ & Hwf4 & Hq4).
  rewrite Hrun4. cbn.
  assert (catalogs w4 = <[table_database t := cat']> (catalogs w)) as Hcats4.
  { rewrite (quiet_catalogs _ _ Hq4). subst w3. cbn.
    rewrite Hdb2, (quiet_catalogs _ _ Hq2), (quiet_catalogs _ _ Hq1). done. }
  assert (catalogs w4 !! engine_database e4 = Some cat') as Hcat4.
  { rewrite Hcats4, Hdb4. apply lookup_insert_eq. }
  assert (registry w4 = registry w) as Hreg4.
  { rewrite (quiet_registry _ _ Hq4). subst w3. cbn.
    rewrite (quiet_registry _ _ Hq2), (quiet_registry _ _ Hq1). done. }
  assert (sequences w4 = sequences w) as Hseq4.
  { rewrite (quiet_sequences _ _ Hq4). subst w3. cbn.
    rewrite (quiet_sequences _ _ Hq2), (quiet_sequences _ _ Hq1). done. }
  unfold get_constraint_oid_by_name_and_table_oid, Constraint_create.
  assert (∃ w5, catalogs w5 = catalogs w4 ∧ registry w5 = registry w4 ∧
     sequences w5 = sequences w4 ∧
     (if falsy (spec_name spec)
      then match spec_columns_attnum spec with
           | [] => raise IndexError
           | attnum :: _ =>
               lift (catalog_query e4
                       (get_constraint_name (spec_type spec)
                          (table_oid t) attnum))
           end
      else mret (default ""%string (spec_name spec)))
       (table_store_sa_table None
          (table_store_sa_table (Some (current_sa_table t cat)) t), w4)
     = (Return name, (t', w5))) as (w5 & Hcats5 & Hreg5 & Hseq5 & Hrun5).
  { unfold constraint_name_of, falsy in *.
    destruct (spec_name spec) as [n|]; [case_bool_decide|].
    - destruct (spec_columns_attnum spec) as [|attnum ?]; [done|].
      run. rewrite (catalog_query_run _ _ _ _ Hcat4), Hname.
      by exists (log (EvCatalogRead (engine_database e4)) w4).
    - injection Hname as <-. by exists w4.
    - destruct (spec_columns_attnum spec) as [|attnum ?]; [done|].
      run. rewrite (catalog_query_run _ _ _ _ Hcat4), Hname.
      by exists (log (EvCatalogRead (engine_database e4)) w4). }
  run. rewrite Hrun5. cbn.
  assert (catalogs w5 !! engine_database e4 = Some cat') as Hcat5
    by by rewrite Hcats5.
  rewrite (catalog_query_run _ _ _ _ Hcat5), Hfind. cbn. run.
  rewrite Hpk, Hfits. cbn.
  assert (sequence_mark "Constraint"
            (log (EvCatalogRead (engine_database e4)) w5)
          = sequence_mark "Constraint" w) as Hmark.
  { unfold sequence_mark. cbn. by rewrite Hseq5, Hseq4. }
  rewrite !Hmark. fold id. rewrite Hreg5, Hreg4.
  rewrite bool_decide_eq_false_2 by (rewrite Hfresh; by intros [? ?]).
  assert (sequence_mark "Constraint"
            (sequence_reaches "Constraint" id
               (set_registry
                  (set_constraints
                     (<[id := {| con_oid := conoid c; con_table_id := pk |}]>))
                  (log (EvCatalogRead (engine_database e4)) w5))) = id)
    as Hreach.
  { unfold sequence_reaches, sequence_mark at 1. cbn.
    rewrite lookup_insert_eq. cbn.
    change (sequence_mark "Constraint" (set_registry ?f ?x))
      with (sequence_mark "Constraint" x).
    rewrite Hmark. lia. }
  eexists. split; [reflexivity|]. cbn.
  rewrite Hreg5, Hreg4, Hcats5, Hcats4.
  split_and!; try done.
  - by apply map_size_insert_None.
  - intros k Hk.
    change (sequence_mark "Constraint" (log ?e ?x))
      with (sequence_mark "Constraint" x).
    rewrite Hreach.
    apply lookup_insert_is_Some in Hk as [->|[_ Hk]]; [done|].
    specialize (Hkeys k Hk). lia.
Qed.

Lemma on_table_run {A} (m : M (TableObj * World) A) c w r t' w' :
  m (constraint_table c, w) = (r, (t', w')) →
  on_table m (c, w) = (r, (constraint_with_table t' c, w')).
Proof. intros Hm. unfold on_table. cbn. by rewrite Hm. Qed.

(** C8 (Constraint.drop).  The DDL is issued first and the identity row is
    deleted next, in the same call: the trace ends with the DDL followed by
    the deletion, preceded by reads only (no reconciliation); and the
    listing of the constraints of any table through the manager that does
    not reflect no longer has the row. *)
Theorem constraint_drop_removes_row (c : ConstraintObj) (w : World) (id : Z)
    (cat cat' : Catalog) (sa_constraint : CatalogConstraint) :
  let table := current_sa_table (constraint_table c) cat in
  let database := table_database (constraint_table c) in
  engines_wf w →
  constraint_id c = Some id →
  catalogs w !! database = Some cat →
  current_sa_constraint c cat = Return (Some sa_constraint) →
  drop_constraint (sa_name table) (sa_schema table) (conname sa_constraint) cat
    = (Return tt, cat') →
  ∃ c' w' evs,
    Constraint_drop (c, w) = (Return tt, (c', w')) ∧
    constraint_id c' = None ∧
    catalogs w' = <[database := cat']> (catalogs w) ∧
    registry w' = set_constraints (delete id) (registry w) ∧
    trace w' =
      trace w ++ evs ++ [EvCatalogDDL database; EvRowDelete "Constraint" id] ∧
    Forall read_event evs ∧
    ∀ table_pk,
      ∃ rows,
        Constraint_filter_table current_objects table_pk w'
          = (Return rows, w') ∧
        id ∉ rows.*1.
Proof.
  intros table database Hwf Hid Hcat Hsa Hddl.
  set (t := constraint_table c) in *.
  unfold Constraint_drop.
  (* self.table._sa_table.name *)
  destruct (Table_sa_table_run t w cat Hwf Hcat) as (w1 & Hrun1 & Hwf1 & Hq1).
  fold table in Hrun1.
  set (t1 := table_store_sa_table (Some table) t) in *.
  unfold mbind at 1. unfold M_bind at 1.
  rewrite (on_table_run _ _ _ _ _ _ Hrun1).
  set (c1 := constraint_with_table t1 c).
  (* self.table._sa_table.schema *)
  assert (catalogs w1 !! table_database t1 = Some cat) as Hcat1.
  { by rewrite (quiet_catalogs _ _ Hq1). }
  destruct (Table_sa_table_run t1 w1 cat Hwf1 Hcat1)
    as (w1' & Hrun1' & Hwf1' & Hq1').
  change (current_sa_table t1 cat) with table in Hrun1'.
  assert (table_store_sa_table (Some table) t1 = t1) as Ht1 by done.
  rewrite Ht1 in Hrun1'.
  unfold mbind at 1. unfold M_bind at 1.
  assert (constraint_table c1 = t1) as Hc1 by done.
  rewrite (on_table_run _ c1 _ _ _ _ Hrun1').
  assert (constraint_with_table t1 c1 = c1) as -> by done.
  (* self.table.schema._sa_engine *)
  run. unfold Schema_sa_engine. rewrite Hc1.
  set (d := schema_database (table_schema t)).
  assert (schema_database (table_schema t1) = d) as -> by done.
  destruct (Database_sa_engine_run d w1' Hwf1')
    as (e2 & w2 & Hrun2 & Hdb2 & _ & Hwf2 & Hq2).
  rewrite Hrun2. cbn.
  (* self.name *)
  assert (quiet w w2) as Hq02.
  { eapply quiet_trans; [done|]. eapply quiet_trans; done. }
  assert (∃ w3, engines_wf w3 ∧ quiet w w3 ∧
            Constraint_name (c1, w2) = (Return (conname sa_constraint),
              (constraint_store_sa_constraint (Some sa_constraint) c1, w3)))
    as (w3 & Hwf3 & Hq3 & Hrun3).
  { unfold Constraint_name, Constraint_sa_constraint, cached_property.
    run. unfold current_sa_constraint in Hsa.
    assert (constraint_dict_sa_constraint c1 = constraint_dict_sa_constraint c)
      as -> by done.
    destruct (constraint_dict_sa_constraint c) as [v|] eqn:Hslot.
    - injection Hsa as ->. exists w2. split_and!; try done.
      cbn. do 2 f_equal. unfold constraint_store_sa_constraint, c1. cbn.
      destruct c. cbn in *. by subst.
    - rewrite Hc1.
      assert (schema_database (table_schema t1) = d) as -> by done.
      destruct (Database_sa_engine_run d w2 Hwf2)
        as (e3 & w3 & Hrun3 & Hdb3 & _ & Hwf3 & Hq3).
      rewrite Hrun3. cbn.
      unfold get_constraint_from_oid.
      assert (catalogs w3 !! engine_database e3 = Some cat) as Hcat3.
      { by rewrite Hdb3, (quiet_catalogs _ _ Hq3), (quiet_catalogs _ _ Hq02). }
      rewrite (catalog_query_run _ _ _ _ Hcat3).
      fold t table in Hsa. rewrite Hsa. cbn.
      eexists. split_and!; [| |reflexivity]; [done|].
      eapply quiet_trans; [exact Hq02|].
      eapply quiet_trans; [exact Hq3|]. by apply quiet_log. }
  rewrite Hrun3. cbn.
  (* drop_constraint(...) *)
  assert (catalogs w3 !! engine_database e2 = Some cat) as Hcat3.
  { by rewrite Hdb2, (quiet_catalogs _ _ Hq3). }
  rewrite (catalog_ddl_run _ _ _ _ Hcat3), Hddl. cbn.
  (* self.delete() *)
  unfold Constraint_delete. run.
  assert (constraint_id (constraint_store_sa_constraint (Some sa_constraint) c1)
          = Some id) as -> by done.
  cbn.
  destruct Hq3 as [(_ & _ & Hcats & Hreg & _) (evs & Htr & Hevs)].
  eexists _, _, evs. split; [reflexivity|]. cbn.
  rewrite Hdb2, Hcats, Hreg, Htr.
  split_and!; try done.
  - by rewrite <- !app_assoc.
  - intros table_pk. eexists. split; [reflexivity|].
    cbn. intros Hin. apply list_elem_of_fmap in Hin as ([id' row] & -> & Hin).
    apply elem_of_map_to_list in Hin.
    apply map_lookup_filter_Some in Hin as [Hin _]. cbn in Hin.
    by rewrite lookup_delete_eq in Hin.
Qed.

Lemma reflections_ext w w' evs :
  trace w' = trace w ++ evs → EvReflect ∉ evs → reflections w' = reflections w.
Proof.
  intros Ht Hevs. unfold reflections. rewrite Ht, filter_app, length_app.
  assert (filter (λ e, e = EvReflect) evs = []) as ->; [|cbn; lia].
  clear Ht. induction evs as [|e evs IH]; [done|].
  apply not_elem_of_cons in Hevs as [? ?].
  rewrite filter_cons, decide_False by done. by apply IH.
Qed.

Lemma not_reflect_singleton e : e ≠ EvReflect → EvReflect ∉ [e].
Proof. intros He Hin%list_elem_of_singleton. congruence. Qed.

Lemma reflections_log_reflect w :
  reflections (log EvReflect w) = S (reflections w).
Proof.
  unfold reflections. cbn. rewrite filter_app, length_app.
  rewrite filter_cons, decide_True, filter_nil by done. cbn. lia.
Qed.

Lemma Column_save_reflections c w :
  reflections (Column_save (c, w)).2.2 = reflections w.
Proof.
  unfold Column_save. run.
  destruct (integer_field_fits (column_attnum c)); [|done].
  destruct (column_table_id c) as [table_pk|]; [|done].
  destruct (column_id c) as [id|]; cbn.
  - case_bool_decide; cbn;
      (eapply reflections_ext; [cbn; reflexivity|]);
      by apply not_reflect_singleton.
  - case_bool_decide; [done|]. cbn.
    eapply reflections_ext; [cbn; reflexivity|].
    by apply not_reflect_singleton.
Qed.

Lemma Model_save_Table_reflections t w :
  reflections (Model_save_Table (t, w)).2.2 = reflections w.
Proof.
  unfold Model_save_Table. run.
  destruct (integer_field_fits (table_oid t)); [|done]. cbn.
  case_bool_decide; [done|]. case_decide; [done|]. cbn.
  case_bool_decide; [|destruct (table_id t)]; cbn;
    (eapply reflections_ext; [cbn; reflexivity|]);
    by apply not_reflect_singleton.
Qed.

Lemma get_queryset_current model w :
  get_queryset current_objects model w = (Return {| qs_model := model |}, w).
Proof. reflexivity. Qed.

Lemma Table_validate_unique_world t w :
  (Table_validate_unique (t, w)).2 = (t, w).
Proof.
  unfold Table_validate_unique, Model_validate_unique_Table. run.
  rewrite get_queryset_current.
  cbn [fst snd]. repeat case_decide; try done.
  repeat case_match; done.
Qed.

Lemma Table_save_reflections t w :
  reflections (Table_save (t, w)).2.2 = reflections w.
Proof.
  unfold Table_save. run.
  destruct (table_state_adding t).
  - pose proof (Table_validate_unique_world t w) as Hv.
    destruct (Table_validate_unique (t, w)) as [[[]|e] s]; cbn in Hv; subst s.
    + apply Model_save_Table_reflections.
    + done.
  - apply Model_save_Table_reflections.
Qed.

(** C1 (reads reflect, writes do not).  [get_queryset] of the manager
    [objects] runs [reflect_db_objects] before it returns the queryset of
    any identity model (and returns none when the reconciliation fails):
    the number of reconciliations grows by one.  [get_queryset] of
    [current_objects] leaves the world as it is, and saving a Column or a
    Table runs no reconciliation. *)
Theorem reads_reflect_writes_do_not (model : Model) (w : World)
    (c : ColumnObj) (t : TableObj) :
  get_queryset objects model w =
    match reflect_registry (catalogs w) (registry w) with
    | Return r =>
        (Return {| qs_model := model |},
         set_registry (λ _, r) (log EvReflect w))
    | Raise e => (Raise e, log EvReflect w)
    end ∧
  reflections (get_queryset objects model w).2 = S (reflections w) ∧
  get_queryset current_objects model w = (Return {| qs_model := model |}, w) ∧
  reflections (Column_save (c, w)).2.2 = reflections w ∧
  reflections (Table_save (t, w)).2.2 = reflections w.
Proof.
  assert (get_queryset objects model w =
    match reflect_registry (catalogs w) (registry w) with
    | Return r =>
        (Return {| qs_model := model |},
         set_registry (λ _, r) (log EvReflect w))
    | Raise e => (Raise e, log EvReflect w)
    end) as Hread.
  { cbn. unfold DatabaseObjectManager_get_queryset, reflect_db_objects. run.
    by destruct (reflect_registry _ _). }
  split_and!.
  - done.
  - rewrite Hread. destruct (reflect_registry _ _);
      apply reflections_log_reflect.
  - done.
  - apply Column_save_reflections.
  - apply Table_save_reflections.
Qed.

Lemma unique_table_insert r id row :
  unique_table r →
  ¬ map_Exists (same_oid_and_schema (Some id) (tbl_oid row)
                  (tbl_schema_id row)) (tables r) →
  unique_table (set_tables (<[id := row]>) r).
Proof.
  intros Hu Hno i j ri rj. cbn.
  rewrite !lookup_insert.
  assert (∀ k rk, tables r !! k = Some rk → k ≠ id →
            tbl_oid rk = tbl_oid row → tbl_schema_id rk = tbl_schema_id row →
            False) as Hclash.
  { intros k rk Hk Hne Ho Hs. apply Hno. exists k, rk.
    split; [done|]. split_and!; [congruence|done..]. }
  repeat case_decide; subst; intros; simplify_eq; try done.
  - exfalso. eapply (Hclash j rj); eauto.
  - exfalso. eapply (Hclash i ri); eauto.
  - eapply Hu; eauto.
Qed.

Lemma Model_save_Table_unique t w :
  unique_table (registry w) →
  unique_table (registry (Model_save_Table (t, w)).2.2).
Proof.
  intros Hu. unfold Model_save_Table. run.
  destruct (integer_field_fits (table_oid t)); [|done]. cbn.
  case_bool_decide; [done|]. case_decide as Hex; [done|]. cbn.
  case_bool_decide; [|destruct (table_id t)]; cbn;
    by apply (unique_table_insert _ _ {| tbl_oid := _ |}).
Qed.

(** C5 (uniqueness of Table rows).  Saving a new Table whose oid an existing
    Table of the same schema has raises the validation error of the
    pre-check, which is not an integrity error of the Django table, and
    saves nothing.  Whatever a save does, no two Table rows share an (oid,
    schema): the pre-check and Django's validation stop such a row before
    the insert, and the insert alone is refused by the index
    [unique_table]. *)
Theorem table_insert_unique (t : TableObj) (w : World) :
  table_state_adding t = true →
  unique_table (registry w) →
  (∀ id row srow,
     tables (registry w) !! id = Some row →
     tbl_oid row = table_oid t →
     tbl_schema_id row = schema_id (table_schema t) →
     schemas (registry w) !! schema_id (table_schema t) = Some srow →
     sch_database_id srow = database_id (schema_database (table_schema t)) →
     Table_save (t, w) =
       (Raise (ValidationError "Table OID is not unique"), (t, w)) ∧
     ∀ name, ValidationError "Table OID is not unique" ≠ IntegrityError name) ∧
  unique_table (registry (Table_save (t, w)).2.2) ∧
  unique_table (registry (Model_save_Table (t, w)).2.2).
Proof.
  intros Hadd Hu. split_and!.
  - intros id row srow Hrow Hoid Hsch Hsrow Hdb. split; [|done].
    unfold Table_save, Table_validate_unique. run. rewrite Hadd.
    rewrite get_queryset_current.
    cbn [fst snd]. rewrite decide_True; [done|].
    exists id, row. split; [done|]. split; [done|].
    by rewrite Hsch, Hsrow; cbn; rewrite Hdb.
  - unfold Table_save. run. rewrite Hadd.
    pose proof (Table_validate_unique_world t w) as Hv.
    destruct (Table_validate_unique (t, w)) as [[[]|e] s]; cbn in Hv; subst s.
    + by apply Model_save_Table_unique.
    + done.
  - by apply Model_save_Table_unique.
Qed.

Lemma mapM_pure {S A B} (f : A → M S B) (g : A → B) (l : list A) (s : S) :
  (∀ x, x ∈ l → f x s = (Return (g x), s)) →
  mapM f l s = (Return (g <$> l), s).
Proof.
  induction l as [|x l IH]; intros Hf; [done|].
  cbn. unfold mbind, M_bind. rewrite Hf by left.
  rewrite IH; [done|]. intros y Hy. apply Hf. by right.
Qed.

Lemma mapM_log {A} (ev : A → event) (l : list A) (w : World) :
  ∃ r w',
    mapM (λ x, modify (log (ev x))) l w = (Return r, w') ∧
    registry w' = registry w ∧ catalogs w' = catalogs w.
Proof.
  revert w. induction l as [|x l IH]; intros w; [by eexists _, _|].
  cbn. unfold mbind, M_bind. cbn.
  destruct (IH (log (ev x) w)) as (r & w' & -> & Hreg & Hcat).
  by eexists _, _.
Qed.

Lemma bulk_update_other objs cols id :
  Some id ∉ column_id <$> objs →
  foldr bulk_update_row cols objs !! id = cols !! id.
Proof.
  induction objs as [|o objs IH]; [done|].
  rewrite fmap_cons, not_elem_of_cons. intros [Hne Hnin]. cbn.
  unfold bulk_update_row at 1.
  destruct (column_id o) as [id0|]; [|by apply IH].
  destruct (column_table_id o); [|by apply IH].
  rewrite lookup_alter_ne by congruence. by apply IH.
Qed.

Lemma bulk_update_lookup objs cols pk obj id :
  NoDup (column_id <$> objs) →
  obj ∈ objs → column_id obj = Some id → column_table_id obj = Some pk →
  foldr bulk_update_row cols objs !! id
    = remapped pk (column_attnum obj) <$> cols !! id.
Proof.
  induction objs as [|o objs IH]; [by intros _ ?%elem_of_nil|].
  rewrite fmap_cons, NoDup_cons. intros [Hnin Hnd] Hin Hid Hpk.
  apply elem_of_cons in Hin as [->|Hin]; cbn.
  - unfold bulk_update_row at 1. rewrite Hid, Hpk.
    rewrite lookup_alter_eq. rewrite bulk_update_other; [done|].
    by rewrite <- Hid.
  - assert (column_id o ≠ Some id) as Hne.
    { intros Ho. apply Hnin. rewrite Ho, <- Hid.
      by apply list_elem_of_fmap_2. }
    unfold bulk_update_row at 1.
    destruct (column_id o) as [id0|]; [|by apply IH].
    destruct (column_table_id o); [|by apply IH].
    rewrite lookup_alter_ne by congruence. by apply IH.
Qed.

Lemma Table_sa_engine_run t w :
  engines_wf w →
  (∀ e, table_dict_sa_engine t = Some e →
        engine_database e = table_database t) →
  ∃ engine w',
    Table_sa_engine (t, w) =
      (Return engine, (table_store_sa_engine (Some engine) t, w')) ∧
    engine_database engine = table_database t ∧ quiet w w'.
Proof.
  intros Hwf Ht. unfold Table_sa_engine, cached_property. cbn.
  destruct (table_dict_sa_engine t) as [e|] eqn:He.
  - exists e, w. split_and!; [|by apply Ht|apply quiet_refl].
    do 2 f_equal. destruct t; cbn in *; by subst.
  - run. unfold Schema_sa_engine.
    destruct (Database_sa_engine_run (schema_database (table_schema t)) w Hwf)
      as (e & w1 & Hrun & Hdb & _ & _ & Hq).
    rewrite Hrun. cbn. by exists e, w1.
Qed.

(** C4 (Table.update_column_reference).  For every column among the given
    names that the resulting table has in the catalog, the Column row that
    the map gives for its name now points at this table with the attribute
    number the catalog has for the name, its display options kept; every
    other Column row is as it was.  The map is one-to-one, as the bidict the
    callers pass. *)
Theorem update_column_reference_remaps (t : TableObj) (w : World)
    (columns_name : list string) (column_name_id_map : gmap string Z)
    (pk : Z) (cat : Catalog) :
  let owned := owned_columns (table_oid t) columns_name cat in
  engines_wf w →
  (∀ e, table_dict_sa_engine t = Some e →
        engine_database e = table_database t) →
  table_id t = Some pk →
  catalogs w !! table_database t = Some cat →
  NoDup owned.*2 →
  (∀ attnum name, (attnum, name) ∈ owned →
     ∃ id, column_name_id_map !! name = Some id ∧
           is_Some (columns (registry w) !! id)) →
  (∀ name1 name2 id,
     column_name_id_map !! name1 = Some id →
     column_name_id_map !! name2 = Some id → name1 = name2) →
  ∃ t' w',
    Table_update_column_reference columns_name column_name_id_map (t, w)
      = (Return tt, (t', w')) ∧
    (∀ attnum name id,
       (attnum, name) ∈ owned → column_name_id_map !! name = Some id →
       columns (registry w') !! id
         = remapped pk attnum <$> columns (registry w) !! id ∧
       is_Some (columns (registry w) !! id)) ∧
    (∀ id,
       (∀ attnum name, (attnum, name) ∈ owned →
                       column_name_id_map !! name ≠ Some id) →
       columns (registry w') !! id = columns (registry w) !! id).
Proof.
  intros owned Hwf Hte Hpk Hcat Hnd Hmap Hinj.
  set (obj_of := λ item : string * Z,
         {| column_id := Some (default 0 (column_name_id_map !! item.1));
            column_table_id := Some pk;
            column_attnum := item.2;
            column_display_options :=
              default None
                (col_display_options <$>
                   columns (registry w)
                     !! default 0 (column_name_id_map !! item.1)) |}).
  set (items := (λ a : Z * string, (a.2, a.1)) <$> owned).
  set (objs := obj_of <$> items).
  destruct (Table_sa_engine_run t w Hwf Hte) as (e & w1 & Hrun1 & Hdb & Hq1).
  set (t1 := table_store_sa_engine (Some e) t) in *.
  unfold Table_update_column_reference. run. rewrite Hrun1. cbn [fst snd].
  assert (catalogs w1 !! engine_database e = Some cat) as Hcat1.
  { by rewrite Hdb, (quiet_catalogs _ _ Hq1). }
  unfold get_columns_attnum_from_names.
  rewrite (catalog_query_run _ _ _ _ Hcat1). cbn [fst snd].
  set (w2 := log _ w1).
  assert (registry w2 = registry w) as Hreg2
    by apply (quiet_registry _ _ Hq1).
  assert (match pg_class cat !! table_oid t with
          | Some t0 =>
              (λ a : Z * string, (a.2, a.1)) <$>
                filter (λ a : Z * string, a.2 ∈ columns_name) (attributes t0)
          | None => []
          end = items) as ->.
  { unfold items, owned, owned_columns. by destruct (pg_class cat !! _). }
  rewrite (mapM_pure _ obj_of items); last first.
  { intros [name attnum] [[a n] [[= -> ->] Hin]]%list_elem_of_fmap.
    destruct (Hmap _ _ Hin) as (id & Hid & [row Hrow]). cbn [fst snd] in *.
    rewrite Hid. unfold Column_get. run.
    rewrite get_queryset_current. cbn [fst snd].
    rewrite Hreg2, Hrow. unfold obj_of. cbn. rewrite Hid. cbn.
    rewrite Hrow. cbn. by rewrite Hpk. }
  fold objs. unfold Column_bulk_update_table_id_attnum. run.
  rewrite get_queryset_current. cbn [fst snd].
  rewrite bool_decide_eq_false_2; last first.
  { intros (o & [item [-> _]]%list_elem_of_fmap & Ho)%Exists_exists. done. }
  rewrite bool_decide_eq_false_2; last first.
  { intros (o & [item [-> _]]%list_elem_of_fmap & Ho)%Exists_exists. done. }
  destruct (mapM_log (λ obj, EvRowUpdate "Column" (default 0 (column_id obj)))
              objs
              (set_registry (set_columns (λ cols, foldr bulk_update_row cols objs))
                 w2)) as (r & w3 & Hrun3 & Hreg3 & _).
  run. rewrite Hrun3. cbn [fst snd].
  exists t1, w3. split; [done|].
  rewrite Hreg3. cbn. rewrite (quiet_registry _ _ Hq1).
  assert (NoDup (column_id <$> objs)) as Hndobjs.
  { unfold objs, items. rewrite <- !list_fmap_compose.
    apply NoDup_fmap_2_strong; [|by eapply NoDup_fmap_1].
    intros [a1 n1] [a2 n2] Hin1 Hin2 [= Heq]. cbn in Heq.
    destruct (Hmap _ _ Hin1) as (id1 & Hid1 & _).
    destruct (Hmap _ _ Hin2) as (id2 & Hid2 & _).
    rewrite Hid1, Hid2 in Heq. cbn in Heq. subst id2.
    assert (n1 = n2) as -> by by eapply Hinj.
    f_equal. 
    assert (NoDup owned) as Hnd' by by eapply NoDup_fmap_1.
    apply list_elem_of_lookup in Hin1 as [i1 Hi1].
    apply list_elem_of_lookup in Hin2 as [i2 Hi2].
    assert (i1 = i2) as ->.
    { eapply (NoDup_lookup _ _ _ n2 Hnd); rewrite list_lookup_fmap.
      - by rewrite Hi1. - by rewrite Hi2. }
    congruence. }
  split.
  - intros attnum name id Hin Hid.
    destruct (Hmap _ _ Hin) as (id' & Hid' & Hrow).
    assert (id' = id) as -> by congruence.
    split; [|done].
    apply (bulk_update_lookup objs _ pk (obj_of (name, attnum)));
      [done| |by cbn; rewrite Hid|done].
    unfold objs, items. apply list_elem_of_fmap_2.
    by apply (list_elem_of_fmap_2 (λ a : Z * string, (a.2, a.1)) _ (attnum, name)).
  - intros id Hnone. apply bulk_update_other.
    unfold objs, items. rewrite <- !list_fmap_compose.
    intros ([a n] & Heq & Hin)%list_elem_of_fmap. cbn in Heq.
    destruct (Hmap _ _ Hin) as (id' & Hid' & _).
    rewrite Hid' in Heq. cbn in Heq. injection Heq as ->.
    by eapply Hnone.
Qed.

End Properties.

Lemma run_schedule_app self s1 s2 c :
  run_schedule self (s1 ++ s2) c = run_schedule self s2 (run_schedule self s1 c).
Proof. unfold run_schedule. apply foldl_app. Qed.

(** A thread that runs alone from its first statement does what
    [Database._sa_engine] does. *)
Lemma thread_runs_property self i pcs w :
  pcs !! i = Some AtTest →
  run_schedule self [i; i; i] (pcs, w) =
    (<[i := Returned (Database_sa_engine self w).1]> pcs,
     (Database_sa_engine self w).2).
Proof.
  intros Hi. assert (i < length pcs)%nat as Hlen by by eapply lookup_lt_Some.
  destruct (_engines w !! database_name self) as [engine|] eqn:He.
  - assert (Database_sa_engine self w
            = (Return engine, log (EvEngineReady engine) w)) as ->.
    { unfold Database_sa_engine. run. by rewrite He. }
    unfold run_schedule, sched_step. cbn. rewrite Hi. cbn. rewrite He.
    rewrite list_lookup_insert_eq by done. cbn. rewrite He. cbn.
    rewrite list_lookup_insert_eq by (by rewrite length_insert). cbn.
    by rewrite !list_insert_insert_eq.
  - assert (Database_sa_engine self w
            = (Return {| engine_database := database_name self;
                         engine_serial := engines_created w |},
               set_engines (<[database_name self :=
                                {| engine_database := database_name self;
                                   engine_serial := engines_created w |}]>)
                 (log (EvEngineCreate (database_name self))
                    (set_engines_created (S (engines_created w)) w)))) as ->.
    { unfold Database_sa_engine. run. by rewrite He. }
    unfold run_schedule, sched_step. cbn. rewrite Hi. cbn. rewrite He.
    rewrite list_lookup_insert_eq by done. cbn.
    rewrite list_lookup_insert_eq by (by rewrite length_insert). cbn.
    by rewrite !list_insert_insert_eq.
Qed.

(** ** Frames *)

Global Instance kept_preorder {S X} (f : S → X) : PreOrder (kept f).
Proof.
  split; [by intros s|]. intros s1 s2 s3. unfold kept. congruence.
Qed.

Global Instance quiet_preorder : PreOrder quiet.
Proof. split; [exact quiet_refl|exact quiet_trans]. Qed.

Global Instance in_world_preorder {Self} (R : relation World) :
  PreOrder R → PreOrder (in_world (Self:=Self) R).
Proof.
  intros HR. split; [by intros s; unfold in_world|].
  intros s1 s2 s3. unfold in_world. by etrans.
Qed.

Section Stays.
Context {S : Type} (R : relation S) `{!PreOrder R}.

Lemma stays_ret {A} (a : A) : stays R (mret a).
Proof. by intros s. Qed.

Lemma stays_raise {A} (e : exn) : stays R (raise e : M S A).
Proof. by intros s. Qed.

Lemma stays_gets {A} (g : S → A) : stays R (gets g).
Proof. by intros s. Qed.

Lemma stays_bind {A B} (m : M S A) (k : A → M S B) :
  stays R m → (∀ a, stays R (k a)) → stays R (m ≫= k).
Proof.
  intros Hm Hk s. specialize (Hm s). unfold mbind, M_bind.
  destruct (m s) as [[a|e] s1]; cbn in *; [|done].
  etrans; [done|apply Hk].
Qed.

Lemma stays_try_except {A} (body handler : M S A) catches :
  stays R body → stays R handler → stays R (try_except body catches handler).
Proof.
  intros Hb Hh s. specialize (Hb s). unfold try_except.
  destruct (body s) as [[a|e] s1]; cbn in *; [done|].
  destruct (catches e); [|done]. etrans; [done|apply Hh].
Qed.

Lemma stays_mapM {A B} (k : A → M S B) (l : list A) :
  (∀ a, stays R (k a)) → stays R (mapM k l).
Proof.
  intros Hk. induction l as [|a l IH]; cbn [mapM]; [apply stays_ret|].
  apply stays_bind; [done|]. intros b.
  apply stays_bind; [done|]. intros bs. apply stays_ret.
Qed.

End Stays.

Lemma keeps_pair {S A X Y} (f : S → X) (f' : S → Y) (m : M S A) :
  keeps f m → keeps f' m → keeps (λ s, (f s, f' s)) m.
Proof. intros Hm Hm' s. unfold kept. by rewrite Hm, Hm'. Qed.

Lemma ensures_bind {S A B X} (f : S → X) (P : X → outcome B → S → Prop)
    (m : M S A) (k : A → M S B) :
  keeps f m → (∀ a, ensures f P (k a)) → (∀ s e, P (f s) (Raise e) s) →
  ensures f P (m ≫= k).
Proof.
  intros Hm Hk HP s. specialize (Hm s). unfold mbind, M_bind, kept in *.
  destruct (m s) as [[a|e] s1]; cbn in *; rewrite <- Hm; [apply Hk|apply HP].
Qed.

Section StaysOfMethods.
Context {Self : Type}.

Lemma keeps_of_world {A X} (g : World → X) (m : M (Self * World) A) :
  stays (in_world (kept g)) m → keeps (of_world g) m.
Proof. done. Qed.

Lemma stays_lift {A} (R : relation World) (m : M World A) :
  stays R m → stays (in_world (Self:=Self) R) (lift m).
Proof.
  intros Hm s. specialize (Hm s.2). unfold lift, in_world.
  by destruct (m s.2) as [r w'].
Qed.

Lemma keeps_self_lift {A X} (h : Self → X) (m : M World A) :
  keeps (of_self h) (lift m).
Proof. intros s. unfold lift, kept, of_self. by destruct (m s.2). Qed.

Lemma stays_update_self (R : relation World) `{!PreOrder R}
    (u : Self → Self) :
  stays (in_world R) (update_self u).
Proof. intros s. unfold in_world. cbn. reflexivity. Qed.

Lemma stays_cached_property {A} (R : relation World) `{!PreOrder R}
    (slot : Self → option A) store func :
  stays (in_world R) func →
  stays (in_world R) (cached_property slot store func).
Proof.
  intros Hm s. specialize (Hm s). unfold cached_property, in_world in *.
  destruct (slot s.1); [reflexivity|]. by destruct (func s) as [[a|e] s1].
Qed.

Lemma keeps_self_cached_property {A X} (h : Self → X)
    (slot : Self → option A) store func :
  (∀ v self, h (store v self) = h self) →
  keeps (of_self h) func →
  keeps (of_self h) (cached_property slot store func).
Proof.
  intros Hs Hm s. specialize (Hm s). unfold cached_property, kept, of_self in *.
  destruct (slot s.1); [done|]. destruct (func s) as [[a|e] s1]; [|done].
  cbn in *. by rewrite Hs.
Qed.

Lemma stays_delattr {A} (R : relation World) `{!PreOrder R}
    (slot : Self → option A) store :
  stays (in_world R) (delattr slot store).
Proof.
  intros s. unfold delattr, in_world. destruct (slot s.1); cbn; reflexivity.
Qed.

Lemma keeps_self_delattr {A X} (h : Self → X) (slot : Self → option A) store :
  (∀ self, h (store None self) = h self) →
  keeps (of_self h) (delattr slot store).
Proof.
  intros Hs s. unfold delattr, kept, of_self. destruct (slot s.1); [|done].
  cbn. by rewrite Hs.
Qed.

End StaysOfMethods.

Lemma stays_on_table `{db : DbLayer} {A} (R : relation World)
    (m : M (TableObj * World) A) :
  stays (in_world R) m → stays (in_world R) (on_table m).
Proof.
  intros Hm [c w]. specialize (Hm (constraint_table c, w)).
  unfold on_table, in_world in *. cbn [fst snd] in *.
  by destruct (m _) as [r [t' w']].
Qed.

Lemma keeps_self_on_table `{db : DbLayer} {A}
    (m : M (TableObj * World) A) :
  keeps (of_self constraint_id) (on_table m).
Proof.
  intros [c w]. unfold on_table, kept, of_self. cbn [fst snd].
  by destruct (m _) as [r [t' w']].
Qed.

Section FramesOfTheWorld.
Context {X : Type} (g : World → X) `{!Frame g}.

Lemma keeps_log (e : event) : keeps g (modify (log e)).
Proof. intros w. apply frame_log. Qed.

Lemma keeps_Database_sa_engine self : keeps g (Database_sa_engine self).
Proof.
  intros w. unfold Database_sa_engine, kept. run.
  destruct (_engines w !! database_name self); cbn.
  - apply frame_log.
  - by rewrite frame_engines, frame_log, frame_engines_created.
Qed.

Lemma keeps_catalog_query {A} engine (q : Catalog → outcome A) :
  keeps g (catalog_query engine q).
Proof.
  intros w. unfold catalog_query, kept.
  destruct (catalogs w !! engine_database engine); [apply frame_log|done].
Qed.

Lemma keeps_cache_get key : keeps g (cache_get key).
Proof. intros w. apply frame_log. Qed.

End FramesOfTheWorld.

Lemma quiet_Database_sa_engine self : stays quiet (Database_sa_engine self).
Proof.
  intros w. unfold Database_sa_engine. run.
  destruct (_engines w !! database_name self); cbn.
  - by apply quiet_log.
  - split; [done|]. exists [EvEngineCreate (database_name self)].
    split; [done|]. by constructor.
Qed.

Lemma quiet_catalog_query {A} engine (q : Catalog → outcome A) :
  stays quiet (catalog_query engine q).
Proof.
  intros w. unfold catalog_query.
  destruct (catalogs w !! engine_database engine);
    [by apply quiet_log|apply quiet_refl].
Qed.

Lemma quiet_cache_get key : stays quiet (cache_get key).
Proof. intros w. by apply quiet_log. Qed.

Lemma keeps_registry_catalog_ddl {A} engine (op : M Catalog A) :
  keeps registry (catalog_ddl engine op).
Proof.
  intros w. unfold catalog_ddl, kept.
  destruct (catalogs w !! engine_database engine) as [cat|]; [|done].
  by destruct (op cat).
Qed.

Lemma keeps_cache_catalog_ddl {A} engine (op : M Catalog A) :
  keeps cache (catalog_ddl engine op).
Proof.
  intros w. unfold catalog_ddl, kept.
  destruct (catalogs w !! engine_database engine) as [cat|]; [|done].
  by destruct (op cat).
Qed.

Lemma keeps_registry_cache_set key value timeout :
  keeps registry (cache_set key value timeout).
Proof. by intros w. Qed.

Lemma keeps_catalogs_cache_set key value timeout :
  keeps catalogs (cache_set key value timeout).
Proof. by intros w. Qed.

Lemma keeps_catalogs_set_registry u :
  keeps catalogs (modify (set_registry u)).
Proof. by intros w. Qed.

Lemma stays_get_queryset_current `{db : DbLayer} (R : relation World)
    `{!PreOrder R} model :
  stays R (get_queryset current_objects model).
Proof. intros w. cbn. reflexivity. Qed.

Create HintDb frames.

Global Hint Resolve stays_ret stays_raise stays_gets keeps_self_lift
  stays_update_self stays_delattr keeps_self_on_table keeps_log
  keeps_Database_sa_engine keeps_catalog_query keeps_cache_get
  quiet_Database_sa_engine quiet_catalog_query quiet_cache_get
  keeps_registry_catalog_ddl keeps_cache_catalog_ddl
  keeps_registry_cache_set keeps_catalogs_cache_set
  keeps_catalogs_set_registry stays_get_queryset_current : frames.
Global Hint Extern 1 (Frame _) => exact _ : frames.
Global Hint Extern 1 (PreOrder _) => exact _ : frames.
Global Hint Extern 1 (stays _ get_self) => apply stays_gets : frames.

(** Splits a computation along its binds, handlers and branches, and leaves
    each step to the hints. *)
Ltac frame_step :=
  match goal with
  | |- keeps _ _ => unfold keeps
  | |- stays (kept (of_world ?g)) ?m => change (stays (in_world (kept g)) m)
  | |- stays (kept (λ s, (_, _))) _ => apply keeps_pair
  | |- stays _ (_ ≫= _) => apply stays_bind; [exact _| |intros ?]
  | |- stays (in_world _) (lift _) => apply stays_lift
  | |- stays _ (try_except _ _ _) => apply stays_try_except; [exact _| |]
  | |- stays (in_world _) (cached_property _ _ _) =>
      apply stays_cached_property; [exact _|]
  | |- stays (kept (of_self _)) (cached_property _ _ _) =>
      apply keeps_self_cached_property; [done|]
  | |- stays (kept (of_self _)) (delattr _ _) =>
      apply keeps_self_delattr; done
  | |- stays (in_world _) (on_table _) => apply stays_on_table
  | |- stays _ (mapM _ _) => apply stays_mapM; [exact _|intros ?]
  | |- stays _ (match ?x with _ => _ end) => destruct x
  end.

Ltac frame :=
  repeat frame_step;
  try solve [eauto with frames];
  try match goal with |- stays (kept ?f) ?m => change (keeps f m) end;
  eauto with frames.

Lemma keeps_Table_sa_engine `{db : DbLayer} {X} (g : World → X) `{!Frame g} :
  stays (in_world (kept g)) Table_sa_engine.
Proof. unfold Table_sa_engine, Schema_sa_engine. frame. Qed.

Lemma keeps_Table_sa_table `{db : DbLayer} {X} (g : World → X) `{!Frame g} :
  stays (in_world (kept g)) Table_sa_table.
Proof.
  unfold Table_sa_table, Schema_sa_engine, reflect_table_from_oid. frame.
Qed.

Lemma quiet_Table_sa_engine `{db : DbLayer} :
  stays (in_world quiet) Table_sa_engine.
Proof. unfold Table_sa_engine, Schema_sa_engine. frame. Qed.

Lemma quiet_Table_sa_table `{db : DbLayer} :
  stays (in_world quiet) Table_sa_table.
Proof.
  unfold Table_sa_table, Schema_sa_engine, reflect_table_from_oid. frame.
Qed.

Global Hint Resolve keeps_Table_sa_engine keeps_Table_sa_table
  quiet_Table_sa_engine quiet_Table_sa_table : frames.

Lemma keeps_Constraint_name `{db : DbLayer} {X} (g : World → X) `{!Frame g} :
  stays (in_world (kept g)) Constraint_name.
Proof.
  unfold Constraint_name, Constraint_sa_constraint, get_constraint_from_oid.
  frame.
Qed.

Lemma keeps_self_Constraint_name `{db : DbLayer} :
  keeps (of_self constraint_id) Constraint_name.
Proof. unfold Constraint_name, Constraint_sa_constraint. frame. Qed.

Lemma keeps_Column_get `{db : DbLayer} {X} (g : World → X) `{!Frame g} id :
  keeps g (Column_get current_objects id).
Proof. unfold Column_get. frame. Qed.

Global Hint Resolve keeps_Constraint_name keeps_self_Constraint_name
  keeps_Column_get : frames.

(** ** The engine cache, further *)

Lemma Database_sa_engine_cached self w engine :
  _engines w !! database_name self = Some engine →
  Database_sa_engine self w = (Return engine, log (EvEngineReady engine) w).
Proof. intros He. unfold Database_sa_engine. run. by rewrite He. Qed.

Lemma Database_sa_engine_uncached self w :
  _engines w !! database_name self = None →
  let engine := {| engine_database := database_name self;
                   engine_serial := engines_created w |} in
  Database_sa_engine self w =
    (Return engine,
     set_engines (<[database_name self := engine]>)
       (log (EvEngineCreate (database_name self))
          (set_engines_created (S (engines_created w)) w))).
Proof. intros He. unfold Database_sa_engine. run. by rewrite He. Qed.

(** X1 (the engine cache only grows).  Any sequence of accesses to the
    engines of any databases returns a handle for each access and never
    raises.  Every access returns the handle the cache ends with under the
    name of its database, so all accesses for one name return one handle; an
    entry the cache had is neither replaced nor evicted; and exactly one
    engine is built for each name, among those accessed, that the cache did
    not have.  (The property writes [_engines] in its first branch only; the
    readiness probe is given the handle, not the dict.) *)
Theorem engine_cache_grows_only (selves : list DatabaseObj) (w : World) :
  ∃ engines w',
    engine_accesses selves w = (Return engines, w') ∧
    Forall2 (λ self engine, _engines w' !! database_name self = Some engine)
      selves engines ∧
    (∀ name engine,
       _engines w !! name = Some engine → _engines w' !! name = Some engine) ∧
    engines_created w' =
      (engines_created w + size (uncached_names selves w))%nat.
Proof.
  revert w. induction selves as [|self selves IH]; intros w.
  - exists [], w. split_and!; [done|constructor|done|].
    unfold uncached_names. cbn. rewrite difference_disjoint_L by set_solver.
    rewrite size_empty. lia.
  - unfold engine_accesses. cbn [mapM]. run.
    destruct (_engines w !! database_name self) as [engine|] eqn:He.
    + rewrite (Database_sa_engine_cached _ _ _ He).
      destruct (IH (log (EvEngineReady engine) w))
        as (engines & w' & Hrun & Hall & Hkeep & Hcount).
      unfold engine_accesses in Hrun. rewrite Hrun.
      exists (engine :: engines), w'. split_and!; [done| |done|].
      * constructor; [|done]. by apply Hkeep.
      * rewrite Hcount. cbn. f_equal. f_equal. unfold uncached_names. cbn.
        apply set_eq. intros n. rewrite !elem_of_difference, elem_of_union.
        rewrite elem_of_singleton, !elem_of_dom.
        split; [naive_solver|]. intros [[->|?] Hn]; [|done].
        rewrite He in Hn. by destruct Hn.
    + rewrite (Database_sa_engine_uncached _ _ He). cbn zeta.
      set (engine := {| engine_database := database_name self;
                        engine_serial := engines_created w |}).
      set (w1 := set_engines _ _).
      destruct (IH w1) as (engines & w' & Hrun & Hall & Hkeep & Hcount).
      unfold engine_accesses in Hrun. rewrite Hrun.
      exists (engine :: engines), w'. split_and!; [done| | |].
      * constructor; [|done]. apply Hkeep. subst w1. cbn.
        apply lookup_insert_eq.
      * intros name e Hn. apply Hkeep. subst w1. cbn.
        rewrite lookup_insert_ne; [done|]. intros <-. congruence.
      * rewrite Hcount. subst w1. cbn.
        assert (uncached_names (self :: selves) w
                = {[database_name self]} ∪
                  uncached_names selves
                    (set_engines (<[database_name self := engine]>)
                       (log (EvEngineCreate (database_name self))
                          (set_engines_created (S (engines_created w)) w))))
          as ->.
        { unfold uncached_names. cbn. rewrite dom_insert_L.
          apply set_eq. intros n.
          rewrite !elem_of_union, !elem_of_difference, !elem_of_union,
            !elem_of_singleton, !elem_of_dom.
          destruct (decide (n = database_name self)) as [->|Hne].
          - rewrite He. split; [naive_solver|]. intros _. split; [by left|].
            by intros [? ?].
          - naive_solver. }
        rewrite size_union, size_singleton; [lia|].
        unfold uncached_names. cbn. rewrite dom_insert_L. set_solver.
Qed.

Lemma pending_insert (l : list pc) i x y :
  l !! i = Some x →
  (pending (<[i:=y]> l) + before_create x = pending l + before_create y)%nat.
Proof.
  revert i. induction l as [|a l IH]; intros [|i] Hi; try done.
  - injection Hi as ->. cbn [pending]. change (<[0%nat:=y]> (x :: l)) with (y :: l).
    cbn [pending]. lia.
  - specialize (IH i Hi). change (<[S i:=y]> (a :: l)) with (a :: <[i:=y]> l).
    cbn [pending]. lia.
Qed.

Lemma sched_step_safe self i c bound :
  Forall (pc_safe self c.2) c.1 →
  (engines_created c.2 + pending c.1 ≤ bound)%nat →
  let c' := sched_step self i c in
  Forall (pc_safe self c'.2) c'.1 ∧
  (engines_created c'.2 + pending c'.1 ≤ bound)%nat.
Proof.
  destruct c as [pcs w]. cbn [fst snd]. intros Hsafe Hcount.
  unfold sched_step. cbn [fst snd].
  destruct (pcs !! i) as [at_|] eqn:Hi; [|done].
  pose proof (pending_insert pcs i at_) as Hsum.
  pose proof (proj1 (Forall_lookup _ _) Hsafe i at_ Hi) as Hat.
  destruct at_ as [| |engine| |engine|r]; cbn [thread_step].
  - destruct (_engines w !! database_name self) as [e|] eqn:He; cbn [fst snd].
    + split; [by apply Forall_insert; [|cbn; rewrite He]|].
      specialize (Hsum AtFetch Hi). cbn in Hsum. lia.
    + split; [by apply Forall_insert|].
      specialize (Hsum AtCreate Hi). cbn in Hsum. lia.
  - cbn [fst snd].
    split.
    + apply Forall_insert; [|done].
      eapply Forall_impl; [exact Hsafe|]. by intros [].
    + specialize (Hsum (AtStore {| engine_database := database_name self;
                                   engine_serial := engines_created w |}) Hi).
      cbn in *. lia.
  - cbn [fst snd]. split.
    + apply Forall_insert; [|done].
      eapply Forall_impl; [exact Hsafe|]. intros []; cbn; try done.
      intros _. rewrite lookup_insert_eq. by eexists.
    + specialize (Hsum (Returned (Return engine)) Hi). cbn in *. lia.
  - cbn in Hat. destruct Hat as [e He]. rewrite He. cbn [fst snd].
    split; [by apply Forall_insert|].
    specialize (Hsum (AtReady e) Hi). cbn in *. lia.
  - cbn [fst snd]. split.
    + apply Forall_insert; [|done].
      eapply Forall_impl; [exact Hsafe|]. by intros [].
    + specialize (Hsum (Returned (Return engine)) Hi). cbn in *. lia.
  - cbn [fst snd]. rewrite list_insert_id by done. done.
Qed.

Lemma run_schedule_safe self schedule c bound :
  Forall (pc_safe self c.2) c.1 →
  (engines_created c.2 + pending c.1 ≤ bound)%nat →
  let c' := run_schedule self schedule c in
  Forall (pc_safe self c'.2) c'.1 ∧
  (engines_created c'.2 + pending c'.1 ≤ bound)%nat.
Proof.
  revert c. induction schedule as [|i schedule IH]; intros c Hsafe Hcount;
    [done|].
  cbn. destruct (sched_step_safe self i c bound Hsafe Hcount) as [H1 H2].
  by apply IH.
Qed.

Lemma first_accesses_stay_safe (self : DatabaseObj) (n : nat)
    (schedule : list nat) (w : World) :
  let c := run_schedule self schedule (first_accesses n w) in
  Forall (λ at_, ∀ r, at_ = Returned r → ∃ engine, r = Return engine) c.1 ∧
  (engines_created c.2 ≤ engines_created w + n)%nat.
Proof.
  destruct (run_schedule_safe self schedule (first_accesses n w)
              (engines_created w + n)) as [Hsafe Hcount].
  - cbn. by apply Forall_replicate.
  - cbn. assert (pending (replicate n AtTest) = n) as ->;
      [|lia].
    induction n as [|n IH]; [done|]. cbn. by rewrite IH.
  - cbn zeta. split; [|lia].
    eapply Forall_impl; [exact Hsafe|].
    intros at_ Hat r ->. destruct r as [engine|e]; [by eexists|done].
Qed.

Lemma sched_step_reuses self engine i c :
  _engines c.2 !! database_name self = Some engine →
  Forall (pc_reuses engine) c.1 →
  let c' := sched_step self i c in
  _engines c'.2 !! database_name self = Some engine ∧
  Forall (pc_reuses engine) c'.1 ∧
  engines_created c'.2 = engines_created c.2 ∧
  _engines c'.2 = _engines c.2.
Proof.
  destruct c as [pcs w]. cbn [fst snd]. intros He Hall.
  unfold sched_step. cbn [fst snd].
  destruct (pcs !! i) as [at_|] eqn:Hi; [|done].
  pose proof (proj1 (Forall_lookup _ _) Hall i at_ Hi) as Hat.
  destruct at_ as [| |e| |e|r]; cbn [thread_step]; try done.
  - rewrite He. cbn [fst snd]. split_and!; try done. by apply Forall_insert.
  - rewrite He. cbn [fst snd]. split_and!; try done. by apply Forall_insert.
  - cbn [fst snd]. split_and!; try done. by apply Forall_insert.
  - cbn [fst snd]. rewrite list_insert_id by done. done.
Qed.

(** X3 (a cached engine is reused under every interleaving).  When the
    cache has a handle for the database, then however the statements of the
    threads that read [_sa_engine] interleave, no engine is built, the cache
    is as it was, and every thread that has returned has returned that
    handle. *)
Theorem cached_engine_reused_under_any_schedule (self : DatabaseObj)
    (engine : Engine) (n : nat) (schedule : list nat) (w : World) :
  _engines w !! database_name self = Some engine →
  let c := run_schedule self schedule (first_accesses n w) in
  engines_created c.2 = engines_created w ∧
  _engines c.2 = _engines w ∧
  Forall (λ at_, ∀ r, at_ = Returned r → r = Return engine) c.1.
Proof.
  intros He. cbn zeta.
  assert (∀ c, _engines c.2 !! database_name self = Some engine →
               Forall (pc_reuses engine) c.1 →
               let c' := run_schedule self schedule c in
               engines_created c'.2 = engines_created c.2 ∧
               _engines c'.2 = _engines c.2 ∧
               Forall (pc_reuses engine) c'.1) as Hrun.
  { induction schedule as [|i schedule IH]; intros c Hc Hall; [done|].
    cbn. destruct (sched_step_reuses self engine i c Hc Hall)
      as (H1 & H2 & H3 & H4).
    destruct (IH _ H1 H2) as (H5 & H6 & H7).
    split_and!; [by etrans|by etrans|done]. }
  destruct (Hrun (first_accesses n w)) as (H1 & H2 & H3).
  - done.
  - cbn. by apply Forall_replicate.
  - split_and!; [done..|].
    eapply Forall_impl; [exact H3|].
    intros at_ Hat r ->. cbn in Hat. destruct r; [by subst|done].
Qed.

Lemma sched_step_progress self i c at_ :
  c.1 !! i = Some at_ →
  ∃ at', (sched_step self i c).1 !! i = Some at' ∧
         (steps_left at' ≤ pred (steps_left at_))%nat.
Proof.
  destruct c as [pcs w]. cbn [fst snd]. intros Hi.
  assert (i < length pcs)%nat as Hlen by by eapply lookup_lt_Some.
  unfold sched_step. cbn [fst snd]. rewrite Hi.
  destruct (thread_step self at_ w) as [at' w'] eqn:Hstep. cbn [fst].
  exists at'. split; [by apply list_lookup_insert_eq|].
  destruct at_ as [| |e| |e|r]; cbn in Hstep.
  - destruct (_engines w !! _); injection Hstep as <- _; cbn; lia.
  - injection Hstep as <- _; cbn; lia.
  - injection Hstep as <- _; cbn; lia.
  - destruct (_engines w !! _); injection Hstep as <- _; cbn; lia.
  - injection Hstep as <- _; cbn; lia.
  - injection Hstep as <- _; cbn; lia.
Qed.

Lemma sched_step_other self i j c :
  i ≠ j → (sched_step self j c).1 !! i = c.1 !! i.
Proof.
  intros Hne. unfold sched_step. destruct (c.1 !! j) as [at_|]; [|done].
  destruct (thread_step self at_ c.2) as [at' w']. cbn [fst].
  by apply list_lookup_insert_ne.
Qed.

Lemma run_schedule_progress self i schedule : ∀ c at_ k,
  c.1 !! i = Some at_ →
  (steps_left at_ ≤ k)%nat →
  (k ≤ length (filter (λ j, j = i) schedule))%nat →
  ∃ r, (run_schedule self schedule c).1 !! i = Some (Returned r).
Proof.
  induction schedule as [|j schedule IH]; intros c at_ k Hi Hk Hcount.
  - cbn in Hcount. destruct at_; cbn in Hk; try lia. by exists r.
  - cbn [run_schedule foldl].
    change (foldl (λ c i, sched_step self i c) (sched_step self j c) schedule)
      with (run_schedule self schedule (sched_step self j c)).
    rewrite filter_cons in Hcount. case_decide as Hj.
    + subst j. destruct (sched_step_progress self i c at_ Hi)
        as (at' & Hi' & Hleft).
      apply (IH _ at' (pred k)); [done|lia|]. cbn in Hcount. lia.
    + apply (IH _ at_ k); [|done|done].
      by rewrite sched_step_other.
Qed.

(** X2 (first accesses under every interleaving).  However the statements
    of [n] threads that read [_sa_engine] of one database interleave: a
    thread that has returned has returned a handle (none raises, and the
    fetch of [_engines[self.name]] never misses); at most [n] engines are
    built; and a thread that was scheduled three times has returned. *)
Theorem any_schedule_is_safe (self : DatabaseObj) (n : nat)
    (schedule : list nat) (w : World) :
  let c := run_schedule self schedule (first_accesses n w) in
  Forall (λ at_, ∀ r, at_ = Returned r → ∃ engine, r = Return engine) c.1 ∧
  (engines_created c.2 ≤ engines_created w + n)%nat ∧
  ∀ i, (i < n)%nat → (3 ≤ length (filter (λ j, j = i) schedule))%nat →
       ∃ engine, c.1 !! i = Some (Returned (Return engine)).
Proof.
  destruct (first_accesses_stay_safe self n schedule w) as [Hsafe Hcount].
  cbn zeta in *. split_and!; [done..|].
  intros i Hi Hruns.
  destruct (run_schedule_progress self i schedule (first_accesses n w)
              AtTest 3%nat) as [r Hr]; [|done..|].
  { cbn. by apply lookup_replicate_2. }
  rewrite Hr. destruct (proj1 (Forall_lookup _ _) Hsafe i _ Hr r eq_refl)
    as [engine ->].
  by exists engine.
Qed.

Lemma creating_insert (l : list pc) i x y :
  l !! i = Some x →
  (creating (<[i:=y]> l) + about_to_create x
   = creating l + about_to_create y)%nat.
Proof.
  revert i. induction l as [|a l IH]; intros [|i] Hi; try done.
  - injection Hi as ->. change (<[0%nat:=y]> (x :: l)) with (y :: l).
    cbn [creating]. lia.
  - specialize (IH i Hi). change (<[S i:=y]> (a :: l)) with (a :: <[i:=y]> l).
    cbn [creating]. lia.
Qed.

Lemma creating_returned pcs :
  Forall (λ at_, ∃ r, at_ = Returned r) pcs → creating pcs = 0%nat.
Proof.
  induction 1 as [|at_ pcs [r ->] _ IH]; [done|]. cbn. by rewrite IH.
Qed.

Lemma sched_step_length self i c :
  length (sched_step self i c).1 = length c.1.
Proof.
  unfold sched_step. destruct (c.1 !! i) as [at_|]; [|done].
  destruct (thread_step self at_ c.2). cbn. by rewrite length_insert.
Qed.

Lemma run_schedule_length self schedule : ∀ c,
  length (run_schedule self schedule c).1 = length c.1.
Proof.
  induction schedule as [|i schedule IH]; intros c; [done|].
  cbn. etrans; [apply IH|]. apply sched_step_length.
Qed.

Lemma sched_step_outside self i c :
  (length c.1 ≤ i)%nat → sched_step self i c = c.
Proof.
  intros Hi. unfold sched_step. by rewrite lookup_ge_None_2.
Qed.

Lemma run_schedule_cons self i schedule c :
  run_schedule self (i :: schedule) c
  = run_schedule self schedule (sched_step self i c).
Proof. reflexivity. Qed.

(** A thread that the configuration does not have takes no step. *)
Lemma run_schedule_among self schedule : ∀ c,
  run_schedule self schedule c
  = run_schedule self (scheduled_among (length c.1) schedule) c.
Proof.
  unfold scheduled_among.
  induction schedule as [|i schedule IH]; intros c; [done|].
  rewrite filter_cons. case_decide as Hi.
  - rewrite !run_schedule_cons, IH. by rewrite sched_step_length.
  - rewrite run_schedule_cons, sched_step_outside by lia. apply IH.
Qed.

Lemma run_schedule_reuses self engine schedule : ∀ c,
  _engines c.2 !! database_name self = Some engine →
  Forall (pc_reuses engine) c.1 →
  let c' := run_schedule self schedule c in
  engines_created c'.2 = engines_created c.2 ∧
  Forall (pc_reuses engine) c'.1.
Proof.
  induction schedule as [|i schedule IH]; intros c Hc Hall; [done|].
  cbn. destruct (sched_step_reuses self engine i c Hc Hall)
    as (H1 & H2 & H3 & H4).
  destruct (IH _ H1 H2) as (H5 & H6).
  split; [by etrans|done].
Qed.

(** No step takes back a construction, made or about to be made. *)
Lemma sched_step_creating self i c :
  (engines_created c.2 + creating c.1
   ≤ engines_created (sched_step self i c).2
     + creating (sched_step self i c).1)%nat.
Proof.
  destruct c as [pcs w]. unfold sched_step. cbn [fst snd].
  destruct (pcs !! i) as [at_|] eqn:Hi; [|done].
  pose proof (creating_insert pcs i at_) as Hsum.
  destruct at_ as [| |engine| |engine|r]; cbn [thread_step].
  - destruct (_engines w !! database_name self); cbn [fst snd].
    + specialize (Hsum AtFetch Hi). cbn in Hsum. lia.
    + specialize (Hsum AtCreate Hi). cbn in Hsum. lia.
  - cbn [fst snd].
    specialize (Hsum (AtStore {| engine_database := database_name self;
                                 engine_serial := engines_created w |}) Hi).
    cbn in *. lia.
  - cbn [fst snd]. specialize (Hsum (Returned (Return engine)) Hi).
    cbn in *. lia.
  - destruct (_engines w !! database_name self) as [e|]; cbn [fst snd].
    + specialize (Hsum (AtReady e) Hi). cbn in *. lia.
    + specialize (Hsum (Returned (Raise KeyError)) Hi). cbn in *. lia.
  - cbn [fst snd]. specialize (Hsum (Returned (Return engine)) Hi).
    cbn in *. lia.
  - cbn [fst snd]. rewrite list_insert_id by done. done.
Qed.

Lemma run_schedule_creating self schedule : ∀ c,
  (engines_created c.2 + creating c.1
   ≤ engines_created (run_schedule self schedule c).2
     + creating (run_schedule self schedule c).1)%nat.
Proof.
  induction schedule as [|i schedule IH]; intros c; [done|].
  cbn. etrans; [apply sched_step_creating|]. apply IH.
Qed.

(** A step of the thread [j] takes the thread [i] one statement on when it
    is [i], and leaves it where it is otherwise. *)
Lemma sched_step_one_statement self i j c at_ :
  Forall (pc_safe self c.2) c.1 →
  c.1 !! i = Some at_ →
  ∃ at', (sched_step self j c).1 !! i = Some at' ∧
         (steps_left at_
          ≤ steps_left at' + (if decide (j = i) then 1 else 0))%nat.
Proof.
  intros Hsafe Hi. destruct (decide (j = i)) as [->|Hne].
  - destruct c as [pcs w]. cbn [fst snd] in *.
    assert (i < length pcs)%nat as Hlen by by eapply lookup_lt_Some.
    pose proof (proj1 (Forall_lookup _ _) Hsafe i at_ Hi) as Hat.
    unfold sched_step. cbn [fst snd]. rewrite Hi.
    destruct (thread_step self at_ w) as [at' w'] eqn:Hstep. cbn [fst].
    exists at'. split; [by apply list_lookup_insert_eq|].
    destruct at_ as [| |e| |e|r]; cbn in Hstep.
    + destruct (_engines w !! _); injection Hstep as <- _; cbn; lia.
    + injection Hstep as <- _; cbn; lia.
    + injection Hstep as <- _; cbn; lia.
    + cbn in Hat. destruct Hat as [e He]. rewrite He in Hstep.
      injection Hstep as <- _; cbn; lia.
    + injection Hstep as <- _; cbn; lia.
    + injection Hstep as <- _; cbn; lia.
  - exists at_. split; [|lia]. rewrite sched_step_other by done. done.
Qed.

(** A thread has run no more statements than the schedule gave it. *)
Lemma run_schedule_statements self i schedule : ∀ c at_,
  Forall (pc_safe self c.2) c.1 →
  c.1 !! i = Some at_ →
  ∃ at', (run_schedule self schedule c).1 !! i = Some at' ∧
         (steps_left at_ ≤ steps_left at' + times_scheduled i schedule)%nat.
Proof.
  unfold times_scheduled.
  induction schedule as [|j schedule IH]; intros c at_ Hsafe Hi.
  - exists at_. split; [done|]. cbn. lia.
  - cbn [run_schedule foldl].
    change (foldl (λ c i, sched_step self i c) (sched_step self j c) schedule)
      with (run_schedule self schedule (sched_step self j c)).
    destruct (sched_step_one_statement self i j c at_ Hsafe Hi)
      as (at1 & Hi1 & Hleft1).
    destruct (sched_step_safe self j c
                (engines_created c.2 + pending c.1) Hsafe (le_n _))
      as [Hsafe1 _].
    destruct (IH _ at1 Hsafe1 Hi1) as (at' & Hi' & Hleft').
    exists at'. split; [done|].
    rewrite filter_cons. case_decide; cbn [length]; lia.
Qed.

Lemma first_accesses_safe self n w :
  Forall (pc_safe self (first_accesses n w).2) (first_accesses n w).1.
Proof. cbn. by apply Forall_replicate. Qed.

(** Threads that have all returned were each given three statements. *)
Lemma all_returned_were_scheduled self n schedule w i :
  all_returned (run_schedule self schedule (first_accesses n w)) →
  (i < n)%nat → (3 ≤ times_scheduled i schedule)%nat.
Proof.
  intros Hall Hi.
  destruct (run_schedule_statements self i schedule (first_accesses n w)
              AtTest (first_accesses_safe self n w))
    as (at' & Hi' & Hleft).
  { cbn. by apply lookup_replicate_2. }
  pose proof (proj1 (Forall_lookup _ _) Hall i at' Hi') as [r ->].
  cbn in Hleft. lia.
Qed.

Lemma sched_step_at self i pcs w at_ :
  pcs !! i = Some at_ →
  sched_step self i (pcs, w)
  = (<[i := (thread_step self at_ w).1]> pcs, (thread_step self at_ w).2).
Proof.
  intros Hi. unfold sched_step. cbn [fst snd]. rewrite Hi.
  by destruct (thread_step self at_ w).
Qed.

(** Two constructions are on their way as soon as a second thread tests
    before the first has stored. *)
Lemma second_test_before_store self n w i j rest :
  _engines w !! database_name self = None →
  (i < n)%nat → (j < n)%nat → i ≠ j →
  let c := run_schedule self (i :: j :: rest) (first_accesses n w) in
  let c' := run_schedule self (i :: i :: j :: rest) (first_accesses n w) in
  (engines_created w + 2 ≤ engines_created c.2 + creating c.1)%nat ∧
  (engines_created w + 2 ≤ engines_created c'.2 + creating c'.1)%nat.
Proof.
  intros He Hi Hj Hne. cbn zeta. unfold first_accesses.
  set (pcs := replicate n AtTest).
  assert (pcs !! i = Some AtTest) as Hli by by apply lookup_replicate_2.
  assert (pcs !! j = Some AtTest) as Hlj by by apply lookup_replicate_2.
  assert (i < length pcs)%nat as Hlen by by eapply lookup_lt_Some.
  assert (thread_step self AtTest w = (AtCreate, w)) as Htest
    by (cbn; by rewrite He).
  pose proof (creating_insert pcs i AtTest AtCreate Hli) as H1.
  split.
  - rewrite !run_schedule_cons.
    etrans; [|apply (run_schedule_creating self rest)].
    rewrite (sched_step_at _ _ _ _ _ Hli), Htest. cbn [fst snd].
    assert (<[i:=AtCreate]> pcs !! j = Some AtTest) as Hlj'
      by by rewrite list_lookup_insert_ne.
    rewrite (sched_step_at _ _ _ _ _ Hlj'), Htest. cbn [fst snd].
    pose proof (creating_insert _ j AtTest AtCreate Hlj') as H2.
    cbn in H1, H2. lia.
  - rewrite !run_schedule_cons.
    etrans; [|apply (run_schedule_creating self rest)].
    rewrite (sched_step_at _ _ _ _ _ Hli), Htest. cbn [fst snd].
    assert (<[i:=AtCreate]> pcs !! i = Some AtCreate) as Hli'
      by by apply list_lookup_insert_eq.
    set (e := {| engine_database := database_name self;
                 engine_serial := engines_created w |}).
    set (w1 := log (EvEngineCreate (database_name self))
                 (set_engines_created (S (engines_created w)) w)).
    assert (thread_step self AtCreate w = (AtStore e, w1)) as Hcreate
      by reflexivity.
    rewrite (sched_step_at _ _ _ _ _ Hli'), Hcreate. cbn [fst snd].
    assert (_engines w1 !! database_name self = None) as He1 by done.
    assert (engines_created w1 = S (engines_created w)) as Hc1 by done.
    assert (<[i:=AtStore e]> (<[i:=AtCreate]> pcs) !! j = Some AtTest)
      as Hlj' by by rewrite !list_lookup_insert_ne.
    rewrite (sched_step_at _ _ _ _ _ Hlj'). cbn [thread_step]. rewrite He1.
    cbn [fst snd].
    pose proof (creating_insert _ i AtCreate (AtStore e) Hli') as H2.
    pose proof (creating_insert _ j AtTest AtCreate Hlj') as H3.
    cbn in H1, H2, H3. lia.
Qed.

(** Once one of the first accesses has tested, built and stored alone, the
    others reuse its handle however they interleave. *)
Lemma first_access_alone_then_reuse self n w i rest :
  _engines w !! database_name self = None → (i < n)%nat →
  let engine := {| engine_database := database_name self;
                   engine_serial := engines_created w |} in
  let c := run_schedule self (i :: i :: i :: rest) (first_accesses n w) in
  engines_created c.2 = S (engines_created w) ∧
  Forall (pc_reuses engine) c.1.
Proof.
  intros He Hi engine.
  change (i :: i :: i :: rest) with ([i; i; i] ++ rest).
  rewrite run_schedule_app. unfold first_accesses.
  rewrite thread_runs_property by by apply lookup_replicate_2.
  rewrite Database_sa_engine_uncached by done. cbn [fst snd]. fold engine.
  cbn zeta.
  match goal with
  | |- context [run_schedule self rest ?c0] =>
      destruct (run_schedule_reuses self engine rest c0) as [Hcount Hall]
  end.
  - cbn. apply lookup_insert_eq.
  - cbn [fst]. apply Forall_insert; [|done]. by apply Forall_replicate.
  - cbn zeta in Hcount, Hall. by rewrite Hcount.
Qed.

(** C9, as amended (engine handles under concurrent first accesses).  The
    property takes no lock.  When one of the first accesses to the engine
    of a database that has none yet runs its test, its construction and its
    store before any other access takes a step, then however the statements
    that follow interleave, exactly one handle is constructed and every
    access that has returned has returned it.  The accesses all return, with
    exactly one handle constructed and returned by every one of them, exactly
    when the schedule starts in this way and gives every access its three
    statements. *)
Theorem first_access_alone_single_flight (self : DatabaseObj) (n : nat)
    (schedule : list nat) (w : World) :
  _engines w !! database_name self = None →
  let c := run_schedule self schedule (first_accesses n w) in
  (∀ i rest,
     scheduled_among n schedule = i :: i :: i :: rest →
     engines_created c.2 = S (engines_created w) ∧
     ∃ engine,
       Forall (λ at_, ∀ r, at_ = Returned r → r = Return engine) c.1) ∧
  (all_returned c ∧ single_flight w c ↔
   (∃ i rest, scheduled_among n schedule = i :: i :: i :: rest) ∧
   ∀ i, (i < n)%nat → (3 ≤ times_scheduled i schedule)%nat).
Proof.
  intros He c.
  assert (c = run_schedule self (scheduled_among n schedule)
                (first_accesses n w)) as Hc.
  { subst c. rewrite run_schedule_among. cbn [first_accesses fst].
    by rewrite length_replicate. }
  assert (∀ i, i ∈ scheduled_among n schedule → (i < n)%nat) as Hamong.
  { intros i Hi. by apply list_elem_of_filter in Hi as [? _]. }
  assert (∀ i rest,
            scheduled_among n schedule = i :: i :: i :: rest →
            engines_created c.2 = S (engines_created w) ∧
            Forall (pc_reuses {| engine_database := database_name self;
                                 engine_serial := engines_created w |}) c.1)
    as Hreuse.
  { intros i rest Hs. rewrite Hc, Hs.
    apply first_access_alone_then_reuse; [done|].
    apply Hamong. rewrite Hs. by left. }
  split; [|split].
  - intros i rest Hs. destruct (Hreuse i rest Hs) as [Hcount Hall].
    split; [done|]. eexists.
    eapply Forall_impl; [exact Hall|].
    intros at_ Hat r ->. cbn in Hat. destruct r; [by subst|done].
  - intros [Hall [Hcount [engine Hsame]]]. split.
    + pose proof Hall as Hall'. rewrite Hc in Hall'.
      assert (∀ i, (i < n)%nat →
                (3 ≤ times_scheduled i (scheduled_among n schedule))%nat)
        as Hthree.
      { intros i Hi. by eapply all_returned_were_scheduled. }
      assert (creating c.1 = 0%nat) as Hnone by by apply creating_returned.
      destruct (scheduled_among n schedule) as [|i [|j [|k rest]]] eqn:Hs.
      * exfalso. rewrite Hc in Hcount. cbn in Hcount. lia.
      * exfalso. assert (i < n)%nat as Hi by (apply Hamong; by left).
        specialize (Hthree i Hi). unfold times_scheduled in Hthree.
        rewrite filter_cons in Hthree. case_decide; cbn in Hthree; lia.
      * exfalso. assert (i < n)%nat as Hi by (apply Hamong; by left).
        assert (j < n)%nat as Hj by (apply Hamong; right; by left).
        destruct (decide (i = j)) as [<-|Hne].
        -- specialize (Hthree i Hi). unfold times_scheduled in Hthree.
           rewrite !filter_cons in Hthree.
           repeat case_decide; cbn in Hthree; lia.
        -- destruct (second_test_before_store self n w i j [] He Hi Hj Hne)
             as [Htwo _].
           rewrite <- Hc in Htwo. lia.
      * assert (i < n)%nat as Hi by (apply Hamong; by left).
        assert (j < n)%nat as Hj by (apply Hamong; right; by left).
        assert (k < n)%nat as Hk by (apply Hamong; right; right; by left).
        destruct (decide (i = j)) as [<-|Hne].
        -- destruct (decide (i = k)) as [<-|Hne']; [by eexists _, _|].
           exfalso.
           destruct (second_test_before_store self n w i k rest He Hi Hk Hne')
             as [_ Htwo].
           rewrite <- Hc in Htwo. lia.
        -- exfalso.
           destruct (second_test_before_store self n w i j (k :: rest)
                       He Hi Hj Hne) as [Htwo _].
           rewrite <- Hc in Htwo. lia.
    + intros i Hi. by eapply all_returned_were_scheduled.
  - intros [(i & rest & Hs) Hthree].
    destruct (Hreuse i rest Hs) as [Hcount Hall].
    assert (length c.1 = n) as Hlen.
    { subst c. rewrite run_schedule_length. cbn. apply length_replicate. }
    assert (∀ k at_, c.1 !! k = Some at_ →
              at_ = Returned (Return {| engine_database := database_name self;
                                        engine_serial := engines_created w |}))
      as Hreturned.
    { intros k at_ Hk.
      assert (k < n)%nat as Hkn.
      { rewrite <- Hlen. by eapply lookup_lt_Some. }
      destruct (run_schedule_progress self k schedule (first_accesses n w)
                  AtTest 3%nat) as [r Hr].
      { cbn. by apply lookup_replicate_2. }
      { done. }
      { apply (Hthree k Hkn). }
      assert (c.1 !! k = Some (Returned r)) as Hr' by exact Hr.
      rewrite Hk in Hr'. injection Hr' as Heq. subst at_.
      pose proof (proj1 (Forall_lookup _ _) Hall k _ Hk) as Hat.
      cbn in Hat. destruct r; [by rewrite Hat|done]. }
    split; [|split; [done|]].
    + apply Forall_lookup. intros k at_ Hk. rewrite (Hreturned k at_ Hk).
      by eexists.
    + eexists. apply Forall_lookup. intros k at_ Hk.
      by apply (Hreturned k).
Qed.

(** ** Schema names, further *)

Lemma pretty_N_char_underscore x : pretty_N_char x ≠ "_"%char.
Proof. unfold pretty_N_char. by repeat case_match. Qed.

Lemma pretty_N_go_underscore_free x s :
  underscore_free s → underscore_free (pretty_N_go x s).
Proof.
  revert s. induction (N.lt_wf_0 x) as [x _ IH]; intros s Hs.
  assert (x = 0 ∨ 0 < x)%N as [->|?] by lia.
  - by rewrite pretty_N_go_0.
  - rewrite pretty_N_go_step by done. apply IH.
    { by apply N.div_lt. }
    split; [apply pretty_N_char_underscore|done].
Qed.

Lemma pretty_Z_underscore_free (x : Z) : underscore_free (pretty x).
Proof.
  destruct x as [|p|p]; [cbn; split; done| |].
  - unfold pretty, pretty_Z, pretty, pretty_positive, pretty, pretty_N.
    rewrite decide_False by done. by apply pretty_N_go_underscore_free.
  - unfold pretty, pretty_Z, pretty, pretty_positive, pretty, pretty_N.
    rewrite decide_False by done. split; [done|].
    by apply pretty_N_go_underscore_free.
Qed.

Lemma underscore_free_app s p :
  underscore_free (s +:+ String "_" p) → False.
Proof. induction s as [|a s IH]; cbn; [by intros [? _]|by intros [_ ?]]. Qed.

(** A string splits in one way around its last underscore. *)
Lemma split_at_last_underscore s1 s2 p1 p2 :
  underscore_free p1 → underscore_free p2 →
  s1 +:+ String "_" p1 = s2 +:+ String "_" p2 → s1 = s2 ∧ p1 = p2.
Proof.
  intros Hp1 Hp2. revert s2.
  induction s1 as [|a s1 IH]; intros [|b s2]; cbn.
  - by intros [= ->].
  - intros [= <- ->]. by apply underscore_free_app in Hp1.
  - intros [= -> <-]. by apply underscore_free_app in Hp2.
  - intros [= -> Heq]. destruct (IH _ Heq) as [-> ->]. done.
Qed.

Lemma string_app_assoc (s1 s2 s3 : string) :
  s1 +:+ s2 +:+ s3 = (s1 +:+ s2) +:+ s3.
Proof.
  induction s1 as [|a s1 IH]; [done|].
  change (String a (s1 +:+ s2 +:+ s3) = String a ((s1 +:+ s2) +:+ s3)).
  by rewrite IH.
Qed.

Lemma string_app_length (s1 s2 : string) :
  String.length (s1 +:+ s2) = (String.length s1 + String.length s2)%nat.
Proof.
  induction s1 as [|a s1 IH]; [done|].
  change (S (String.length (s1 +:+ s2))
          = S (String.length s1 + String.length s2)).
  by rewrite IH.
Qed.

Lemma string_app_inv_tail (s1 s2 t : string) :
  s1 +:+ t = s2 +:+ t → s1 = s2.
Proof.
  revert s2. induction s1 as [|a s1 IH]; intros [|b s2]; cbn.
  - done.
  - intros Heq. apply (f_equal String.length) in Heq.
    change (String b s2 +:+ t) with (String b (s2 +:+ t)) in Heq.
    cbn [String.length] in Heq. rewrite !string_app_length in Heq.
    cbn [String.length] in Heq. lia.
  - intros Heq. apply (f_equal String.length) in Heq.
    change (String a s1 +:+ t) with (String a (s1 +:+ t)) in Heq.
    cbn [String.length] in Heq. rewrite !string_app_length in Heq.
    cbn [String.length] in Heq. lia.
  - intros [= -> Heq]. by rewrite (IH _ Heq).
Qed.

(** X4 (one cache key per schema).  Two schemas have the same cache key
    only if they have the same database name and the same oid, whatever the
    database names are: no two schemas share an entry of the name cache. *)
Theorem schema_cache_key_injective (s1 s2 : SchemaObj) :
  schema_cache_key s1 = schema_cache_key s2 →
  database_name (schema_database s1) = database_name (schema_database s2) ∧
  schema_oid s1 = schema_oid s2.
Proof.
  unfold schema_cache_key.
  change ("_schema_name_" +:+ ?p)%string
    with ("_schema_name" +:+ String "_" p)%string.
  rewrite !string_app_assoc. intros Heq.
  apply split_at_last_underscore in Heq as [Hname Hoid];
    [|apply pretty_Z_underscore_free..].
  split.
  - by eapply string_app_inv_tail.
  - by apply (inj pretty).
Qed.

(** An entry that has expired stays expired. *)
Lemma cache_lookup_later key w w2 :
  cache w2 !! key = cache w !! key → clock w ≤ clock w2 →
  cache_lookup key w = None → cache_lookup key w2 = None.
Proof.
  unfold cache_lookup. intros -> Hclock.
  destruct (cache w !! key) as [[v expiry]|]; [|done].
  case_decide; [done|]. intros _. rewrite decide_False by lia. done.
Qed.

(** X5 (the sentinel is not cached).  When the catalog does not have the
    oid, [Schema.name] answers "MISSING" and leaves the shared cache as it
    was, so the sentinel is never served from the cache.  The instance keeps
    answering "MISSING" from then on; an instance that has not read its name
    resolves it from the catalog at any later time at which the entry of the
    key is as the call left it, and gets the name once the catalog has
    one. *)
Theorem missing_schema_name_not_cached (s : SchemaObj) (w : World)
    (cat : Catalog) :
  engines_wf w →
  schema_dict_name s = None →
  cache_lookup (schema_cache_key s) w = None →
  catalogs w !! database_name (schema_database s) = Some cat →
  pg_namespace cat !! schema_oid s = None →
  ∃ w1,
    Schema_name (s, w)
      = (Return "MISSING"%string, (schema_store_name "MISSING" s, w1)) ∧
    cache w1 = cache w ∧
    (∀ w2 : World,
       Schema_name (schema_store_name "MISSING" s, w2)
         = (Return "MISSING"%string, (schema_store_name "MISSING" s, w2))) ∧
    ∀ (w2 : World) (cat2 : Catalog) (name : string),
      engines_wf w2 →
      cache w2 !! schema_cache_key s = cache w1 !! schema_cache_key s →
      clock w ≤ clock w2 →
      catalogs w2 !! database_name (schema_database s) = Some cat2 →
      pg_namespace cat2 !! schema_oid s = Some name →
      ∃ w3,
        Schema_name (s, w2) = (Return name, (schema_store_name name s, w3)).
Proof.
  intros Hwf Hs Hmiss Hcat Hgone.
  destruct (Schema_name_func_miss s w Hwf Hmiss) as (w0 & _ & Hq & Hrun).
  rewrite Hcat in Hrun. cbn in Hrun. rewrite Hgone in Hrun.
  eexists. split; [by rewrite Schema_name_fresh, Hrun|].
  destruct Hq as [(_ & Hcache & _) _].
  split; [done|]. split; [intros w2; by apply Schema_name_memo|].
  intros w2 cat2 name Hwf2 Hcache2 Hclock Hcat2 Hname.
  cbn in Hcache2. rewrite Hcache in Hcache2.
  pose proof (cache_lookup_later _ _ _ Hcache2 Hclock Hmiss) as Hmiss2.
  destruct (Schema_name_func_miss s w2 Hwf2 Hmiss2) as (w0' & _ & _ & Hrun2).
  rewrite Hcat2 in Hrun2. cbn in Hrun2. rewrite Hname in Hrun2.
  eexists. by rewrite Schema_name_fresh, Hrun2.
Qed.

Section Failures.
Context `{db : DbLayer}.
Context `{dj : DjangoDb}.

(** X6 (a connection failure is not the sentinel).  When the database
    cannot be reached, [Schema.name], [Table._sa_table] and [Table.name]
    raise the connection error instead of answering "MISSING": the handlers
    catch [TypeError] (and [IndexError]) only.  Nothing is stored on the
    instance or in the cache, so a later read tries again. *)
Theorem connection_failure_is_not_missing (s : SchemaObj) (t : TableObj)
    (w : World) :
  engines_wf w →
  schema_dict_name s = None →
  cache_lookup (schema_cache_key s) w = None →
  catalogs w !! database_name (schema_database s) = None →
  table_dict_sa_table t = None →
  table_dict_name t = None →
  catalogs w !! table_database t = None →
  (∃ w', Schema_name (s, w) = (Raise OperationalError, (s, w')) ∧
         cache w' = cache w) ∧
  (∃ w', Table_sa_table (t, w) = (Raise OperationalError, (t, w'))) ∧
  (∃ w', Table_name (t, w) = (Raise OperationalError, (t, w'))).
Proof.
  intros Hwf Hs Hmiss Hcat_s Ht Hn Hcat_t.
  assert (∃ w', Table_sa_table (t, w) = (Raise OperationalError, (t, w')))
    as [w' Hrun].
  { unfold Table_sa_table, cached_property. cbn. rewrite Ht. run.
    unfold Schema_sa_engine.
    destruct (Database_sa_engine_run (schema_database (table_schema t)) w Hwf)
      as (engine & w1 & -> & Hdb & _ & _ & Hq).
    cbn. unfold reflect_table_from_oid, catalog_query.
    rewrite Hdb, (quiet_catalogs _ _ Hq). unfold table_database in Hcat_t.
    rewrite Hcat_t. cbn. by eexists. }
  split_and!.
  - destruct (Schema_name_func_miss s w Hwf Hmiss) as (w0 & _ & Hq & Hf).
    rewrite Hcat_s in Hf. exists w0. rewrite Schema_name_fresh, Hf by done.
    split; [done|]. by destruct Hq as [(_ & ? & _) _].
  - by exists w'.
  - exists w'. unfold Table_name, cached_property. cbn. rewrite Hn. run.
    by rewrite Hrun.
Qed.

End Failures.

(** X7 (clear_name_cache).  [clear_name_cache] deletes the entry of the
    schema's key and no other entry.  After it, an instance of the schema
    that has not read its name resolves it from the catalog, whatever the
    cache held and however recent the entry was, and stores the catalog's
    name anew for 300 seconds. *)
Theorem clear_name_cache_forces_reread (s s' : SchemaObj) (w : World)
    (cat : Catalog) (name : string) :
  engines_wf w →
  schema_dict_name s' = None →
  schema_database s' = schema_database s →
  schema_oid s' = schema_oid s →
  catalogs w !! database_name (schema_database s) = Some cat →
  pg_namespace cat !! schema_oid s = Some name →
  ∃ w1 w2,
    Schema_clear_name_cache (s, w) = (Return tt, (s, w1)) ∧
    (∀ key, key ≠ schema_cache_key s → cache w1 !! key = cache w !! key) ∧
    Schema_name (s', w1) = (Return name, (schema_store_name name s', w2)) ∧
    cache w2 !! schema_cache_key s = Some (name, clock w + 300).
Proof.
  intros Hwf Hs' Hdb Hoid Hcat Hname.
  assert (schema_cache_key s' = schema_cache_key s) as Hkey.
  { unfold schema_cache_key. by rewrite Hdb, Hoid. }
  set (w1 := log (EvCacheDelete (schema_cache_key s))
               (set_cache (delete (schema_cache_key s)) w)).
  assert (cache_lookup (schema_cache_key s') w1 = None) as Hmiss.
  { unfold cache_lookup. subst w1. cbn. by rewrite Hkey, lookup_delete_eq. }
  destruct (Schema_name_func_miss s' w1) as (w0 & _ & _ & Hrun); [done..|].
  rewrite Hdb, Hoid in Hrun. change (catalogs w1) with (catalogs w) in Hrun.
  rewrite Hcat in Hrun. cbn zeta in Hrun. rewrite Hname in Hrun.
  exists w1. eexists. split; [done|]. split.
  { intros key Hne. subst w1. cbn. by rewrite lookup_delete_ne. }
  split; [by rewrite Schema_name_fresh, Hrun|].
  cbn. rewrite Hkey. by rewrite lookup_insert_eq.
Qed.


Lemma keeps_cache_but_cache_set key value timeout :
  keeps (cache_but key) (cache_set key value timeout).
Proof.
  intros w. unfold kept, cache_but. cbn. apply delete_insert_eq.
Qed.

(** X8 (Schema.name writes its own cache entry only).  Whatever it answers,
    [Schema.name] changes no identity record and no catalog, and leaves the
    cache entry of every other key as it was. *)
Theorem schema_name_writes_only_its_key (s : SchemaObj) (w : World) :
  let w' := (Schema_name (s, w)).2.2 in
  registry w' = registry w ∧ catalogs w' = catalogs w ∧
  ∀ key, key ≠ schema_cache_key s → cache w' !! key = cache w !! key.
Proof.
  assert (∀ X (g : World → X), Frame g →
            (∀ value timeout,
               keeps g (cache_set (schema_cache_key s) value timeout)) →
            g (Schema_name (s, w)).2.2 = g w) as Hkeeps.
  { intros X g Hg Hset.
    assert (keeps g (Schema_name_func s)) as Hfunc.
    { unfold Schema_name_func, Schema_sa_engine, get_schema_name_from_oid.
      frame. }
    specialize (Hfunc w). unfold kept in Hfunc.
    unfold Schema_name, cached_property. cbn.
    destruct (schema_dict_name s); [done|]. run.
    by destruct (Schema_name_func s w) as [[v|e] w']. }
  cbn zeta. split_and!.
  - apply (Hkeeps _ registry _). intros. frame.
  - apply (Hkeeps _ catalogs _). intros. frame.
  - intros key Hne.
    pose proof (Hkeeps _ (cache_but (schema_cache_key s)) _
                  (keeps_cache_but_cache_set _)) as H.
    unfold cache_but in H.
    apply (f_equal (.!! key)) in H. by rewrite !lookup_delete_ne in H.
Qed.

(** ** Tables, further *)

Section Reads.
Context `{db : DbLayer}.
Context `{dj : DjangoDb}.

(** X9 (reading a table only reads).  Whatever they answer, [_sa_engine],
    [_sa_table], [name], [sa_columns], [sa_column_names] and
    [sa_constraints] of a Table and [name] of a Constraint leave the clock,
    the cache, the catalogs and the identity records as they were, and add
    to the trace nothing but the use of an engine and catalog reads: no DDL,
    no row change, no cache write and no reconciliation. *)
Theorem table_reads_are_quiet (t : TableObj) (c : ConstraintObj) (w : World) :
  quiet w (Table_sa_engine (t, w)).2.2 ∧
  quiet w (Table_sa_table (t, w)).2.2 ∧
  quiet w (Table_name (t, w)).2.2 ∧
  quiet w (Table_sa_columns (t, w)).2.2 ∧
  quiet w (Table_sa_column_names (t, w)).2.2 ∧
  quiet w (Table_sa_constraints (t, w)).2.2 ∧
  quiet w (Constraint_name (c, w)).2.2.
Proof.
  assert (stays (in_world quiet) Table_name) as Hname
    by (unfold Table_name; frame).
  assert (stays (in_world quiet) Table_sa_columns) as Hcols
    by (unfold Table_sa_columns, Table_enriched_column_sa_table; frame).
  assert (stays (in_world quiet) Table_sa_column_names) as Hnames
    by (unfold Table_sa_column_names; frame).
  assert (stays (in_world quiet) Table_sa_constraints) as Hcons
    by (unfold Table_sa_constraints; frame).
  assert (stays (in_world quiet) Constraint_name) as Hcname.
  { unfold Constraint_name, Constraint_sa_constraint, get_constraint_from_oid.
    frame. }
  split_and!;
    [apply (quiet_Table_sa_engine (t, w))|apply (quiet_Table_sa_table (t, w))
    |apply (Hname (t, w))|apply (Hcols (t, w))|apply (Hnames (t, w))
    |apply (Hcons (t, w))|apply (Hcname (c, w))].
Qed.

End Reads.


Section Saves.
Context `{db : DbLayer}.
Context `{dj : DjangoDb}.

Lemma Table_save_registry t w :
  table_state_adding t = true →
  registry (Table_save (t, w)).2.2 = registry w ∨
  ∃ id,
    ¬ map_Exists
        (λ _, oid_in_database (registry w) (table_oid t)
                (database_id (schema_database (table_schema t))))
        (tables (registry w)) ∧
    registry (Table_save (t, w)).2.2
      = set_tables (<[id := row_of_table t]>) (registry w).
Proof.
  intros Hadd. unfold Table_save, Table_validate_unique. run. rewrite Hadd.
  rewrite get_queryset_current. cbn [fst snd].
  case_decide as Hex; [by left|].
  unfold Model_validate_unique_Table. run. case_decide; [by left|].
  destruct (match table_id t with Some _ => _ | None => _ end); [by left|].
  cbn [fst snd]. unfold Model_save_Table. run.
  destruct (integer_field_fits (table_oid t)); [|by left]. cbn.
  case_bool_decide; [by left|]. case_decide; [by left|].
  destruct (table_id t); right; (eexists; split; [done|]); cbn;
    by case_bool_decide.
Qed.

(** X10 (oids are unique per database across inserts).  When no two Table
    rows of one database have the same oid, then after [save] of a Table
    that is being added and whose schema the registry has under the
    database the instance says, whatever [save] answers, this still holds:
    the pre-check of [validate_unique] looks at every schema of the
    database, not only at the schema of the new row. *)
Theorem table_insert_keeps_oid_unique_per_database (t : TableObj) (w : World) :
  table_state_adding t = true →
  schema_as_registered t (registry w) →
  unique_oid_per_database (registry w) →
  unique_oid_per_database (registry (Table_save (t, w)).2.2).
Proof.
  intros Hadd Hsch Hu.
  destruct (Table_save_registry t w Hadd) as [->|(id & Hno & ->)]; [done|].
  assert (∀ k rk d, tables (registry w) !! k = Some rk →
            tbl_oid rk = table_oid t →
            sch_database_id <$> schemas (registry w) !! tbl_schema_id rk = Some d →
            sch_database_id <$> schemas (registry w) !! schema_id (table_schema t) = Some d →
            False) as Hclash.
  { intros k rk d Hk Ho Hd Hd'. apply Hno. exists k, rk. split; [done|].
    split; [done|]. unfold schema_as_registered in Hsch. congruence. }
  intros i j ri rj d. cbn. rewrite !lookup_insert.
  repeat case_decide; subst; intros; simplify_eq; try done.
  - exfalso. eapply (Hclash j rj); eauto.
  - exfalso. eapply (Hclash i ri); eauto.
  - eapply Hu; eauto.
Qed.

(** X11 (a new Table is inserted, and saving it again adds nothing).
    [save] of a Table that is being added, has no primary key, whose oid an
    integer column holds, whose schema the registry has under the database
    the instance says, and whose oid no Table of that database has, returns,
    when the sequence of the Table rows is not behind their keys: the row is
    inserted under the key that the sequence gives next, a key above every
    key of the table and above every key the sequence has given, with the
    oid, the schema and [import_verified] of the instance; the sequence has
    moved on to that key; the instance gets that key and is no longer being
    added.  Saving the instance again updates that row in place: no row is
    added, the sequence stays, and the oid, the schema and [import_verified]
    of every row are as they were (the rows are modelled without the
    timestamps of [BaseModel]). *)
Theorem table_insert_round_trip (t : TableObj) (w : World) :
  table_state_adding t = true →
  table_id t = None →
  integer_field_fits (table_oid t) = true →
  sequence_ahead "Table" (tables (registry w)) w →
  schema_as_registered t (registry w) →
  ¬ map_Exists
      (λ _, oid_in_database (registry w) (table_oid t)
              (database_id (schema_database (table_schema t))))
      (tables (registry w)) →
  let id := next_key "Table" (sequence_mark "Table" w) in
  let t' := table_set_saved id t in
  ∃ w' w'',
    Table_save (t, w) = (Return tt, (t', w')) ∧
    tables (registry w) !! id = None ∧
    sequence_mark "Table" w < id ∧
    (∀ k, is_Some (tables (registry w) !! k) → k < id) ∧
    registry w' = set_tables (<[id := row_of_table t]>) (registry w) ∧
    sequence_mark "Table" w' = id ∧
    sequence_ahead "Table" (tables (registry w')) w' ∧
    trace w' = trace w ++ [EvRowInsert "Table" id] ∧
    Table_save (t', w') = (Return tt, (t', w'')) ∧
    registry w'' = registry w' ∧
    sequences w'' = sequences w' ∧
    trace w'' = trace w' ++ [EvRowUpdate "Table" id].
Proof.
  intros Hadd Hid Hfits Hahead Hsch Hno id t'.
  assert (sequence_mark "Table" w < id) as Habove by apply next_key_above.
  assert (∀ k, is_Some (tables (registry w) !! k) → k < id) as Hkeys.
  { intros k Hk. specialize (Hahead k Hk). lia. }
  assert (tables (registry w) !! id = None) as Hfresh.
  { apply eq_None_not_Some. intros Hk. specialize (Hkeys id Hk). lia. }
  assert (∀ pk, ¬ map_Exists
            (same_oid_and_schema pk (table_oid t) (schema_id (table_schema t)))
            (tables (registry w))) as Hno'.
  { intros pk (k & rk & Hk & _ & Ho & Hs). apply Hno. exists k, rk.
    split; [done|]. split; [done|]. by rewrite Hs. }
  assert (Z.max id (sequence_mark "Table" w) = id) as Hmax by lia.
  assert (sequence_mark "Table"
            (sequence_reaches "Table" id
               (set_registry (set_tables (<[id := row_of_table t]>)) w)) = id)
    as Hreach.
  { unfold sequence_reaches, sequence_mark at 1. cbn.
    rewrite lookup_insert_eq. cbn.
    change (sequence_mark "Table" (set_registry ?f ?x))
      with (sequence_mark "Table" x).
    done. }
  eexists _, _. split_and!.
  - unfold Table_save, Table_validate_unique. run. rewrite Hadd.
    rewrite get_queryset_current. cbn [fst snd].
    rewrite decide_False by done.
    unfold Model_validate_unique_Table. run.
    rewrite decide_False by apply Hno'. rewrite Hid.
    cbn [fst snd]. unfold Model_save_Table. run. rewrite Hfits, Hid.
    cbn [default fst snd].
    change ((tables ∘ registry) w) with (tables (registry w)).
    fold id. rewrite Hfresh.
    rewrite bool_decide_eq_false_2 by (by intros [_ [? ?]]).
    rewrite decide_False by apply Hno'. cbn [fst snd].
    rewrite bool_decide_eq_false_2 by (by intros [? ?]).
    reflexivity.
  - done.
  - done.
  - done.
  - done.
  - cbn. apply Hreach.
  - intros k Hk. cbn in Hk |- *.
    change (sequence_mark "Table" (log ?e ?x))
      with (sequence_mark "Table" x).
    fold (row_of_table t). rewrite Hreach.
    apply lookup_insert_is_Some in Hk as [->|[_ Hk]]; [done|].
    specialize (Hkeys k Hk). lia.
  - done.
  - unfold Table_save. run. cbn [table_state_adding t' table_set_saved].
    unfold Model_save_Table. run. cbn [table_oid t' table_set_saved].
    rewrite Hfits. cbn.
    rewrite decide_False; last first.
    { intros (k & rk & Hk & Hne & Ho & Hs).
      rewrite lookup_insert_ne in Hk by congruence.
      apply (Hno' None). exists k, rk. split; [done|]. split; [done|].
      by split. }
    rewrite lookup_insert_eq.
    rewrite bool_decide_eq_true_2 by (by eexists).
    reflexivity.
  - cbn. unfold set_tables. cbn. f_equal. by rewrite insert_insert_eq.
  - done.
  - done.
Qed.

(** An oid that an integer column does not hold: [save] of a Table that is
    being added and that the checks of [validate_unique] let through raises
    the error of the backend, and no row is written. *)
Lemma table_save_out_of_range (t : TableObj) (w : World) :
  table_state_adding t = true →
  table_id t = None →
  integer_field_fits (table_oid t) = false →
  ¬ map_Exists
      (λ _, oid_in_database (registry w) (table_oid t)
              (database_id (schema_database (table_schema t))))
      (tables (registry w)) →
  ¬ map_Exists
      (same_oid_and_schema None (table_oid t) (schema_id (table_schema t)))
      (tables (registry w)) →
  Table_save (t, w) = (Raise range_error, (t, w)).
Proof.
  intros Hadd Hid Hfits Hno Hno'.
  unfold Table_save, Table_validate_unique. run. rewrite Hadd.
  rewrite get_queryset_current. cbn [fst snd].
  rewrite decide_False by done.
  unfold Model_validate_unique_Table. run. rewrite Hadd.
  rewrite decide_False by done. rewrite Hid.
  cbn [fst snd]. unfold Model_save_Table. run. by rewrite Hfits.
Qed.

End Saves.

(** ** What the mutations do to the identity records *)

Section Rows.
Context `{db : DbLayer}.
Context `{dj : DjangoDb}.

(** X12 (column DDL touches no identity row).  Whatever the DDL does and
    answers, [add_column], [alter_column] and [drop_column] leave the
    identity records and the name cache as they were.  In particular the
    Column row of a dropped column stays, and [Column.current_objects.get]
    answers after [drop_column] what it answered before. *)
Theorem column_ddl_keeps_rows_and_cache (t : TableObj) (w : World)
    (column_data : ColumnData) (column_attnum : Z) :
  let added := (Table_add_column column_data (t, w)).2.2 in
  let altered := (Table_alter_column column_attnum column_data (t, w)).2.2 in
  let dropped := (Table_drop_column column_attnum (t, w)).2.2 in
  (registry added = registry w ∧ cache added = cache w) ∧
  (registry altered = registry w ∧ cache altered = cache w) ∧
  (registry dropped = registry w ∧ cache dropped = cache w) ∧
  ∀ id, (Column_get current_objects id dropped).1
        = (Column_get current_objects id w).1.
Proof.
  assert (keeps (of_world registry) (Table_add_column column_data)) as Ha
    by (unfold Table_add_column, Schema_sa_engine; frame).
  assert (keeps (of_world cache) (Table_add_column column_data)) as Ha'
    by (unfold Table_add_column, Schema_sa_engine; frame).
  assert (keeps (of_world registry)
            (Table_alter_column column_attnum column_data)) as Hb
    by (unfold Table_alter_column, Schema_sa_engine; frame).
  assert (keeps (of_world cache)
            (Table_alter_column column_attnum column_data)) as Hb'
    by (unfold Table_alter_column, Schema_sa_engine; frame).
  assert (keeps (of_world registry) (Table_drop_column column_attnum)) as Hc
    by (unfold Table_drop_column, Schema_sa_engine; frame).
  assert (keeps (of_world cache) (Table_drop_column column_attnum)) as Hc'
    by (unfold Table_drop_column, Schema_sa_engine; frame).
  cbn zeta. split_and!;
    [apply (Ha (t, w))|apply (Ha' (t, w))|apply (Hb (t, w))|apply (Hb' (t, w))
    |apply (Hc (t, w))|apply (Hc' (t, w))|].
  intros id. unfold Column_get. run. rewrite !get_queryset_current.
  cbn [fst snd]. specialize (Hc (t, w)). unfold kept, of_world in Hc.
  cbn [fst snd] in Hc. rewrite Hc.
  by destruct (columns (registry w) !! id).
Qed.

Lemma Table_add_constraint_rows spec :
  ensures (of_world registry) one_row_or_none (Table_add_constraint spec).
Proof.
  unfold Table_add_constraint, Schema_sa_engine,
    get_constraint_oid_by_name_and_table_oid.
  repeat (apply ensures_bind; [|intros ?|]); try (by frame).
  intros [t w]. unfold of_world, Constraint_create. run.
  rewrite get_queryset_current. cbn [fst snd].
  match goal with
  | |- context [table_id ?x] => destruct (table_id x) as [pk|]
  end; [|by cbn]. cbn.
  destruct (integer_field_fits _); [|by cbn]. cbn.
  case_bool_decide as Hfree; [by cbn|]. cbn.
  eexists _, pk. split_and!; [done| |done].
  by apply eq_None_not_Some.
Qed.

Lemma Constraint_delete_rows :
  ensures (λ s, (of_self constraint_id s, of_world registry s))
    row_deleted_or_kept Constraint_delete.
Proof.
  intros [c w]. unfold of_world, of_self, Constraint_delete. run.
  destruct (constraint_id c) as [id|]; [|by cbn]. cbn. by exists id.
Qed.

Lemma Constraint_drop_rows :
  ensures (λ s, (of_self constraint_id s, of_world registry s))
    row_deleted_or_kept Constraint_drop.
Proof.
  unfold Constraint_drop, Schema_sa_engine.
  repeat first [apply Constraint_delete_rows
               |apply ensures_bind; [|intros ?|]]; try (by frame).
Qed.

(** X13 (a failed add_constraint inserts no row).  When [add_constraint]
    raises, at whatever step, the identity records are as they were. *)
Theorem add_constraint_failure_leaves_no_row (t t' : TableObj) (w w' : World)
    (spec : ConstraintSpec) (e : exn) :
  Table_add_constraint spec (t, w) = (Raise e, (t', w')) →
  registry w' = registry w.
Proof.
  intros Hrun. pose proof (Table_add_constraint_rows spec (t, w)) as H.
  by rewrite Hrun in H.
Qed.

(** X16 (a failed drop keeps the row).  When [Constraint.drop] raises, at
    whatever step (the constraint is not resolved, the DDL fails, the
    instance has no primary key), the identity records are as they were:
    the Constraint row is deleted only after the DDL has succeeded. *)
Theorem constraint_drop_failure_keeps_row (c c' : ConstraintObj)
    (w w' : World) (e : exn) :
  Constraint_drop (c, w) = (Raise e, (c', w')) →
  registry w' = registry w.
Proof.
  intros Hrun. pose proof (Constraint_drop_rows (c, w)) as H.
  by rewrite Hrun in H.
Qed.

(** X17 (add then drop).  When [add_constraint] has returned a constraint
    and [drop] of that constraint returns, the identity records are as they
    were before the constraint was added. *)
Theorem add_then_drop_restores_rows (t t' : TableObj) (w w' w'' : World)
    (spec : ConstraintSpec) (c c' : ConstraintObj) :
  Table_add_constraint spec (t, w) = (Return c, (t', w')) →
  Constraint_drop (c, w') = (Return tt, (c', w'')) →
  registry w'' = registry w.
Proof.
  intros Hadd Hdrop.
  pose proof (Table_add_constraint_rows spec (t, w)) as H1.
  rewrite Hadd in H1. destruct H1 as (id & pk & Hid & Hfresh & Hreg).
  pose proof (Constraint_drop_rows (c, w')) as H2.
  rewrite Hdrop in H2. destruct H2 as (id' & Hid' & Hreg').
  unfold of_self, of_world in *. cbn in *.
  rewrite Hreg', Hreg. assert (id' = id) as -> by congruence.
  destruct (registry w) as [ds ss ts cs ks]. unfold set_constraints. cbn in *.
  f_equal. rewrite delete_insert_eq. by apply delete_id.
Qed.

End Rows.

Lemma bulk_update_display_options objs cols id :
  col_display_options <$> foldr bulk_update_row cols objs !! id
    = col_display_options <$> cols !! id.
Proof.
  induction objs as [|o objs IH]; [done|]. cbn [foldr].
  unfold bulk_update_row at 1.
  destruct (column_id o) as [id0|]; [|done].
  destruct (column_table_id o) as [pk|]; [|done].
  destruct (decide (id = id0)) as [->|Hne].
  - rewrite lookup_alter_eq, <- IH.
    by destruct (foldr bulk_update_row cols objs !! id0).
  - by rewrite lookup_alter_ne.
Qed.

Section MoreRows.
Context `{db : DbLayer}.
Context `{dj : DjangoDb}.

Lemma Column_bulk_update_rows objs :
  ensures registry
    (λ reg (r : outcome unit) w',
       match r with
       | Raise _ => registry w' = reg
       | Return _ => columns_moved_only reg (registry w')
       end)
    (Column_bulk_update_table_id_attnum current_objects objs).
Proof.
  intros w. unfold Column_bulk_update_table_id_attnum. run.
  rewrite get_queryset_current. cbn [fst snd].
  case_bool_decide; [done|]. case_bool_decide; [done|].
  cbn [fst snd].
  destruct (mapM_log (λ obj, EvRowUpdate "Column" (default 0 (column_id obj)))
              objs
              (set_registry
                 (set_columns (λ cols, foldr bulk_update_row cols objs)) w))
    as (r & w' & Hm & Hreg & _).
  run. rewrite Hm. cbn [fst snd]. rewrite Hreg. cbn. split_and!; try done.
  intros id. apply bulk_update_display_options.
Qed.

Lemma Table_update_column_reference_rows columns_name column_name_id_map :
  ensures (of_world registry) moved_or_kept
    (Table_update_column_reference columns_name column_name_id_map).
Proof.
  unfold Table_update_column_reference, get_columns_attnum_from_names.
  repeat (apply ensures_bind; [|intros ?|]); try (by frame).
  intros [t w]. unfold of_world, lift. cbn [fst snd].
  match goal with
  | |- context [Column_bulk_update_table_id_attnum _ ?objs] =>
      pose proof (Column_bulk_update_rows objs w) as H
  end.
  destruct (Column_bulk_update_table_id_attnum _ _ w) as [[[]|e] w']; done.
Qed.

Lemma Table_update_column_reference_catalogs columns_name column_name_id_map :
  keeps (of_world catalogs)
    (Table_update_column_reference columns_name column_name_id_map).
Proof.
  unfold Table_update_column_reference, get_columns_attnum_from_names.
  frame. unfold Column_bulk_update_table_id_attnum. frame.
Qed.

(** X18 (update_column_reference is all or nothing).  When
    [update_column_reference] raises (a name the map does not have, an id
    with no Column row, a table without primary key), no Column row was
    changed: the identity records and the catalogs are as they were. *)
Theorem update_column_reference_all_or_nothing (t t' : TableObj)
    (w w' : World) (columns_name : list string)
    (column_name_id_map : gmap string Z) (e : exn) :
  Table_update_column_reference columns_name column_name_id_map (t, w)
    = (Raise e, (t', w')) →
  registry w' = registry w ∧ catalogs w' = catalogs w.
Proof.
  intros Hrun.
  pose proof (Table_update_column_reference_rows columns_name
                column_name_id_map (t, w)) as H1.
  pose proof (Table_update_column_reference_catalogs columns_name
                column_name_id_map (t, w)) as H2.
  by rewrite Hrun in H1, H2.
Qed.

(** X19 (update_column_reference only moves Column rows).  Whatever it
    answers, [update_column_reference] creates and deletes no Column row,
    keeps the display options of every Column row, and changes no other
    identity record and no catalog. *)
Theorem update_column_reference_only_moves_columns (t : TableObj) (w : World)
    (columns_name : list string) (column_name_id_map : gmap string Z) :
  let w' := (Table_update_column_reference columns_name column_name_id_map
               (t, w)).2.2 in
  columns_moved_only (registry w) (registry w') ∧
  dom (columns (registry w')) = dom (columns (registry w)) ∧
  catalogs w' = catalogs w.
Proof.
  cbn zeta.
  pose proof (Table_update_column_reference_rows columns_name
                column_name_id_map (t, w)) as H1.
  pose proof (Table_update_column_reference_catalogs columns_name
                column_name_id_map (t, w)) as H2.
  destruct (Table_update_column_reference _ _ _) as [[[]|e] [t' w']].
  - unfold moved_or_kept, of_world, kept in *. cbn in *.
    split_and!; [done| |done].
    destruct H1 as (_ & _ & _ & _ & Hcols).
    apply set_eq. intros id. rewrite !elem_of_dom.
    rewrite <- (fmap_is_Some col_display_options),
      <- (fmap_is_Some col_display_options (columns (registry w) !! id)).
    by rewrite Hcols.
  - unfold moved_or_kept, of_world, kept in *. cbn in *. rewrite H1.
    split_and!; done.
Qed.

Lemma find_constraint_by_name_elem name oid cat c :
  find_constraint_by_name name oid cat = Some c →
  ∃ t, pg_class cat !! oid = Some t ∧ c ∈ relconstraints t.
Proof.
  unfold find_constraint_by_name. intros Hfind.
  destruct (pg_class cat !! oid) as [t|]; [|done]. cbn in Hfind.
  destruct (list_find _ _) as [[i c']|] eqn:Hl; [|done].
  injection Hfind as <-. apply list_find_Some in Hl as (Hi & _ & _).
  exists t. split; [done|]. by eapply list_elem_of_lookup_2.
Qed.

(** Once the DDL of [add_constraint] has succeeded, whatever the rest of the
    body does: the instance has dropped its cached table and is otherwise as
    it was, the catalog is the one the DDL left, and a constraint that is
    answered is one the catalog has for the table. *)
Lemma Table_add_constraint_after_ddl t w spec cat cat' r t' w' :
  engines_wf w →
  catalogs w !! table_database t = Some cat →
  create_constraint (sa_schema (current_sa_table t cat)) spec cat
    = (Return tt, cat') →
  Table_add_constraint spec (t, w) = (r, (t', w')) →
  t' = table_store_sa_table None t ∧
  catalogs w' = <[table_database t := cat']> (catalogs w) ∧
  engines_wf w' ∧
  ∀ c_obj, r = Return c_obj →
    ∃ ct c, pg_class cat' !! table_oid t = Some ct ∧ c ∈ relconstraints ct ∧
            constraint_oid c_obj = conoid c.
Proof.
  intros Hwf Hcat Hddl.
  unfold Table_add_constraint.
  destruct (Table_sa_table_run t w cat Hwf Hcat) as (w1 & Hrun1 & Hwf1 & Hq1).
  unfold mbind at 1. unfold M_bind at 1. rewrite Hrun1.
  run. unfold Schema_sa_engine.
  assert (∀ x, table_schema (table_store_sa_table x t) = table_schema t)
    as Hts by done.
  assert (∀ x, table_oid (table_store_sa_table x t) = table_oid t)
    as Hto by done.
  rewrite !Hts, ?Hto.
  set (d := schema_database (table_schema t)).
  destruct (Database_sa_engine_run d w1 Hwf1)
    as (e2 & w2 & Hrun2 & Hdb2 & _ & Hwf2 & Hq2).
  rewrite Hrun2. cbn.
  assert (catalogs w2 !! engine_database e2 = Some cat) as Hcat2.
  { rewrite Hdb2, (quiet_catalogs _ _ Hq2), (quiet_catalogs _ _ Hq1). done. }
  rewrite (catalog_ddl_run _ _ _ _ Hcat2), Hddl. cbn.
  unfold delattr. cbn.
  set (w3 := log _ (set_catalogs _ w2)).
  assert (engines_wf w3) as Hwf3 by done.
  destruct (Database_sa_engine_run d w3 Hwf3)
    as (e4 & w4 & Hrun4 & Hdb4 & _ & Hwf4 & Hq4).
  rewrite Hrun4. cbn.
  assert (catalogs w4 = <[table_database t := cat']> (catalogs w)) as Hcats4.
  { rewrite (quiet_catalogs _ _ Hq4). subst w3. cbn.
    rewrite Hdb2, (quiet_catalogs _ _ Hq2), (quiet_catalogs _ _ Hq1). done. }
  assert (catalogs w4 !! engine_database e4 = Some cat') as Hcat4.
  { rewrite Hcats4, Hdb4. apply lookup_insert_eq. }
  set (t3 := table_store_sa_table None
               (table_store_sa_table (Some (current_sa_table t cat)) t)).
  assert (t3 = table_store_sa_table None t) as Ht3 by done.
  (* the name *)
  assert (∃ rn w5,
     (if falsy (spec_name spec)
      then match spec_columns_attnum spec with
           | [] => raise IndexError
           | attnum :: _ =>
               lift (catalog_query e4
                       (get_constraint_name (spec_type spec)
                          (table_oid t) attnum))
           end
      else mret (default ""%string (spec_name spec))) (t3, w4)
       = (rn, (t3, w5)) ∧
     catalogs w5 = catalogs w4 ∧ _engines w5 = _engines w4)
    as (rn & w5 & Hrun5 & Hcats5 & Heng5).
  { destruct (falsy (spec_name spec)); [|by eexists _, _].
    destruct (spec_columns_attnum spec) as [|attnum ?]; [by eexists _, _|].
    run. rewrite (catalog_query_run _ _ _ _ Hcat4). by eexists _, _. }
  run. rewrite Hrun5.
  destruct rn as [name|en]; cbn [fst snd].
  2:{ intros [= <- <- <-]. rewrite Hcats5.
      split_and!; [done|done| |done].
      unfold engines_wf. by rewrite Heng5. }
  (* the oid *)
  unfold get_constraint_oid_by_name_and_table_oid.
  assert (catalogs w5 !! engine_database e4 = Some cat') as Hcat5
    by by rewrite Hcats5.
  rewrite (catalog_query_run _ _ _ _ Hcat5). cbn [fst snd].
  destruct (find_constraint_by_name name (table_oid t) cat') as [c|] eqn:Hfind.
  2:{ intros [= <- <- <-]. cbn. rewrite Hcats5.
      split_and!; [done|done| |done].
      unfold engines_wf. cbn. by rewrite Heng5. }
  (* the row *)
  unfold Constraint_create. run. rewrite get_queryset_current. cbn [fst snd].
  assert (∀ e s, (Raise e, (t3, log (EvCatalogRead (engine_database e4)) w5))
                   = (r, (t', s)) →
            t' = table_store_sa_table None t ∧
            catalogs w5 = <[table_database t := cat']> (catalogs w) ∧
            engines_wf w5 ∧
            ∀ c_obj, r = Return c_obj →
              ∃ ct c, pg_class cat' !! table_oid t = Some ct ∧
                      c ∈ relconstraints ct ∧ constraint_oid c_obj = conoid c)
    as Hraise.
  { intros e s [= <- <- _]. rewrite Hcats5.
    split_and!; [done|done| |done].
    unfold engines_wf. by rewrite Heng5. }
  destruct (table_id t3) as [pk|]; cbn [fst snd].
  - destruct (integer_field_fits (conoid c)); cbn [fst snd].
    + case_bool_decide; cbn [fst snd].
      * intros [= <- <- <-]. by eapply Hraise.
      * intros [= <- <- <-]. cbn. rewrite Hcats5.
        split_and!; [done|done| |].
        -- unfold engines_wf. cbn. by rewrite Heng5.
        -- intros c_obj [= <-]. cbn.
           apply find_constraint_by_name_elem in Hfind as (ct & Hct & Hin).
           by exists ct, c.
    + intros [= <- <- <-]. by eapply Hraise.
  - intros [= <- <- <-]. by eapply Hraise.
Qed.

(** X14 (the DDL of add_constraint is not rolled back).  When the DDL of
    [add_constraint] has succeeded and a later step raises, the catalog
    keeps what the DDL did while no identity row was inserted; the cached
    table of the instance has been dropped. *)
Theorem add_constraint_ddl_is_not_rolled_back (t t' : TableObj) (w w' : World)
    (spec : ConstraintSpec) (cat cat' : Catalog) (e : exn) :
  engines_wf w →
  catalogs w !! table_database t = Some cat →
  create_constraint (sa_schema (current_sa_table t cat)) spec cat
    = (Return tt, cat') →
  Table_add_constraint spec (t, w) = (Raise e, (t', w')) →
  catalogs w' !! table_database t = Some cat' ∧
  registry w' = registry w ∧
  table_dict_sa_table t' = None.
Proof.
  intros Hwf Hcat Hddl Hrun.
  destruct (Table_add_constraint_after_ddl _ _ _ _ _ _ _ _ Hwf Hcat Hddl Hrun)
    as (-> & -> & _ & _).
  split_and!; [apply lookup_insert_eq| |done].
  pose proof (Table_add_constraint_rows spec (t, w)) as H.
  by rewrite Hrun in H.
Qed.

(** X15 (a constraint that was added shows up).  After [add_constraint]
    has returned, [sa_constraints] on the same instance reads the table from
    the catalog again and answers its constraints as the DDL left them; the
    constraint whose oid was recorded is among them. *)
Theorem added_constraint_shows_in_sa_constraints (t t' : TableObj)
    (w w' : World) (spec : ConstraintSpec) (cat cat' : Catalog)
    (c_obj : ConstraintObj) (table' : SATable) :
  engines_wf w →
  catalogs w !! table_database t = Some cat →
  create_constraint (sa_schema (current_sa_table t cat)) spec cat
    = (Return tt, cat') →
  Table_add_constraint spec (t, w) = (Return c_obj, (t', w')) →
  reflect_table (table_oid t) cat' = Return table' →
  ∃ t'' w'',
    Table_sa_constraints (t', w')
      = (Return (sa_constraints table'), (t'', w'')) ∧
    ∃ c, c ∈ sa_constraints table' ∧ conoid c = constraint_oid c_obj.
Proof.
  intros Hwf Hcat Hddl Hrun Hreflect.
  destruct (Table_add_constraint_after_ddl _ _ _ _ _ _ _ _ Hwf Hcat Hddl Hrun)
    as (-> & Hcats & Hwf' & Hc).
  destruct (Hc c_obj eq_refl) as (ct & c & Hct & Hin & Hoid).
  assert (catalogs w' !! table_database (table_store_sa_table None t)
          = Some cat') as Hcat'.
  { rewrite Hcats. apply lookup_insert_eq. }
  destruct (Table_sa_table_run _ w' cat' Hwf' Hcat') as (w'' & Hrun' & _).
  assert (current_sa_table (table_store_sa_table None t) cat' = table')
    as Hcur.
  { unfold current_sa_table. cbn. change (table_oid _) with (table_oid t).
    by rewrite Hreflect. }
  rewrite Hcur in Hrun'.
  eexists _, w''. split.
  - unfold Table_sa_constraints. run. by rewrite Hrun'.
  - exists c. split; [|done].
    unfold reflect_table in Hreflect. rewrite Hct in Hreflect.
    destruct (pg_namespace cat' !! relnamespace ct); [|done].
    by injection Hreflect as <-.
Qed.


End MoreRows.

(** ** Dropping a table or a schema *)

Section Drops.
Context `{db : DbLayer}.
Context `{dj : DjangoDb}.
Context {DropResult : Type}.
Context (drop_table : string → string → bool → M Catalog DropResult).
Context (drop_schema : string → bool → M Catalog DropResult).

(** X20 (deleting an object the catalog no longer has).  For a schema whose
    oid the catalog no longer has, [delete_sa_schema] issues the drop of the
    schema named "MISSING"; for a table whose oid the catalog no longer has,
    [delete_sa_table] issues the drop of the table named "MISSING" in the
    table's schema: the sentinel is passed on as a name.  Neither touches
    an identity record. *)
Theorem deleting_a_vanished_object_names_MISSING (s : SchemaObj)
    (t : TableObj) (w : World) (cat_s cat_t : Catalog) (schema_name : string) :
  engines_wf w →
  (* a schema the catalog no longer has *)
  schema_dict_name s = None →
  cache_lookup (schema_cache_key s) w = None →
  catalogs w !! database_name (schema_database s) = Some cat_s →
  pg_namespace cat_s !! schema_oid s = None →
  (* a table the catalog no longer has, in a schema it has *)
  table_dict_sa_table t = None →
  table_dict_name t = None →
  schema_dict_name (table_schema t) = None →
  cache_lookup (schema_cache_key (table_schema t)) w = None →
  catalogs w !! table_database t = Some cat_t →
  pg_class cat_t !! table_oid t = None →
  pg_namespace cat_t !! schema_oid (table_schema t) = Some schema_name →
  (∃ s' w',
     Schema_delete_sa_schema drop_schema (s, w)
       = ((drop_schema "MISSING" true cat_s).1, (s', w')) ∧
     catalogs w' !! database_name (schema_database s)
       = Some (drop_schema "MISSING" true cat_s).2 ∧
     registry w' = registry w) ∧
  (∃ t' w',
     Table_delete_sa_table drop_table (t, w)
       = ((drop_table "MISSING" schema_name true cat_t).1, (t', w')) ∧
     catalogs w' !! table_database t
       = Some (drop_table "MISSING" schema_name true cat_t).2 ∧
     registry w' = registry w).
Proof.
  intros Hwf Hs Hmiss Hcat_s Hgone_s Ht Hn Hts Hmiss_t Hcat_t Hgone_t Hsname.
  split.
  - unfold Schema_delete_sa_schema.
    destruct (Schema_name_func_miss s w Hwf Hmiss) as (w0 & Hwf0 & Hq0 & Hf).
    rewrite Hcat_s in Hf. cbn zeta in Hf. rewrite Hgone_s in Hf.
    unfold mbind at 1. unfold M_bind at 1.
    rewrite Schema_name_fresh, Hf by done. run. unfold Schema_sa_engine.
    set (w1 := log _ w0).
    assert (engines_wf w1) as Hwf1 by done.
    assert (quiet w w1) as Hq1.
    { eapply quiet_trans; [done|]. by apply quiet_log. }
    change (schema_database (schema_store_name "MISSING" s))
      with (schema_database s).
    destruct (Database_sa_engine_run (schema_database s) w1 Hwf1)
      as (e2 & w2 & Hrun2 & Hdb2 & _ & _ & Hq2).
    rewrite Hrun2. cbn [fst snd].
    assert (catalogs w2 !! engine_database e2 = Some cat_s) as Hcat2.
    { by rewrite Hdb2, (quiet_catalogs _ _ Hq2), (quiet_catalogs _ _ Hq1). }
    rewrite (catalog_ddl_run _ _ _ _ Hcat2). cbn [fst snd].
    eexists _, _. split; [reflexivity|]. cbn. rewrite Hdb2.
    split; [apply lookup_insert_eq|].
    by rewrite (quiet_registry _ _ Hq2), (quiet_registry _ _ Hq1).
  - unfold Table_delete_sa_table.
    (* self.name *)
    destruct (Table_sa_table_run t w cat_t Hwf Hcat_t)
      as (w1 & Hrun1 & Hwf1 & Hq1).
    assert (current_sa_table t cat_t = get_empty_table "MISSING") as Hcur.
    { unfold current_sa_table, reflect_table. by rewrite Ht, Hgone_t. }
    rewrite Hcur in Hrun1.
    assert (∃ t1, Table_name (t, w) = (Return "MISSING"%string, (t1, w1)) ∧
                  table_schema t1 = table_schema t) as (t1 & Hname & Hsch1).
    { unfold Table_name, cached_property. cbn. rewrite Hn. run.
      rewrite Hrun1. by eexists. }
    unfold mbind at 1. unfold M_bind at 1. rewrite Hname.
    (* self.schema.name *)
    assert (cache_lookup (schema_cache_key (table_schema t)) w1 = None)
      as Hmiss1.
    { destruct Hq1 as [(Hclock & Hcache & _) _]. unfold cache_lookup in *.
      by rewrite Hcache, Hclock. }
    destruct (Schema_name_func_miss (table_schema t) w1 Hwf1 Hmiss1)
      as (w2 & Hwf2 & Hq2 & Hf).
    unfold table_database in Hcat_t.
    rewrite (quiet_catalogs _ _ Hq1), Hcat_t in Hf. cbn zeta in Hf.
    rewrite Hsname in Hf.
    unfold mbind at 1. unfold M_bind at 1. unfold on_schema. cbn [fst snd].
    rewrite Hsch1, Schema_name_fresh, Hf by done. cbn [fst snd].
    (* self.schema._sa_engine *)
    run. unfold Schema_sa_engine.
    change (schema_database (table_schema (table_with_schema _ t1)))
      with (schema_database (table_schema t)).
    set (w3 := log (EvCacheSet _) _).
    assert (engines_wf w3) as Hwf3 by done.
    destruct (Database_sa_engine_run (schema_database (table_schema t)) w3 Hwf3)
      as (e4 & w4 & Hrun4 & Hdb4 & _ & _ & Hq4).
    rewrite Hrun4. cbn [fst snd].
    assert (catalogs w4 !! engine_database e4 = Some cat_t) as Hcat4.
    { rewrite Hdb4, (quiet_catalogs _ _ Hq4). subst w3. cbn.
      by rewrite (quiet_catalogs _ _ Hq2), (quiet_catalogs _ _ Hq1). }
    rewrite (catalog_ddl_run _ _ _ _ Hcat4). cbn [fst snd].
    eexists _, _. split; [reflexivity|]. cbn. rewrite Hdb4.
    split; [apply lookup_insert_eq|].
    rewrite (quiet_registry _ _ Hq4). subst w3. cbn.
    by rewrite (quiet_registry _ _ Hq2), (quiet_registry _ _ Hq1).
Qed.

End Drops.

(** * The properties on concrete inputs *)

Lemma engines_wf_empty w : _engines w = ∅ → engines_wf w.
Proof. intros Hw. unfold engines_wf. rewrite Hw. apply map_Forall_empty. Qed.

Lemma schema_name_cache_ttl_witness :
  engines_wf Demo.w0 ∧
  schema_dict_name Demo.s0 = None ∧
  cache_lookup (schema_cache_key Demo.s0) Demo.w0 = None ∧
  catalogs Demo.w0 !! "mathesar"%string = Some Demo.cat0 ∧
  pg_namespace Demo.cat0 !! 2200 = Some "public"%string ∧
  ∃ w1,
    Schema_name (Demo.s0, Demo.w0)
      = (Return "public"%string, (schema_store_name "public" Demo.s0, w1)) ∧
    cache w1 !! "mathesar_schema_name_2200"%string
      = Some ("public"%string, 1300).
Proof.
  assert (engines_wf Demo.w0) as Hwf by by apply engines_wf_empty.
  split_and!; [done..|].
  destruct (schema_name_cache_ttl Demo.s0 Demo.w0 Demo.cat0 "public")
    as (w1 & Hrun & Hcache & _); [done..|].
  by exists w1.
Defined.

Lemma schema_name_read_once_witness :
  Schema_name (Demo.s0, Demo.w0)
    = (Return "public"%string,
       (schema_store_name "public" Demo.s0,
        (Schema_name (Demo.s0, Demo.w0)).2.2)) ∧
  ∀ w2 : World,
    Schema_name (schema_store_name "public" Demo.s0, w2)
      = (Return "public"%string, (schema_store_name "public" Demo.s0, w2)).
Proof.
  assert (Schema_name (Demo.s0, Demo.w0)
    = (Return "public"%string,
       (schema_store_name "public" Demo.s0,
        (Schema_name (Demo.s0, Demo.w0)).2.2))) as Hread
    by (vm_compute; reflexivity).
  split; [exact Hread|].
  intros w2. exact (proj1 (schema_name_read_once _ _ _ _ _ Hread w2)).
Defined.

Lemma missing_object_sentinel_witness :
  let s := {| schema_id := 2; schema_oid := 9999; schema_database := Demo.d0;
              schema_dict_name := None |} in
  let t := Demo.table_obj (Some 3) 9999 false in
  engines_wf Demo.w0 ∧
  pg_namespace Demo.cat0 !! 9999 = None ∧
  pg_class Demo.cat0 !! 9999 = None ∧
  (∃ s' w', Schema_name (s, Demo.w0) = (Return "MISSING"%string, (s', w'))) ∧
  (∃ t' w', Table_name (t, Demo.w0) = (Return "MISSING"%string, (t', w'))).
Proof.
  intros s t.
  assert (engines_wf Demo.w0) as Hwf by by apply engines_wf_empty.
  split_and!; [done..| |].
  - apply (missing_object_sentinel s t Demo.w0 Demo.cat0 Demo.cat0); done.
  - apply (missing_object_sentinel s t Demo.w0 Demo.cat0 Demo.cat0); done.
Defined.

Lemma sequence_ahead_w0_constraints :
  sequence_ahead "Constraint" (constraints (registry Demo.w0)) Demo.w0.
Proof.
  intros id [row Hid]. cbn in Hid.
  apply lookup_singleton_Some in Hid as [<- _]. by vm_compute.
Qed.

Lemma add_constraint_creates_one_row_witness :
  let cat' := (create_constraint (Some "public"%string) Demo.unique_title
                 Demo.cat0).2 in
  let key := {| conoid := 16385; conname := "patents_title_key";
                contype := UNIQUE; conkey := [2] |} in
  engines_wf Demo.w0 ∧
  create_constraint (sa_schema (current_sa_table Demo.t0 Demo.cat0))
    Demo.unique_title Demo.cat0 = (Return tt, cat') ∧
  constraint_name_of Demo.unique_title 16384 cat'
    = Return "patents_title_key"%string ∧
  find_constraint_by_name "patents_title_key" 16384 cat' = Some key ∧
  integer_field_fits 16385 = true ∧
  sequence_ahead "Constraint" (constraints (registry Demo.w0)) Demo.w0 ∧
  sequence_mark "Constraint" Demo.w0 = 7 ∧
  ∃ c t' w',
    Table_add_constraint Demo.unique_title (Demo.t0, Demo.w0)
      = (Return c, (t', w')) ∧
    constraint_id c = Some 8 ∧
    constraint_oid c = 16385 ∧
    table_dict_sa_table t' = None ∧
    size (constraints (registry w')) = 2%nat ∧
    sequence_mark "Constraint" w' = 8.
Proof.
  intros cat' key.
  assert (engines_wf Demo.w0) as Hwf by by apply engines_wf_empty.
  assert (create_constraint (sa_schema (current_sa_table Demo.t0 Demo.cat0))
            Demo.unique_title Demo.cat0 = (Return tt, cat')) as Hddl
    by (vm_compute; reflexivity).
  assert (constraint_name_of Demo.unique_title 16384 cat'
          = Return "patents_title_key"%string) as Hname
    by (vm_compute; reflexivity).
  assert (find_constraint_by_name "patents_title_key" 16384 cat' = Some key)
    as Hfind by (vm_compute; reflexivity).
  pose proof sequence_ahead_w0_constraints as Hahead.
  split_and!; [done..|].
  destruct (add_constraint_creates_one_row Demo.t0 Demo.w0 Demo.unique_title
              1 Demo.cat0 cat' "patents_title_key" key)
    as (w' & Hrun & Hslot & _ & _ & _ & _ & Hsize & _ & Hmark & _); [done..|].
  eexists _, _, w'. split; [exact Hrun|]. split_and!; [done..| |].
  - rewrite Hsize. reflexivity.
  - rewrite Hmark. reflexivity.
Defined.

Lemma constraint_drop_removes_row_witness :
  let cat' := (drop_constraint "patents" (Some "public"%string) "patents_pkey"
                 Demo.cat0).2 in
  engines_wf Demo.w0 ∧
  current_sa_constraint Demo.c0 Demo.cat0 = Return (Some Demo.patents_pkey) ∧
  ∃ c' w',
    Constraint_drop (Demo.c0, Demo.w0) = (Return tt, (c', w')) ∧
    constraints (registry w') = ∅ ∧
    ∃ rows,
      Constraint_filter_table current_objects 1 w' = (Return rows, w') ∧
      7 ∉ rows.*1.
Proof.
  intros cat'.
  assert (engines_wf Demo.w0) as Hwf by by apply engines_wf_empty.
  assert (current_sa_constraint Demo.c0 Demo.cat0
          = Return (Some Demo.patents_pkey)) as Hsa
    by (vm_compute; reflexivity).
  split_and!; [done..|].
  destruct (constraint_drop_removes_row Demo.c0 Demo.w0 7 Demo.cat0 cat'
              Demo.patents_pkey)
    as (c' & w' & evs & Hrun & _ & _ & Hreg & _ & _ & Hlist); [done..|].
  exists c', w'. split; [exact Hrun|]. split.
  - rewrite Hreg. cbn. apply delete_singleton_eq.
  - apply Hlist.
Defined.

Lemma unique_table_reg0 : unique_table Demo.reg0.
Proof.
  intros i j ri rj Hi Hj _ _. cbn in Hi, Hj.
  apply lookup_singleton_Some in Hi as [<- _].
  apply lookup_singleton_Some in Hj as [<- _]. done.
Qed.

Lemma table_insert_unique_witness :
  let t := Demo.table_obj None 16384 true in
  table_state_adding t = true ∧
  unique_table (registry Demo.w0) ∧
  Table_save (t, Demo.w0)
    = (Raise (ValidationError "Table OID is not unique"), (t, Demo.w0)) ∧
  unique_table (registry (Table_save (t, Demo.w0)).2.2).
Proof.
  intros t. split; [done|]. split; [exact unique_table_reg0|].
  destruct (table_insert_unique t Demo.w0 eq_refl unique_table_reg0)
    as (Hclash & Hinv & _).
  split; [|exact Hinv].
  apply (Hclash 1 {| tbl_oid := 16384; tbl_schema_id := 1;
                     tbl_import_verified := None |}
           {| sch_oid := 2200; sch_database_id := 1 |}); done.
Defined.

Lemma update_column_reference_remaps_witness :
  owned_columns 16400 ["b"%string] Demo.cat_split = [(2, "b"%string)] ∧
  engines_wf Demo.w_split ∧
  ∃ t' w',
    Table_update_column_reference ["b"%string] Demo.column_name_id_map
      (Demo.extracted, Demo.w_split) = (Return tt, (t', w')) ∧
    columns (registry w') !! 11
      = Some {| col_table_id := 2; col_attnum := 2;
                col_display_options := Some "{}"%string |} ∧
    columns (registry w') !! 10 = columns Demo.reg_split !! 10 ∧
    columns (registry w') !! 12 = columns Demo.reg_split !! 12.
Proof.
  assert (owned_columns 16400 ["b"%string] Demo.cat_split
          = [(2, "b"%string)]) as Howned by (vm_compute; reflexivity).
  assert (engines_wf Demo.w_split) as Hwf by by apply engines_wf_empty.
  split; [exact Howned|]. split; [exact Hwf|].
  destruct (update_column_reference_remaps Demo.extracted Demo.w_split
              ["b"%string] Demo.column_name_id_map 2 Demo.cat_split)
    as (t' & w' & Hrun & Hmoved & Hkept).
  - exact Hwf.
  - done.
  - done.
  - done.
  - change (owned_columns (table_oid Demo.extracted) ["b"%string]
              Demo.cat_split) with (owned_columns 16400 ["b"%string] Demo.cat_split).
    rewrite Howned. cbn. apply NoDup_singleton.
  - change (owned_columns (table_oid Demo.extracted) ["b"%string]
              Demo.cat_split) with (owned_columns 16400 ["b"%string] Demo.cat_split).
    rewrite Howned. intros attnum name [= -> ->]%list_elem_of_singleton.
    exists 11. split; [done|]. by eexists.
  - unfold Demo.column_name_id_map. intros name1 name2 id H1 H2.
    rewrite !lookup_insert_Some, lookup_singleton_Some in H1, H2.
    destruct H1 as [[<- <-]|[? [[<- <-]|[? [<- <-]]]]];
      destruct H2 as [[<- ?]|[? [[<- ?]|[? [<- ?]]]]]; congruence.
  - change (owned_columns (table_oid Demo.extracted) ["b"%string]
              Demo.cat_split) with (owned_columns 16400 ["b"%string] Demo.cat_split)
      in Hmoved, Hkept.
    rewrite Howned in Hmoved, Hkept.
    exists t', w'. split; [exact Hrun|]. split_and!.
    + destruct (Hmoved 2 "b"%string 11) as [-> _]; [by left|done|done].
    + apply Hkept. intros attnum name [= -> ->]%list_elem_of_singleton. done.
    + apply Hkept. intros attnum name [= -> ->]%list_elem_of_singleton. done.
Defined.

Lemma first_access_alone_single_flight_witness :
  _engines Demo.w0 !! "mathesar"%string = None ∧
  scheduled_among 3 [0; 0; 0; 1; 2; 2; 1; 1; 2]%nat
    = [0; 0; 0; 1; 2; 2; 1; 1; 2]%nat ∧
  let c := run_schedule Demo.d0 [0; 0; 0; 1; 2; 2; 1; 1; 2]%nat
             (first_accesses 3 Demo.w0) in
  all_returned c ∧ single_flight Demo.w0 c.
Proof.
  split; [done|]. split; [done|].
  apply (first_access_alone_single_flight Demo.d0 3
           [0; 0; 0; 1; 2; 2; 1; 1; 2]%nat Demo.w0 eq_refl).
  split.
  - by exists 0%nat, [1; 2; 2; 1; 1; 2]%nat.
  - intros [|[|[|i]]] Hi; [vm_compute; lia..|lia].
Defined.

(** C9, as the specification states it, fails: two threads that both test
    [self.name not in _engines] before either stores its engine construct
    two engines and return different handles. *)
Lemma interleaved_first_accesses_construct_twice :
  let c := run_schedule Demo.d0 [0; 1; 0; 1; 0; 1]%nat
             (first_accesses 2 Demo.w0) in
  _engines Demo.w0 !! "mathesar"%string = None ∧
  all_returned c ∧
  engines_created c.2 = 2%nat ∧
  c.1 = [Returned (Return {| engine_database := "mathesar";
                             engine_serial := 0 |});
         Returned (Return {| engine_database := "mathesar";
                             engine_serial := 1 |})] ∧
  ¬ single_flight Demo.w0 c.
Proof.
  intros c.
  assert (c.1 = [Returned (Return {| engine_database := "mathesar";
                                     engine_serial := 0 |});
                 Returned (Return {| engine_database := "mathesar";
                                     engine_serial := 1 |})]) as Hpcs
    by (vm_compute; reflexivity).
  assert (engines_created c.2 = 2%nat) as Hcount by (vm_compute; reflexivity).
  split_and!; [done| |done|done|].
  - unfold all_returned. rewrite Hpcs. repeat constructor; by eexists.
  - intros [Hone _]. rewrite Hcount in Hone. discriminate.
Qed.

(** C2 on a concrete input: a Table instance that has read its columns keeps
    answering them after [add_column], [alter_column] and [drop_column]
    changed the columns in the catalog. *)
Theorem column_ddl_leaves_cached_shape_stale :
  let cached := (Table_sa_columns (Demo.t0, Demo.w0)).2 in
  let columns_in_catalog (s : TableObj * World) :=
    cat ← catalogs s.2 !! "mathesar"%string;
    attributes <$> pg_class cat !! 16384 in
  let added := Table_add_column (db:=Demo.layer) "year"%string cached in
  let altered := Table_alter_column (db:=Demo.layer) 2 "name"%string cached in
  let dropped := Table_drop_column (db:=Demo.layer) 2 cached in
  (added.1 = Return tt ∧
   columns_in_catalog added.2
     = Some [(1, "id"); (2, "title"); (3, "year")]%string ∧
   (Table_sa_columns added.2).1 = Return [(1, "id"); (2, "title")]%string) ∧
  (altered.1 = Return tt ∧
   columns_in_catalog altered.2 = Some [(1, "id"); (2, "name")]%string ∧
   (Table_sa_columns altered.2).1 = Return [(1, "id"); (2, "title")]%string) ∧
  (dropped.1 = Return tt ∧
   columns_in_catalog dropped.2 = Some [(1, "id")]%string ∧
   (Table_sa_columns dropped.2).1 = Return [(1, "id"); (2, "title")]%string).
Proof. vm_compute. repeat split; reflexivity. Qed.

(** The same instance does see a constraint it added: [add_constraint]
    drops the cached table. *)
Example add_constraint_refreshes_constraints :
  let cached := (Table_sa_constraints (Demo.t0, Demo.w0)).2 in
  let added := Table_add_constraint (db:=Demo.layer) Demo.unique_title cached in
  match (Table_sa_constraints added.2).1 with
  | Return cs => conname <$> cs
  | Raise _ => []
  end = ["patents_pkey"; "patents_title_key"]%string.
Proof. vm_compute. reflexivity. Qed.

(** The split of the specification: after [update_column_reference] on the
    extracted table and on the remainder, the row of b points at the
    extracted table and the rows of a and c at the remainder. *)
Example split_table_column_attribution :
  let after_extracted :=
    Table_update_column_reference ["b"%string] Demo.column_name_id_map
      (Demo.extracted, Demo.w_split) in
  let after_remainder :=
    Table_update_column_reference ["a"; "c"]%string Demo.column_name_id_map
      (Demo.remainder, after_extracted.2.2) in
  let rows := columns (registry after_remainder.2.2) in
  after_remainder.1 = Return tt ∧
  rows !! 10 = Some {| col_table_id := 1; col_attnum := 1;
                       col_display_options := None |} ∧
  rows !! 11 = Some {| col_table_id := 2; col_attnum := 2;
                       col_display_options := Some "{}"%string |} ∧
  rows !! 12 = Some {| col_table_id := 1; col_attnum := 3;
                       col_display_options := None |}.
Proof. vm_compute. repeat split; reflexivity. Qed.

(** * The further properties on concrete inputs *)

Lemma cached_engine_reused_under_any_schedule_witness :
  let w := (Database_sa_engine Demo.d0 Demo.w0).2 in
  let engine := {| engine_database := "mathesar"; engine_serial := 0 |} in
  let c := run_schedule Demo.d0 [0; 1; 1; 0; 1; 0]%nat (first_accesses 2 w) in
  _engines w !! "mathesar"%string = Some engine ∧
  engines_created c.2 = 1%nat ∧
  Forall (λ at_, ∀ r, at_ = Returned r → r = Return engine) c.1.
Proof.
  intros w engine c.
  assert (_engines w !! database_name Demo.d0 = Some engine) as He
    by (vm_compute; reflexivity).
  split; [exact He|].
  destruct (cached_engine_reused_under_any_schedule Demo.d0 engine 2
              [0; 1; 1; 0; 1; 0]%nat w He) as (Hcount & _ & Hall).
  split; [exact Hcount|exact Hall].
Defined.

Lemma schema_cache_key_injective_witness :
  let s := {| schema_id := 9; schema_oid := 2200;
              schema_database := {| database_id := 5;
                                    database_name := "mathesar" |};
              schema_dict_name := Some "public"%string |} in
  schema_cache_key Demo.s0 = schema_cache_key s ∧
  database_name (schema_database Demo.s0) = database_name (schema_database s) ∧
  schema_oid Demo.s0 = schema_oid s.
Proof.
  intros s.
  assert (schema_cache_key Demo.s0 = schema_cache_key s) as Hkey
    by (vm_compute; reflexivity).
  split; [exact Hkey|]. exact (schema_cache_key_injective Demo.s0 s Hkey).
Defined.

Lemma missing_schema_name_not_cached_witness :
  engines_wf Demo.w0 ∧
  pg_namespace Demo.cat0 !! 9999 = None ∧
  ∃ w1,
    Schema_name (Cases.s_gone, Demo.w0)
      = (Return "MISSING"%string,
         (schema_store_name "MISSING" Cases.s_gone, w1)) ∧
    cache w1 = ∅.
Proof.
  assert (engines_wf Demo.w0) as Hwf by by apply engines_wf_empty.
  split; [exact Hwf|]. split; [done|].
  destruct (missing_schema_name_not_cached Cases.s_gone Demo.w0 Demo.cat0)
    as (w1 & Hrun & Hcache & _); [done..|].
  exists w1. split; [exact Hrun|exact Hcache].
Defined.

Lemma clear_name_cache_forces_reread_witness :
  let w := set_catalogs (<["mathesar"%string := Cases.cat_renamed]>)
             (Schema_name (Demo.s0, Demo.w0)).2.2 in
  engines_wf w ∧
  cache_lookup (schema_cache_key Demo.s0) w = Some "public"%string ∧
  ∃ w1 w2,
    Schema_clear_name_cache (Demo.s0, w) = (Return tt, (Demo.s0, w1)) ∧
    Schema_name (Demo.s0, w1)
      = (Return "archive"%string, (schema_store_name "archive" Demo.s0, w2)).
Proof.
  intros w.
  assert (engines_wf w) as Hwf.
  { assert (_engines w = {[ "mathesar"%string :=
                {| engine_database := "mathesar"; engine_serial := 0 |} ]})
      as Heng by (vm_compute; reflexivity).
    unfold engines_wf. rewrite Heng. by apply map_Forall_singleton. }
  split; [exact Hwf|]. split; [vm_compute; reflexivity|].
  destruct (clear_name_cache_forces_reread Demo.s0 Demo.s0 w Cases.cat_renamed
              "archive") as (w1 & w2 & Hclear & _ & Hname & _);
    [exact Hwf|done|done|done|vm_compute; reflexivity|vm_compute; reflexivity|].
  exists w1, w2. split; [exact Hclear|exact Hname].
Defined.

Lemma unique_oid_per_database_reg0 : unique_oid_per_database Demo.reg0.
Proof.
  intros i j ri rj d Hi Hj _ _ _. cbn in Hi, Hj.
  apply lookup_singleton_Some in Hi as [<- _].
  apply lookup_singleton_Some in Hj as [<- _]. done.
Qed.

Lemma no_table_of_oid_16400 :
  ¬ map_Exists (λ _, oid_in_database Demo.reg0 16400 1) (tables Demo.reg0).
Proof.
  intros (i & row & Hrow & Hoid & _). cbn in Hrow.
  apply lookup_singleton_Some in Hrow as [_ <-]. done.
Qed.

Lemma connection_failure_is_not_missing_witness :
  engines_wf Cases.w_unreachable ∧
  (∃ w', Schema_name (Demo.s0, Cases.w_unreachable)
           = (Raise OperationalError, (Demo.s0, w'))) ∧
  (∃ w', Table_name (Demo.t0, Cases.w_unreachable)
           = (Raise OperationalError, (Demo.t0, w'))).
Proof.
  assert (engines_wf Cases.w_unreachable) as Hwf by by apply engines_wf_empty.
  split; [exact Hwf|].
  destruct (connection_failure_is_not_missing Demo.s0 Demo.t0
              Cases.w_unreachable) as ((w1 & H1 & _) & _ & (w3 & H3));
    [done..|].
  split; [by exists w1|by exists w3].
Defined.

Lemma table_insert_keeps_oid_unique_per_database_witness :
  let t := Demo.table_obj None 16400 true in
  table_state_adding t = true ∧
  schema_as_registered t (registry Demo.w0) ∧
  (Table_save (t, Demo.w0)).1 = Return tt ∧
  unique_oid_per_database (registry (Table_save (t, Demo.w0)).2.2).
Proof.
  intros t. split; [done|]. split; [done|]. split; [vm_compute; reflexivity|].
  apply (table_insert_keeps_oid_unique_per_database t Demo.w0);
    [done|done|exact unique_oid_per_database_reg0].
Defined.

Lemma sequence_ahead_w0_tables :
  sequence_ahead "Table" (tables (registry Demo.w0)) Demo.w0.
Proof.
  intros id [row Hid]. cbn in Hid.
  apply lookup_singleton_Some in Hid as [<- _]. by vm_compute.
Qed.

Lemma table_insert_round_trip_witness :
  let t := Demo.table_obj None 16400 true in
  let t' := table_set_saved 2 t in
  integer_field_fits (table_oid t) = true ∧
  sequence_ahead "Table" (tables (registry Demo.w0)) Demo.w0 ∧
  sequence_mark "Table" Demo.w0 = 1 ∧
  ∃ w' w'',
    Table_save (t, Demo.w0) = (Return tt, (t', w')) ∧
    tables (registry w') !! 2
      = Some {| tbl_oid := 16400; tbl_schema_id := 1;
                tbl_import_verified := None |} ∧
    sequence_mark "Table" w' = 2 ∧
    Table_save (t', w') = (Return tt, (t', w'')) ∧
    registry w'' = registry w'.
Proof.
  intros t t'.
  split; [done|]. split; [exact sequence_ahead_w0_tables|]. split; [done|].
  destruct (table_insert_round_trip t Demo.w0)
    as (w' & w'' & Hsave & _ & _ & _ & Hreg & Hmark & _ & _ & Hagain & Hsame
        & _);
    [done|done|done|exact sequence_ahead_w0_tables|done
    |exact no_table_of_oid_16400|].
  exists w', w''. split; [exact Hsave|].
  split; [|split; [exact Hmark|split; [exact Hagain|exact Hsame]]].
  rewrite Hreg. vm_compute. reflexivity.
Defined.

(** An oid of 2 ^ 63 is not one that a 64 bit integer column holds: [save]
    raises the error of the backend and writes no row. *)
Example table_save_oid_out_of_range :
  let t := Demo.table_obj None (2 ^ 63) true in
  Table_save (t, Demo.w0) = (Raise OverflowError, (t, Demo.w0)).
Proof. vm_compute. reflexivity. Qed.

(** A new instance that carries the primary key of a row: [save] raises the
    validation error of the key and the row stays as it was. *)
Example table_save_with_a_taken_key :
  let t := Demo.table_obj (Some 1) 16500 true in
  Table_save (t, Demo.w0)
    = (Raise (ValidationError "Table with this ID already exists."),
       (t, Demo.w0)).
Proof. vm_compute. reflexivity. Qed.

(** A constraint is added, dropped, and added again: the rows are as they
    were after the drop, and the second row gets the key 9, not the key 8
    of the row that was deleted. *)
Example constraint_key_is_not_given_again :
  let added := Table_add_constraint Demo.unique_title (Demo.t0, Demo.w0) in
  let c := {| constraint_id := Some 8; constraint_oid := 16385;
              constraint_table := Demo.t0;
              constraint_dict_sa_constraint := None |} in
  let dropped := Constraint_drop (c, added.2.2) in
  let again :=
    Table_add_constraint Demo.unique_title (added.2.1, dropped.2.2) in
  added.1 = Return c ∧
  dropped.1 = Return tt ∧
  registry dropped.2.2 = registry Demo.w0 ∧
  sequence_mark "Constraint" dropped.2.2 = 8 ∧
  again.1 = Return {| constraint_id := Some 9; constraint_oid := 16385;
                      constraint_table := Demo.t0;
                      constraint_dict_sa_constraint := None |} ∧
  dom (constraints (registry again.2.2)) = {[ 7; 9 ]}.
Proof. split_and!; vm_compute; reflexivity. Qed.

(** [delete] of a constraint that has no primary key. *)
Example constraint_delete_without_key :
  (Constraint_delete (constraint_with_id None Demo.c0, Demo.w0)).1
    = Raise AssertionError.
Proof. reflexivity. Qed.

Lemma add_constraint_failure_leaves_no_row_witness :
  let spec := {| spec_name := None; spec_type := UNIQUE;
                 spec_columns_attnum := []; spec_table_oid := 16384 |} in
  ∃ t' w',
    Table_add_constraint spec (Demo.t0, Demo.w0)
      = (Raise IndexError, (t', w')) ∧
    registry w' = registry Demo.w0.
Proof.
  intros spec. eexists _, _.
  assert (∀ r, r = Table_add_constraint spec (Demo.t0, Demo.w0) →
               r = (Raise IndexError, (r.2.1, r.2.2))) as Hrun
    by (intros r ->; vm_compute; reflexivity).
  specialize (Hrun _ eq_refl). split; [exact Hrun|].
  exact (add_constraint_failure_leaves_no_row _ _ _ _ _ _ Hrun).
Defined.

Lemma add_constraint_ddl_is_not_rolled_back_witness :
  let t := Demo.table_obj None 16384 false in
  let cat' := (create_constraint (Some "public"%string) Demo.unique_title
                 Demo.cat0).2 in
  engines_wf Demo.w0 ∧
  find_constraint_by_name "patents_title_key" 16384 cat' ≠ None ∧
  ∃ t' w',
    Table_add_constraint Demo.unique_title (t, Demo.w0)
      = (Raise ValueError, (t', w')) ∧
    catalogs w' !! "mathesar"%string = Some cat' ∧
    registry w' = registry Demo.w0.
Proof.
  intros t cat'.
  assert (engines_wf Demo.w0) as Hwf by by apply engines_wf_empty.
  split; [exact Hwf|]. split; [by vm_compute|].
  assert (∀ r, r = Table_add_constraint Demo.unique_title (t, Demo.w0) →
               r = (Raise ValueError, (r.2.1, r.2.2))) as Hrun
    by (intros r ->; vm_compute; reflexivity).
  specialize (Hrun _ eq_refl).
  assert (catalogs Demo.w0 !! table_database t = Some Demo.cat0) as Hcat0
    by done.
  assert (create_constraint (sa_schema (current_sa_table t Demo.cat0))
            Demo.unique_title Demo.cat0 = (Return tt, cat')) as Hddl
    by (vm_compute; reflexivity).
  destruct (add_constraint_ddl_is_not_rolled_back _ _ _ _ _ _ _ _
              Hwf Hcat0 Hddl Hrun) as (Hcat & Hreg & _).
  eexists _, _. split; [exact Hrun|]. split; [exact Hcat|exact Hreg].
Defined.

Lemma added_constraint_shows_in_sa_constraints_witness :
  let added := Table_add_constraint Demo.unique_title (Demo.t0, Demo.w0) in
  engines_wf Demo.w0 ∧
  (∃ c_obj, added.1 = Return c_obj ∧ constraint_oid c_obj = 16385) ∧
  ∃ cs t'' w'',
    Table_sa_constraints added.2 = (Return cs, (t'', w'')) ∧
    ∃ c, c ∈ cs ∧ conoid c = 16385.
Proof.
  intros added.
  assert (engines_wf Demo.w0) as Hwf by by apply engines_wf_empty.
  split; [exact Hwf|].
  set (c_obj := {| constraint_id := Some 8; constraint_oid := 16385;
                   constraint_table := added.2.1;
                   constraint_dict_sa_constraint := None |}).
  assert (added = (Return c_obj, (added.2.1, added.2.2))) as Hrun
    by (vm_compute; reflexivity).
  split; [exists c_obj; split; [by rewrite Hrun|done]|].
  set (cat' := (create_constraint (Some "public"%string) Demo.unique_title
                  Demo.cat0).2).
  destruct (reflect_table 16384 cat') as [table'|e] eqn:Hreflect;
    [|by vm_compute in Hreflect].
  assert (catalogs Demo.w0 !! table_database Demo.t0 = Some Demo.cat0)
    as Hcat0 by done.
  assert (create_constraint (sa_schema (current_sa_table Demo.t0 Demo.cat0))
            Demo.unique_title Demo.cat0 = (Return tt, cat')) as Hddl
    by (vm_compute; reflexivity).
  destruct (added_constraint_shows_in_sa_constraints _ _ _ _ _ _ _ _ _
              Hwf Hcat0 Hddl Hrun Hreflect)
    as (t'' & w'' & Hcons & c & Hin & Hoid).
  exists (sa_constraints table'), t'', w''. split.
  - rewrite <- Hcons. by destruct added as [? [? ?]].
  - by exists c.
Defined.

Lemma constraint_drop_failure_keeps_row_witness :
  let c := {| constraint_id := Some 7; constraint_oid := 999;
              constraint_table := Demo.t0;
              constraint_dict_sa_constraint := None |} in
  ∃ c' w',
    Constraint_drop (c, Demo.w0) = (Raise TypeError, (c', w')) ∧
    registry w' = registry Demo.w0.
Proof.
  intros c. eexists _, _.
  assert (∀ r, r = Constraint_drop (c, Demo.w0) →
               r = (Raise TypeError, (r.2.1, r.2.2))) as Hrun
    by (intros r ->; vm_compute; reflexivity).
  specialize (Hrun _ eq_refl). split; [exact Hrun|].
  exact (constraint_drop_failure_keeps_row _ _ _ _ _ Hrun).
Defined.

Lemma add_then_drop_restores_rows_witness :
  let added := Table_add_constraint Demo.unique_title (Demo.t0, Demo.w0) in
  ∃ c c' w'',
    added.1 = Return c ∧
    Constraint_drop (c, added.2.2) = (Return tt, (c', w'')) ∧
    registry w'' = registry Demo.w0.
Proof.
  intros added.
  set (c := {| constraint_id := Some 8; constraint_oid := 16385;
               constraint_table := added.2.1;
               constraint_dict_sa_constraint := None |}).
  assert (added = (Return c, (added.2.1, added.2.2))) as Hadd
    by (vm_compute; reflexivity).
  assert (∀ r, r = Constraint_drop (c, added.2.2) →
               r = (Return tt, (r.2.1, r.2.2))) as Hdrop
    by (intros r ->; vm_compute; reflexivity).
  specialize (Hdrop _ eq_refl).
  exists c. eexists _, _. split; [by rewrite Hadd|]. split; [exact Hdrop|].
  exact (add_then_drop_restores_rows _ _ _ _ _ _ _ _ Hadd Hdrop).
Defined.

Lemma update_column_reference_all_or_nothing_witness :
  let known : gmap string Z := {[ "a"%string := 10 ]} in
  ∃ t' w',
    Table_update_column_reference ["b"%string] known
      (Demo.extracted, Demo.w_split) = (Raise KeyError, (t', w')) ∧
    registry w' = registry Demo.w_split.
Proof.
  intros known. eexists _, _.
  assert (∀ r, r = Table_update_column_reference ["b"%string] known
                     (Demo.extracted, Demo.w_split) →
               r = (Raise KeyError, (r.2.1, r.2.2))) as Hrun
    by (intros r ->; vm_compute; reflexivity).
  specialize (Hrun _ eq_refl). split; [exact Hrun|].
  exact (proj1 (update_column_reference_all_or_nothing _ _ _ _ _ _ _ Hrun)).
Defined.

Lemma deleting_a_vanished_object_names_MISSING_witness :
  engines_wf Cases.w_missing ∧
  pg_namespace Cases.cat_missing !! 9999 = None ∧
  pg_class Cases.cat_missing !! 9999 = None ∧
  is_Some (pg_namespace Cases.cat_missing !! 2300) ∧
  is_Some (pg_class Cases.cat_missing !! 17000) ∧
  (∃ s' w' cat',
     Schema_delete_sa_schema Cases.drop_schema (Cases.s_gone, Cases.w_missing)
       = (Return tt, (s', w')) ∧
     catalogs w' !! "mathesar"%string = Some cat' ∧
     pg_namespace cat' !! 2300 = None) ∧
  (∃ t' w' cat',
     Table_delete_sa_table Cases.drop_table (Cases.t_gone, Cases.w_missing)
       = (Return tt, (t', w')) ∧
     catalogs w' !! "mathesar"%string = Some cat' ∧
     pg_class cat' !! 17000 = None).
Proof.
  assert (engines_wf Cases.w_missing) as Hwf by by apply engines_wf_empty.
  split; [exact Hwf|]. split; [done|]. split; [done|].
  split; [by eexists|]. split; [by eexists|].
  destruct (deleting_a_vanished_object_names_MISSING Cases.drop_table
              Cases.drop_schema Cases.s_gone Cases.t_gone Cases.w_missing
              Cases.cat_missing Cases.cat_missing "public" Hwf)
    as [(s' & w' & Hs & Hcat_s & _) (t' & w'' & Ht & Hcat_t & _)];
    [done..|].
  split.
  - exists s', w'. eexists. split; [exact Hs|]. split; [exact Hcat_s|].
    vm_compute. reflexivity.
  - exists t', w''. eexists. split; [exact Ht|]. split; [exact Hcat_t|].
    vm_compute. reflexivity.
Defined.
